(** * Contour border synthesis (lib/contour-border): a shallow embedding

    The module draws a hand-drawn dotted/dashed outline around a cut-out
    image using nothing but Canvas 2D compositing.  The embedding follows
    the TypeScript source function by function:

    - [createBorderMask]      builds mask, inner and outer silhouettes and
                              the solid ring;
    - [applyHandDrawnEffect]  stipples the ring through a stencil;
    - [applyContourBorder]    composes the source image and the ring.

    JavaScript numbers are idealised as rationals ([Q]); pixel channels
    are 8-bit integers ([Z] clamped to 0..255).  The browser is an
    explicit [World]: decodable resources, the [Math.random] stream and
    the console.  Everything the browser decides on its own (CSS colour
    parsing, trigonometry, path rasterisation, the resampling filter of
    [drawImage]) is an interface, [Platform].  Of the filter the
    interface fixes two laws only: an unscaled, pixel-aligned draw
    copies, and an enlarging draw gives the pixel under the sampled
    point at least a quarter of the weight.  [refPlatform] is the
    instance with bilinear smoothing, the browsers' default;
    [crispPlatform] is the same without smoothing. *)

From Stdlib Require Import ZArith QArith Qround Qminmax List String Ascii Bool Lia Lqa.
Import ListNotations.

Open Scope Z_scope.

(* ------------------------------------------------------------------ *)
(** ** Pixels and Porter-Duff compositing *)

Record RGBA : Type := mkRGBA { red : Z; green : Z; blue : Z; alpha : Z }.

Definition transparentBlack : RGBA := mkRGBA 0 0 0 0.

(** Channels are stored in a Uint8ClampedArray. *)
Definition clampByte (z : Z) : Z := Z.max 0 (Z.min 255 z).

(** Product of two 8-bit fractions, rounded to nearest. *)
Definition mul255 (a b : Z) : Z := (a * b + 127) / 255.

(** A canvas keeps premultiplied colour: a pixel of alpha 0 has no colour. *)
Definition storePixel (r g b a : Z) : RGBA :=
  let a' := clampByte a in
  if a' =? 0 then transparentBlack
  else mkRGBA (clampByte r) (clampByte g) (clampByte b) a'.

(** The values of [globalCompositeOperation] the module assigns. *)
Inductive CompositeOp : Type :=
| SourceOver | SourceIn | DestinationIn | DestinationOut.

Definition blend (op : CompositeOp) (s d : RGBA) : RGBA :=
  match op with
  | SourceOver =>
      let rest := mul255 (alpha d) (255 - alpha s) in
      let a := alpha s + rest in
      let mix cs cd := (cs * alpha s + cd * rest) / a in
      storePixel (mix (red s) (red d)) (mix (green s) (green d))
                 (mix (blue s) (blue d)) a
  | SourceIn =>
      storePixel (red s) (green s) (blue s) (mul255 (alpha s) (alpha d))
  | DestinationIn =>
      storePixel (red d) (green d) (blue d) (mul255 (alpha d) (alpha s))
  | DestinationOut =>
      storePixel (red d) (green d) (blue d) (mul255 (alpha d) (255 - alpha s))
  end.

(* ------------------------------------------------------------------ *)
(** ** Images and canvases *)

(** A decoded [HTMLImageElement]. *)
Record HTMLImage : Type := mkImage {
  naturalWidth : Z;
  naturalHeight : Z;
  imagePixel : Z -> Z -> RGBA
}.

(** An [HTMLCanvasElement]: its size and its bitmap. *)
Record Canvas : Type := mkCanvas {
  width : Z;
  height : Z;
  bitmap : Z -> Z -> RGBA
}.

Definition inBounds (w h x y : Z) : bool :=
  (0 <=? x) && (x <? w) && (0 <=? y) && (y <? h).

(** Reading outside a bitmap gives transparent black. *)
Definition pixelAt (c : Canvas) (x y : Z) : RGBA :=
  if inBounds (width c) (height c) x y then bitmap c x y else transparentBlack.

(** [document.createElement('canvas')] followed by the two size
    assignments: a cleared bitmap of that size. *)
Definition createCanvas (w h : Z) : Canvas :=
  mkCanvas w h (fun _ _ => transparentBlack).

Inductive CanvasImageSource : Type :=
| FromImage (img : HTMLImage)
| FromCanvas (c : Canvas).

Definition sourceWidth (s : CanvasImageSource) : Z :=
  match s with FromImage i => naturalWidth i | FromCanvas c => width c end.

Definition sourceHeight (s : CanvasImageSource) : Z :=
  match s with FromImage i => naturalHeight i | FromCanvas c => height c end.

Definition sourcePixel (s : CanvasImageSource) (x y : Z) : RGBA :=
  match s with
  | FromImage i =>
      if inBounds (naturalWidth i) (naturalHeight i) x y
      then imagePixel i x y else transparentBlack
  | FromCanvas c => pixelAt c x y
  end.

(* ------------------------------------------------------------------ *)
(** ** Rational helpers (JavaScript numbers) *)

Definition Qltb (a b : Q) : bool := negb (Qle_bool b a).
Definition Qleb (a b : Q) : bool := Qle_bool a b.

Definition half : Q := 1 # 2.

(** Centre of pixel column (or row) [x]. *)
Definition pixelCentre (x : Z) : Q := (inject_Z x + half)%Q.

Definition Math_floor (q : Q) : Z := Qfloor q.

(** WebIDL conversion of a number to [long]: truncation toward zero. *)
Definition toLong (q : Q) : Z := Z.quot (Qnum q) (Zpos (Qden q)).

(** [lo <= v < hi] when the extent is positive, mirrored when negative. *)
Definition inSpan (start extent v : Q) : bool :=
  Qleb (Qmin start (start + extent)) v && Qltb v (Qmax start (start + extent)).

(* ------------------------------------------------------------------ *)
(** ** The 2D context *)

Inductive PathCmd : Type :=
| MoveTo (x y : Q)
| LineTo (x y : Q)
| Arc (x y radius startAngle endAngle : Q).

Record DrawingState : Type := mkState {
  globalCompositeOperation : CompositeOp;
  fillStyle : RGBA;
  strokeStyle : RGBA;
  lineWidth : Q;
  lineCap : string;
  lineJoin : string
}.

Definition opaqueBlack : RGBA := mkRGBA 0 0 0 255.

Definition initialState : DrawingState :=
  mkState SourceOver opaqueBlack opaqueBlack 1 "butt" "miter".

(** A [CanvasRenderingContext2D]; drawing through it changes the bitmap
    of the canvas it belongs to, so the canvas travels inside it. *)
Record Context2D : Type := mkCtx {
  canvas : Canvas;
  state : DrawingState;
  path : list PathCmd;
  saved : list DrawingState
}.

Definition freshContext (c : Canvas) : Context2D :=
  mkCtx c initialState [] [].

(** A canvas always yields a context here; the [option] keeps the null
    checks of the source visible. *)
Definition getContext (c : Canvas) : option Context2D :=
  Some (freshContext c).

Definition withCanvas (ctx : Context2D) (c : Canvas) : Context2D :=
  mkCtx c (state ctx) (path ctx) (saved ctx).

Definition withState (ctx : Context2D) (s : DrawingState) : Context2D :=
  mkCtx (canvas ctx) s (path ctx) (saved ctx).

Definition set_globalCompositeOperation (ctx : Context2D) (op : CompositeOp)
  : Context2D :=
  let s := state ctx in
  withState ctx (mkState op (fillStyle s) (strokeStyle s) (lineWidth s)
                         (lineCap s) (lineJoin s)).

(** Assigning a non-positive width is ignored. *)
Definition set_lineWidth (ctx : Context2D) (v : Q) : Context2D :=
  let s := state ctx in
  if Qltb 0 v
  then withState ctx (mkState (globalCompositeOperation s) (fillStyle s)
                              (strokeStyle s) v (lineCap s) (lineJoin s))
  else ctx.

Definition set_lineCap (ctx : Context2D) (v : string) : Context2D :=
  let s := state ctx in
  withState ctx (mkState (globalCompositeOperation s) (fillStyle s)
                         (strokeStyle s) (lineWidth s) v (lineJoin s)).

Definition set_lineJoin (ctx : Context2D) (v : string) : Context2D :=
  let s := state ctx in
  withState ctx (mkState (globalCompositeOperation s) (fillStyle s)
                         (strokeStyle s) (lineWidth s) (lineCap s) v).

Definition save (ctx : Context2D) : Context2D :=
  mkCtx (canvas ctx) (state ctx) (path ctx) (state ctx :: saved ctx).

Definition restore (ctx : Context2D) : Context2D :=
  match saved ctx with
  | [] => ctx
  | s :: rest => mkCtx (canvas ctx) s (path ctx) rest
  end.

(** Every drawing call composites a source layer with the whole bitmap
    under the current operation; the layer is transparent where the call
    paints nothing. *)
Definition paint (ctx : Context2D) (layer : Z -> Z -> RGBA) : Context2D :=
  let c := canvas ctx in
  withCanvas ctx
    (mkCanvas (width c) (height c)
       (fun x y => blend (globalCompositeOperation (state ctx))
                         (layer x y) (pixelAt c x y))).

(** [clearRect]: the pixels whose centre lies in the rectangle become
    transparent black, whatever the compositing operation. *)
Definition clearRect (ctx : Context2D) (x y w h : Q) : Context2D :=
  let c := canvas ctx in
  withCanvas ctx
    (mkCanvas (width c) (height c)
       (fun px py =>
          if inSpan x w (pixelCentre px) && inSpan y h (pixelCentre py)
          then transparentBlack else pixelAt c px py)).

Definition fillRect (ctx : Context2D) (x y w h : Q) : Context2D :=
  paint ctx (fun px py =>
    if inSpan x w (pixelCentre px) && inSpan y h (pixelCentre py)
    then fillStyle (state ctx) else transparentBlack).

(* ------------------------------------------------------------------ *)
(** ** What the browser decides *)

Class Platform : Type := {
  (** CSS colour parser behind [fillStyle] and [strokeStyle]. *)
  parseColor : string -> option RGBA;
  Math_PI : Q;
  Math_cos : Q -> Q;
  Math_sin : Q -> Q;
  (** Coverage (0..255) of a pixel by the filled current path. *)
  fillCoverage : list PathCmd -> Z -> Z -> Z;
  (** Coverage of a pixel by the stroked path, given line width, cap
      and join. *)
  strokeCoverage : list PathCmd -> Q -> string -> string -> Z -> Z -> Z;
  (** The resampling filter of [drawImage].  The module never touches
      [imageSmoothingEnabled], so the browser smooths: [sampleImage src
      su sv u v] is the colour of the source at the point [(u, v)], in
      source pixels, when one destination pixel spans [su] by [sv]
      source pixels. *)
  sampleImage : CanvasImageSource -> Q -> Q -> Q -> Q -> RGBA;
  (** An unscaled draw that maps pixel centres to pixel centres copies
      the source. *)
  sample_aligned : forall src su sv u v i j,
    (su == 1)%Q -> (sv == 1)%Q ->
    (u == pixelCentre i)%Q -> (v == pixelCentre j)%Q ->
    sampleImage src su sv u v = sourcePixel src i j;
  (** When a draw enlarges, or keeps the size, the source pixel under
      the point carries at least a quarter of the weight. *)
  sample_weight : forall src su sv u v,
    (0 < su)%Q -> (su <= 1)%Q -> (0 < sv)%Q -> (sv <= 1)%Q ->
    (forall i j, 0 <= alpha (sourcePixel src i j)) ->
    alpha (sourcePixel src (Math_floor u) (Math_floor v))
    <= 4 * alpha (sampleImage src su sv u v) + 2
}.

Section Images.

Context {platform : Platform}.

(** The layer of [drawImage] with a source and a destination rectangle:
    a destination pixel whose centre lies in the destination rectangle
    takes the colour the filter finds at the point of the source its
    centre maps to; what lies outside the source bitmap is transparent. *)
Definition imageLayer (src : CanvasImageSource)
    (sx sy sw sh dx dy dw dh : Q) (px py : Z) : RGBA :=
  if inSpan dx dw (pixelCentre px) && inSpan dy dh (pixelCentre py) then
    let u := (sx + (pixelCentre px - dx) * sw / dw)%Q in
    let v := (sy + (pixelCentre py - dy) * sh / dh)%Q in
    sampleImage src (sw / dw) (sh / dh) u v
  else transparentBlack.

(** [ctx.drawImage(image, sx, sy, sw, sh, dx, dy, dw, dh)] *)
Definition drawImage9 (ctx : Context2D) (src : CanvasImageSource)
    (sx sy sw sh dx dy dw dh : Q) : Context2D :=
  if Qeq_bool sw 0 || Qeq_bool sh 0 then ctx
  else paint ctx (imageLayer src sx sy sw sh dx dy dw dh).

(** [ctx.drawImage(image, dx, dy, dw, dh)] *)
Definition drawImage5 (ctx : Context2D) (src : CanvasImageSource)
    (dx dy dw dh : Q) : Context2D :=
  drawImage9 ctx src 0 0 (inject_Z (sourceWidth src))
             (inject_Z (sourceHeight src)) dx dy dw dh.

(** [ctx.drawImage(image, dx, dy)] *)
Definition drawImage3 (ctx : Context2D) (src : CanvasImageSource)
    (dx dy : Q) : Context2D :=
  drawImage5 ctx src dx dy (inject_Z (sourceWidth src))
             (inject_Z (sourceHeight src)).

End Images.

Definition beginPath (ctx : Context2D) : Context2D :=
  mkCtx (canvas ctx) (state ctx) [] (saved ctx).

Definition moveTo (ctx : Context2D) (x y : Q) : Context2D :=
  mkCtx (canvas ctx) (state ctx) (path ctx ++ [MoveTo x y]) (saved ctx).

Definition lineTo (ctx : Context2D) (x y : Q) : Context2D :=
  mkCtx (canvas ctx) (state ctx) (path ctx ++ [LineTo x y]) (saved ctx).

(* ------------------------------------------------------------------ *)
(** ** Exceptions, the browser world and the effect monad *)

Inductive JsError : Type :=
| Error (message : string)
| IndexSizeError
| TypeError.

Inductive Result (A : Type) : Type :=
| Ok (value : A)
| Throw (e : JsError).

Arguments Ok {A} value.
Arguments Throw {A} e.

Inductive LogLevel : Type := LevelLog | LevelWarn | LevelError.

Inductive LogVal : Type :=
| LStr (s : string)
| LNum (q : Q)
| LBool (b : bool)
| LErr (e : JsError).

Record LogEntry : Type := mkLog { level : LogLevel; args : list LogVal }.

(** What a call can observe of the browser: which URLs decode to which
    image, the numbers [Math.random] is going to return, and the console
    written so far (latest entry first). *)
Record World : Type := mkWorld {
  resources : string -> option HTMLImage;
  randomPool : nat -> Z;
  randomPos : nat;
  console : list LogEntry
}.

Definition M (A : Type) : Type := World -> Result A * World.

Definition ret {A} (a : A) : M A := fun w => (Ok a, w).

Definition throw {A} (e : JsError) : M A := fun w => (Throw e, w).

Definition bind {A B} (m : M A) (k : A -> M B) : M B :=
  fun w =>
    match m w with
    | (Ok a, w') => k a w'
    | (Throw e, w') => (Throw e, w')
    end.

Notation "x <- m ;; k" := (bind m (fun x => k))
  (at level 61, m at next level, right associativity).
Notation "m ;;; k" := (bind m (fun _ => k))
  (at level 61, right associativity).

(** [try { body } catch (error) { handler(error) }] *)
Definition tryCatch {A} (body : M A) (handler : JsError -> M A) : M A :=
  fun w =>
    match body w with
    | (Ok a, w') => (Ok a, w')
    | (Throw e, w') => handler e w'
    end.

Definition liftResult {A} (r : Result A) : M A := fun w => (r, w).

Definition orThrow {A} (o : option A) (e : JsError) : M A :=
  match o with Some a => ret a | None => throw e end.

Definition consoleWrite (l : LogLevel) (vals : list LogVal) : M unit :=
  fun w => (Ok tt, mkWorld (resources w) (randomPool w) (randomPos w)
                           (mkLog l vals :: console w)).

Definition console_log := consoleWrite LevelLog.
Definition console_warn := consoleWrite LevelWarn.
Definition console_error := consoleWrite LevelError.

Definition two53 : positive := 9007199254740992.

(** [Math.random()]: the next number of the stream, a multiple of 2^-53
    in [0, 1), in lowest terms. *)
Definition Math_random : M Q :=
  fun w =>
    (Ok (Qred (Qmake (randomPool w (randomPos w) mod Zpos two53) two53)),
     mkWorld (resources w) (randomPool w) (S (randomPos w)) (console w)).

(** [new Image(); img.src = url]: [onload] continues with the decoded
    image, [onerror] rejects. *)
Definition loadImage (imageUrl : string) : M HTMLImage :=
  fun w =>
    match resources w imageUrl with
    | Some img => (Ok img, w)
    | None => (Throw (Error "图片加载失败"), w)
    end.

(** [getImageData]: the bytes of a rectangle of the bitmap, row by row,
    four per pixel; reading past the end gives [undefined] ([None]). *)
Record ImageData : Type := mkImageData {
  dataWidth : Z;
  dataHeight : Z;
  data : Z -> option Z
}.

Definition channel (k : Z) (p : RGBA) : Z :=
  if k =? 0 then red p else if k =? 1 then green p
  else if k =? 2 then blue p else alpha p.

Definition getImageData (ctx : Context2D) (sx sy sw sh : Z) : Result ImageData :=
  if (sw =? 0) || (sh =? 0) then Throw IndexSizeError
  else
    let x0 := if sw <? 0 then sx + sw else sx in
    let y0 := if sh <? 0 then sy + sh else sy in
    let w := Z.abs sw in
    let h := Z.abs sh in
    Ok (mkImageData w h
          (fun i =>
             if (0 <=? i) && (i <? w * h * 4)
             then Some (channel (i mod 4)
                          (pixelAt (canvas ctx) (x0 + (i / 4) mod w)
                                   (y0 + (i / 4) / w)))
             else None)).

(** [Array.from(data).some((val, idx) => p val idx)] *)
Definition someIndexed (d : ImageData) (p : Z -> Z -> bool) : bool :=
  existsb (fun k => let i := Z.of_nat k in
                    match data d i with Some v => p v i | None => false end)
          (seq 0 (Z.to_nat (dataWidth d * dataHeight d * 4))).

(** [arc] refuses a negative radius. *)
Definition arc (ctx : Context2D) (x y radius startAngle endAngle : Q)
  : Result Context2D :=
  if Qltb radius 0 then Throw IndexSizeError
  else Ok (mkCtx (canvas ctx) (state ctx)
                 (path ctx ++ [Arc x y radius startAngle endAngle])
                 (saved ctx)).

Section Browser.

Context {platform : Platform}.

(** An assignment of a string that does not parse as a colour is ignored. *)
Definition set_fillStyle (ctx : Context2D) (v : string) : Context2D :=
  let s := state ctx in
  match parseColor v with
  | Some c => withState ctx (mkState (globalCompositeOperation s) c
                                     (strokeStyle s) (lineWidth s)
                                     (lineCap s) (lineJoin s))
  | None => ctx
  end.

Definition set_strokeStyle (ctx : Context2D) (v : string) : Context2D :=
  let s := state ctx in
  match parseColor v with
  | Some c => withState ctx (mkState (globalCompositeOperation s)
                                     (fillStyle s) c (lineWidth s)
                                     (lineCap s) (lineJoin s))
  | None => ctx
  end.

(** A style colour seen through a coverage mask. *)
Definition covered (style : RGBA) (coverage : Z) : RGBA :=
  storePixel (red style) (green style) (blue style)
             (mul255 (alpha style) (clampByte coverage)).

Definition fill (ctx : Context2D) : Context2D :=
  paint ctx (fun x y => covered (fillStyle (state ctx))
                                (fillCoverage (path ctx) x y)).

Definition stroke (ctx : Context2D) : Context2D :=
  let s := state ctx in
  paint ctx (fun x y => covered (strokeStyle s)
                                (strokeCoverage (path ctx) (lineWidth s)
                                                (lineCap s) (lineJoin s) x y)).

End Browser.

(* ------------------------------------------------------------------ *)
(** ** Options *)

(** [ContourBorderOptions]: every field is optional. *)
Record ContourBorderOptions : Type := mkOptions {
  color : option string;
  borderScale : option Q;
  gapPx : option Q;
  strokePx : option Q;
  lineLengthRange : option (Q * Q);
  dotSizeRange : option (Q * Q);
  spacing : option Q;
  jitterAmount : option Q
}.

(** [Required<ContourBorderOptions>] *)
Module Opts.
Record t : Type := mk {
  color : string;
  borderScale : Q;
  gapPx : Q;
  strokePx : Q;
  lineLengthRange : Q * Q;
  dotSizeRange : Q * Q;
  spacing : Q;
  jitterAmount : Q
}.
End Opts.

Definition DEFAULT_OPTIONS : Opts.t :=
  Opts.mk "#ffffff" (53 # 50) 10 5 (20, 40)%Q (3, 5)%Q 12 (3 # 2).

(** The [options = {}] default parameter. *)
Definition emptyOptions : ContourBorderOptions :=
  mkOptions None None None None None None None None.

Definition spread {A} (base : A) (over : option A) : A :=
  match over with Some v => v | None => base end.

(** [{ ...DEFAULT_OPTIONS, ...options }] *)
Definition mergeOptions (options : ContourBorderOptions) : Opts.t :=
  let d := DEFAULT_OPTIONS in
  Opts.mk (spread (Opts.color d) (color options))
          (spread (Opts.borderScale d) (borderScale options))
          (spread (Opts.gapPx d) (gapPx options))
          (spread (Opts.strokePx d) (strokePx options))
          (spread (Opts.lineLengthRange d) (lineLengthRange options))
          (spread (Opts.dotSizeRange d) (dotSizeRange options))
          (spread (Opts.spacing d) (spacing options))
          (spread (Opts.jitterAmount d) (jitterAmount options)).

(** [random(min, max)], in exact arithmetic: the floating-point result
    is this number rounded, which for [Math.random()] close to 1 can be
    [max] itself. *)
Definition random (min max : Q) : M Q :=
  r <- Math_random ;; ret (r * (max - min) + min)%Q.

(* ------------------------------------------------------------------ *)
(** ** Geometry of [createBorderMask] *)

Definition canvasWidth (img : HTMLImage) : Z := naturalWidth img * 2.
Definition canvasHeight (img : HTMLImage) : Z := naturalHeight img * 2.

Definition imageX (img : HTMLImage) : Q :=
  (inject_Z (canvasWidth img - naturalWidth img) / 2)%Q.
Definition imageY (img : HTMLImage) : Q :=
  (inject_Z (canvasHeight img - naturalHeight img) / 2)%Q.

Definition innerWidth (img : HTMLImage) (opts : Opts.t) : Q :=
  (inject_Z (naturalWidth img) + 2 * Opts.gapPx opts)%Q.
Definition innerHeight (img : HTMLImage) (opts : Opts.t) : Q :=
  (inject_Z (naturalHeight img) + 2 * Opts.gapPx opts)%Q.
Definition innerX (img : HTMLImage) (opts : Opts.t) : Q :=
  (imageX img - Opts.gapPx opts)%Q.
Definition innerY (img : HTMLImage) (opts : Opts.t) : Q :=
  (imageY img - Opts.gapPx opts)%Q.

Definition outerWidth (img : HTMLImage) (opts : Opts.t) : Q :=
  (innerWidth img opts + 2 * Opts.strokePx opts)%Q.
Definition outerHeight (img : HTMLImage) (opts : Opts.t) : Q :=
  (innerHeight img opts + 2 * Opts.strokePx opts)%Q.
Definition outerX (img : HTMLImage) (opts : Opts.t) : Q :=
  (innerX img opts - Opts.strokePx opts)%Q.
Definition outerY (img : HTMLImage) (opts : Opts.t) : Q :=
  (innerY img opts - Opts.strokePx opts)%Q.

Section ContourBorder.

Context {platform : Platform}.

(** Step 1: the source image centred on the cleared working canvas. *)
Definition paintMask (maskCtx : Context2D) (img : HTMLImage) : Context2D :=
  let maskCtx := clearRect maskCtx 0 0 (inject_Z (canvasWidth img))
                           (inject_Z (canvasHeight img)) in
  drawImage5 maskCtx (FromImage img) (imageX img) (imageY img)
             (inject_Z (naturalWidth img)) (inject_Z (naturalHeight img)).

(** Step 2: the mask enlarged by [gapPx] on every side. *)
Definition paintInner (innerCtx : Context2D) (maskCanvas : Canvas)
    (img : HTMLImage) (opts : Opts.t) : Context2D :=
  let innerCtx := clearRect innerCtx 0 0 (inject_Z (canvasWidth img))
                            (inject_Z (canvasHeight img)) in
  drawImage9 innerCtx (FromCanvas maskCanvas)
             (imageX img) (imageY img)
             (inject_Z (naturalWidth img)) (inject_Z (naturalHeight img))
             (innerX img opts) (innerY img opts)
             (innerWidth img opts) (innerHeight img opts).

(** Step 3: the inner layer enlarged again by [strokePx] on every side. *)
Definition paintOuter (outerCtx : Context2D) (innerCanvas : Canvas)
    (img : HTMLImage) (opts : Opts.t) : Context2D :=
  let outerCtx := clearRect outerCtx 0 0 (inject_Z (canvasWidth img))
                            (inject_Z (canvasHeight img)) in
  drawImage9 outerCtx (FromCanvas innerCanvas)
             (innerX img opts) (innerY img opts)
             (innerWidth img opts) (innerHeight img opts)
             (outerX img opts) (outerY img opts)
             (outerWidth img opts) (outerHeight img opts).

(** Steps 4 and 5: ring = outer - inner by [destination-out], then the
    ring filled with the border colour by [source-in]. *)
Definition paintRing (outerCtx : Context2D) (innerCanvas : Canvas)
    (img : HTMLImage) (opts : Opts.t) : Context2D :=
  let outerCtx := set_globalCompositeOperation outerCtx DestinationOut in
  let outerCtx := drawImage3 outerCtx (FromCanvas innerCanvas) 0 0 in
  let outerCtx := set_globalCompositeOperation outerCtx SourceIn in
  let outerCtx := set_fillStyle outerCtx (Opts.color opts) in
  fillRect outerCtx 0 0 (inject_Z (canvasWidth img))
           (inject_Z (canvasHeight img)).

Definition createBorderMask (imageUrl : string)
    (options : ContourBorderOptions) : M Canvas :=
  img <- loadImage imageUrl ;;
  let opts := mergeOptions options in
  let imageWidth := naturalWidth img in
  let imageHeight := naturalHeight img in
  let gapPx := Opts.gapPx opts in
  let strokePx := Opts.strokePx opts in
  let canvasWidth := canvasWidth img in
  let canvasHeight := canvasHeight img in
  let imageX := imageX img in
  let imageY := imageY img in
  console_log [LStr "图片尺寸:"; LNum (inject_Z imageWidth); LStr "x";
               LNum (inject_Z imageHeight)] ;;;
  console_log [LStr "扩展画布尺寸:"; LNum (inject_Z canvasWidth); LStr "x";
               LNum (inject_Z canvasHeight); LStr "(原图的2倍)"] ;;;
  console_log [LStr "图片在画布中的位置:"; LNum imageX; LStr ",";
               LNum imageY] ;;;
  console_log [LStr "间隙:"; LNum gapPx; LStr "px, 线条宽度:";
               LNum strokePx; LStr "px"] ;;;
  let maskCanvas := createCanvas canvasWidth canvasHeight in
  maskCtx <- orThrow (getContext maskCanvas)
                     (Error "无法创建 mask Canvas 上下文") ;;
  let maskCtx := paintMask maskCtx img in
  let maskCanvas := canvas maskCtx in
  maskSample <- liftResult
    (getImageData maskCtx (toLong imageX) (toLong imageY)
                  (Z.min 10 imageWidth) (Z.min 10 imageHeight)) ;;
  let hasTransparency :=
    someIndexed maskSample (fun val idx => (idx mod 4 =? 3) && (val <? 255)) in
  console_log [LStr "Mask 是否有透明区域:"; LBool hasTransparency] ;;;
  let innerCanvas := createCanvas canvasWidth canvasHeight in
  innerCtx <- orThrow (getContext innerCanvas)
                      (Error "无法创建 inner Canvas 上下文") ;;
  let innerCtx := paintInner innerCtx maskCanvas img opts in
  let innerCanvas := canvas innerCtx in
  let outerCanvas := createCanvas canvasWidth canvasHeight in
  outerCtx <- orThrow (getContext outerCanvas)
                      (Error "无法创建 outer Canvas 上下文") ;;
  let outerCtx := paintOuter outerCtx innerCanvas img opts in
  let outerCtx := paintRing outerCtx innerCanvas img opts in
  borderSample <- liftResult
    (getImageData outerCtx 0 0 (Z.min 50 canvasWidth)
                  (Z.min 50 canvasHeight)) ;;
  let hasBorder :=
    someIndexed borderSample
      (fun val idx => if idx mod 4 =? 3 then val >? 0 else false) in
  console_log [LStr "轮廓环是否生成成功:"; LBool hasBorder] ;;;
  ret (canvas outerCtx).

(* ------------------------------------------------------------------ *)
(** ** [applyHandDrawnEffect] *)

(** Values of [for (let v = 0; v < limit; v += step)], for [step > 0]. *)
Definition stepRange (limit step : Z) : list Z :=
  map (fun k => Z.of_nat k * step)
      (seq 0 (Z.to_nat ((limit + step - 1) / step))).

Definition sampleRateOf (w h : Z) : Z := Z.max 4 (Z.min w h / 200).

(** The sampling loops: grid points whose alpha byte is positive, in
    the order they are pushed. *)
Definition collectContourRegions (borderData : Z -> option Z)
    (w h sampleRate : Z) : list (Z * Z) :=
  flat_map (fun y =>
    flat_map (fun x =>
      let index := (y * w + x) * 4 in
      match borderData (index + 3) with
      | Some alpha => if alpha >? 0 then [(x, y)] else []
      | None => []
      end) (stepRange w sampleRate)) (stepRange h sampleRate).

Definition densityOf (contourRegions : list (Z * Z)) : Z :=
  Z.max 500 (Math_floor (inject_Z (Z.of_nat (List.length contourRegions)) * (3 # 10))).

Definition dotRatio : Q := 2 # 5.

(** [array[i]] for a number [i]. *)
Definition elementAt {A} (l : list A) (i : Z) : option A :=
  if i <? 0 then None else nth_error l (Z.to_nat i).

(** One turn of the stipple loop; [continue] leaves the stencil as it is. *)
Definition stippleStep (opts : Opts.t) (contourRegions : list (Z * Z))
    (sampleRate w h : Z) (sctx : Context2D) : M Context2D :=
  r <- Math_random ;;
  basePoint <- orThrow
    (elementAt contourRegions
           (Math_floor (r * inject_Z (Z.of_nat (List.length contourRegions)))))
    TypeError ;;
  r <- Math_random ;;
  let offsetX := ((r - half) * inject_Z sampleRate * 2)%Q in
  r <- Math_random ;;
  let offsetY := ((r - half) * inject_Z sampleRate * 2)%Q in
  let x := (inject_Z (fst basePoint) + offsetX)%Q in
  let y := (inject_Z (snd basePoint) + offsetY)%Q in
  if Qltb x 0 || Qleb (inject_Z w) x || Qltb y 0 || Qleb (inject_Z h) y
  then ret sctx
  else
    r <- Math_random ;;
    let jx := ((r - half) * Opts.jitterAmount opts * 2)%Q in
    r <- Math_random ;;
    let jy := ((r - half) * Opts.jitterAmount opts * 2)%Q in
    r <- Math_random ;;
    if Qltb r dotRatio then
      d <- random (fst (Opts.dotSizeRange opts)) (snd (Opts.dotSizeRange opts)) ;;
      let r := (d / 2)%Q in
      let sctx := beginPath sctx in
      sctx <- liftResult (arc sctx (x + jx) (y + jy) r 0 (Math_PI * 2)) ;;
      ret (fill sctx)
    else
      len <- random (fst (Opts.lineLengthRange opts))
                    (snd (Opts.lineLengthRange opts)) ;;
      r <- Math_random ;;
      let angle := (r * Math_PI * 2)%Q in
      let dx := (Math_cos angle * len * half)%Q in
      let dy := (Math_sin angle * len * half)%Q in
      lw <- random (Opts.strokePx opts * (3 # 5)) (Opts.strokePx opts * (6 # 5)) ;;
      let sctx := set_lineWidth sctx lw in
      let sctx := beginPath sctx in
      let sctx := moveTo sctx (x - dx + jx) (y - dy + jy) in
      let sctx := lineTo sctx (x + dx + jx) (y + dy + jy) in
      ret (stroke sctx).

(** [for (let i = 0; i < density; i++)] *)
Fixpoint stippleLoop (n : nat) (opts : Opts.t) (contourRegions : list (Z * Z))
    (sampleRate w h : Z) (sctx : Context2D) : M Context2D :=
  match n with
  | O => ret sctx
  | S n' =>
      sctx <- stippleStep opts contourRegions sampleRate w h sctx ;;
      stippleLoop n' opts contourRegions sampleRate w h sctx
  end.

(** The function mutates [borderCanvas]; here it returns the canvas as it
    is left. *)
Definition applyHandDrawnEffect (borderCanvas : Canvas)
    (options : ContourBorderOptions) : M Canvas :=
  let opts := mergeOptions options in
  ctx <- orThrow (getContext borderCanvas) (Error "无法获取 Canvas 上下文") ;;
  let w := width borderCanvas in
  let h := height borderCanvas in
  let stencil := createCanvas w h in
  sctx <- orThrow (getContext stencil) (Error "无法创建 stencil Canvas 上下文") ;;
  let sctx := clearRect sctx 0 0 (inject_Z w) (inject_Z h) in
  borderImageData <- liftResult (getImageData ctx 0 0 w h) ;;
  let borderData := data borderImageData in
  let sampleRate := sampleRateOf w h in
  let contourRegions := collectContourRegions borderData w h sampleRate in
  if (List.length contourRegions =? 0)%nat then
    console_warn [LStr "未检测到轮廓环区域"] ;;;
    ret (canvas ctx)
  else
    let sctx := set_fillStyle sctx "#ffffff" in
    let sctx := set_strokeStyle sctx "#ffffff" in
    let sctx := set_lineCap sctx "round" in
    let sctx := set_lineJoin sctx "round" in
    let density := densityOf contourRegions in
    sctx <- stippleLoop (Z.to_nat density) opts contourRegions sampleRate w h sctx ;;
    let stencil := canvas sctx in
    let ctx := save ctx in
    let ctx := set_globalCompositeOperation ctx DestinationIn in
    let ctx := drawImage3 ctx (FromCanvas stencil) 0 0 in
    let ctx := restore ctx in
    ret (canvas ctx).

(* ------------------------------------------------------------------ *)
(** ** [applyContourBorder] *)

(** The PNG data URL of a canvas, kept as the bitmap it encodes. *)
Inductive DataURL : Type := PNG (c : Canvas).

Definition toDataURL (c : Canvas) : DataURL := PNG c.

Definition applyContourBorder (imageUrl : string)
    (options : ContourBorderOptions) : M DataURL :=
  img <- loadImage imageUrl ;;
  settled <- tryCatch
    (let opts := mergeOptions options in
     let imageWidth := naturalWidth img in
     let imageHeight := naturalHeight img in
     let canvasWidth := imageWidth * 2 in
     let canvasHeight := imageHeight * 2 in
     let imageX := (inject_Z (canvasWidth - imageWidth) / 2)%Q in
     let imageY := (inject_Z (canvasHeight - imageHeight) / 2)%Q in
     console_log [LStr "创建外轮廓图层..."] ;;;
     borderCanvas <- createBorderMask imageUrl options ;;
     console_log [LStr "应用手绘效果..."] ;;;
     borderCanvas <- applyHandDrawnEffect borderCanvas options ;;
     let finalCanvas := createCanvas canvasWidth canvasHeight in
     match getContext finalCanvas with
     | None => ret (Throw (Error "无法创建最终 Canvas 上下文"))
     | Some finalCtx =>
         let finalCtx := clearRect finalCtx 0 0 (inject_Z canvasWidth)
                                   (inject_Z canvasHeight) in
         let finalCtx := drawImage5 finalCtx (FromImage img) imageX imageY
                                    (inject_Z imageWidth) (inject_Z imageHeight) in
         let finalCtx := drawImage3 finalCtx (FromCanvas borderCanvas) 0 0 in
         let dataUrl := toDataURL (canvas finalCtx) in
         console_log [LStr "边框生成完成"] ;;;
         ret (Ok dataUrl)
     end)
    (fun error =>
       console_error [LStr "边框生成失败:"; LErr error] ;;;
       ret (Throw error)) ;;
  liftResult settled.

End ContourBorder.

(* ------------------------------------------------------------------ *)
(** ** The layers of [createBorderMask], named *)

Definition workingContext (img : HTMLImage) : Context2D :=
  freshContext (createCanvas (canvasWidth img) (canvasHeight img)).

(** [maskCanvas] after step 1. *)
Definition maskCanvasOf {platform : Platform} (img : HTMLImage) : Canvas :=
  canvas (paintMask (workingContext img) img).

(** [innerCanvas] after step 2: the inner silhouette. *)
Definition innerCanvasOf {platform : Platform} (img : HTMLImage)
    (opts : Opts.t) : Canvas :=
  canvas (paintInner (workingContext img) (maskCanvasOf img) img opts).

(** [outerCanvas] after step 3, before the ring is cut: the outer
    silhouette. *)
Definition outerCanvasOf {platform : Platform} (img : HTMLImage)
    (opts : Opts.t) : Canvas :=
  canvas (paintOuter (workingContext img) (innerCanvasOf img opts) img opts).

(** [outerCanvas] after step 5: the solid ring. *)
Definition ringCanvasOf {platform : Platform} (img : HTMLImage) (opts : Opts.t)
  : Canvas :=
  canvas (paintRing (paintOuter (workingContext img) (innerCanvasOf img opts)
                                img opts)
                    (innerCanvasOf img opts) img opts).

(** The alpha channel read as a silhouette. *)
Definition alphaAt (c : Canvas) (x y : Z) : Z := alpha (pixelAt c x y).

Definition opaqueAt (c : Canvas) (x y : Z) : Prop := 0 < alphaAt c x y.

(* ------------------------------------------------------------------ *)
(** ** A reference platform *)

Module Ref.

Definition hexDigit (c : ascii) : option Z :=
  let n := Z.of_nat (nat_of_ascii c) in
  if (48 <=? n) && (n <=? 57) then Some (n - 48)
  else if (97 <=? n) && (n <=? 102) then Some (n - 87)
  else if (65 <=? n) && (n <=? 70) then Some (n - 55)
  else None.

Fixpoint hexDigits (s : string) : option (list Z) :=
  match s with
  | EmptyString => Some []
  | String c rest =>
      match hexDigit c, hexDigits rest with
      | Some d, Some ds => Some (d :: ds)
      | _, _ => None
      end
  end.

(** [#rgb], [#rrggbb] and [#rrggbbaa]. *)
Definition parseColor (s : string) : option RGBA :=
  match s with
  | String "#" rest =>
      match hexDigits rest with
      | Some [r; g; b] => Some (mkRGBA (17 * r) (17 * g) (17 * b) 255)
      | Some [r1; r0; g1; g0; b1; b0] =>
          Some (mkRGBA (16 * r1 + r0) (16 * g1 + g0) (16 * b1 + b0) 255)
      | Some [r1; r0; g1; g0; b1; b0; a1; a0] =>
          Some (mkRGBA (16 * r1 + r0) (16 * g1 + g0) (16 * b1 + b0)
                       (16 * a1 + a0))
      | _ => None
      end
  | _ => None
  end.

Definition PI : Q := 355 # 113.

(** Bhaskara's rational approximation of the sine on [0, pi]. *)
Definition sinArch (x : Q) : Q :=
  (16 * x * (PI - x) / (5 * PI * PI - 4 * x * (PI - x)))%Q.

Definition sin (x : Q) : Q :=
  let turns := Qfloor (x / (2 * PI)) in
  let x := Qred (x - inject_Z turns * (2 * PI)) in
  Qred (if Qleb x PI then sinArch x else - sinArch (x - PI)).

Definition cos (x : Q) : Q := sin (x + PI / 2).

Definition sq (q : Q) : Q := (q * q)%Q.

(** A disc covers the pixels whose centre it contains. *)
Definition fillCoverage (p : list PathCmd) (x y : Z) : Z :=
  match p with
  | [Arc cx cy r _ _] =>
      if Qleb (sq (pixelCentre x - cx) + sq (pixelCentre y - cy)) (sq r)
      then 255 else 0
  | _ => 0
  end.

(** A stroked segment covers the pixels whose centre is within half
    the line width of it (round caps), or of its interior (other
    caps). *)
Definition strokeCoverage (p : list PathCmd) (lw : Q) (cap join : string)
    (x y : Z) : Z :=
  match p with
  | [MoveTo x0 y0; LineTo x1 y1] =>
      let vx := (x1 - x0)%Q in
      let vy := (y1 - y0)%Q in
      let wx := (pixelCentre x - x0)%Q in
      let wy := (pixelCentre y - y0)%Q in
      let c1 := (wx * vx + wy * vy)%Q in
      let c2 := (vx * vx + vy * vy)%Q in
      let reach := sq (lw / 2) in
      let round := String.eqb cap "round" in
      if Qleb c1 0 then
        if round && Qleb (sq wx + sq wy) reach then 255 else 0
      else if Qleb c2 c1 then
        if round && Qleb (sq (pixelCentre x - x1) + sq (pixelCentre y - y1)) reach
        then 255 else 0
      else if Qleb (sq wx + sq wy - c1 * c1 / c2) reach then 255 else 0
  | _ => 0
  end.

(** One channel of a bilinear sample: the four surrounding pixels
    weighted by the position [(fx, fy)] between their centres, rounded
    to the nearest byte. *)
Definition mix (fx fy : Q) (c00 c10 c01 c11 : Z) : Z :=
  Qfloor ((1 - fx) * (1 - fy) * inject_Z c00 + fx * (1 - fy) * inject_Z c10
          + (1 - fx) * fy * inject_Z c01 + fx * fy * inject_Z c11 + half)%Q.

(** Smoothing as browsers do it by default: bilinear interpolation
    between the four source pixels whose centres surround the point,
    each channel on its own. *)
Definition sampleBilinear (src : CanvasImageSource) (su sv u v : Q) : RGBA :=
  let i := Qfloor (u - half) in
  let j := Qfloor (v - half) in
  let fx := Qred (u - half - inject_Z i) in
  let fy := Qred (v - half - inject_Z j) in
  let p00 := sourcePixel src i j in
  let p10 := sourcePixel src (i + 1) j in
  let p01 := sourcePixel src i (j + 1) in
  let p11 := sourcePixel src (i + 1) (j + 1) in
  mkRGBA (mix fx fy (red p00) (red p10) (red p01) (red p11))
         (mix fx fy (green p00) (green p10) (green p01) (green p11))
         (mix fx fy (blue p00) (blue p10) (blue p01) (blue p11))
         (mix fx fy (alpha p00) (alpha p10) (alpha p01) (alpha p11)).

(** No smoothing (what [imageSmoothingEnabled = false] would give): the
    source pixel under the point. *)
Definition sampleNearest (src : CanvasImageSource) (su sv u v : Q) : RGBA :=
  sourcePixel src (Math_floor u) (Math_floor v).

End Ref.

(** *** The two filters meet the interface *)

Lemma floor_pixelCentre (x : Z) : Qfloor (pixelCentre x) = x.
Proof.
  unfold pixelCentre, half.
  assert (H1 := Qfloor_le (inject_Z x + (1 # 2))).
  assert (H2 := Qlt_floor (inject_Z x + (1 # 2))).
  set (f := Qfloor (inject_Z x + (1 # 2))) in *.
  rewrite inject_Z_plus in H2.
  assert (Hlo : (inject_Z f < inject_Z (x + 1))%Q).
  { rewrite inject_Z_plus. change (inject_Z 1) with 1%Q. lra. }
  assert (Hhi : (inject_Z x < inject_Z (f + 1))%Q).
  { rewrite inject_Z_plus. lra. }
  rewrite <- Zlt_Qlt in Hlo, Hhi. lia.
Qed.

Lemma mix_corner (fx fy : Q) (c00 c10 c01 c11 : Z) :
  (fx == 0)%Q -> (fy == 0)%Q -> Ref.mix fx fy c00 c10 c01 c11 = c00.
Proof.
  intros Hx Hy. unfold Ref.mix.
  rewrite <- (floor_pixelCentre c00) at 2. apply Qfloor_comp.
  unfold pixelCentre. rewrite Hx, Hy. ring.
Qed.

(** The pixel under a point is the left or the right one of the two
    whose centres surround it, whichever is nearer. *)
Lemma floor_frac (u : Q) :
  let i := Qfloor (u - half) in
  let f := (u - half - inject_Z i)%Q in
  (0 <= f)%Q /\ (f < 1)%Q /\
  Qfloor u = if Qle_bool (1 # 2) f then i + 1 else i.
Proof.
  intros i f.
  assert (H1 := Qfloor_le (u - half)). assert (H2 := Qlt_floor (u - half)).
  fold i in H1, H2. rewrite inject_Z_plus in H2. change (inject_Z 1) with 1%Q in H2.
  assert (Hf0 : (0 <= f)%Q) by (unfold f; lra).
  assert (Hf1 : (f < 1)%Q) by (unfold f; lra).
  split; [exact Hf0 | split; [exact Hf1 |]].
  assert (A := Qfloor_le u). assert (B := Qlt_floor u).
  destruct (Qle_bool (1 # 2) f) eqn:E.
  - apply Qle_bool_iff in E.
    assert (Hlo : (inject_Z (i + 1) <= u)%Q).
    { rewrite inject_Z_plus. change (inject_Z 1) with 1%Q. unfold f, half in *. lra. }
    assert (Hhi : (u < inject_Z (i + 1 + 1))%Q).
    { rewrite !inject_Z_plus. change (inject_Z 1) with 1%Q. unfold f, half in *. lra. }
    assert (C1 : (inject_Z (i + 1) < inject_Z (Qfloor u + 1))%Q) by lra.
    assert (C2 : (inject_Z (Qfloor u) < inject_Z (i + 1 + 1))%Q) by lra.
    rewrite <- Zlt_Qlt in C1, C2. lia.
  - assert (E' : ~ (1 # 2 <= f)%Q).
    { intros H. apply Qle_bool_iff in H. congruence. }
    apply Qnot_le_lt in E'.
    assert (Hlo : (inject_Z i <= u)%Q) by (unfold f, half in *; lra).
    assert (Hhi : (u < inject_Z (i + 1))%Q).
    { rewrite inject_Z_plus. change (inject_Z 1) with 1%Q. unfold f, half in *. lra. }
    assert (C1 : (inject_Z i < inject_Z (Qfloor u + 1))%Q) by lra.
    assert (C2 : (inject_Z (Qfloor u) < inject_Z (i + 1))%Q) by lra.
    rewrite <- Zlt_Qlt in C1, C2. lia.
Qed.

(** Of the four weights, that of the nearest pixel is at least 1/4. *)
Lemma mix_weight (fx fy : Q) (c00 c10 c01 c11 : Z) :
  (0 <= fx)%Q -> (fx < 1)%Q -> (0 <= fy)%Q -> (fy < 1)%Q ->
  0 <= c00 -> 0 <= c10 -> 0 <= c01 -> 0 <= c11 ->
  (if Qle_bool (1 # 2) fx
   then if Qle_bool (1 # 2) fy then c11 else c10
   else if Qle_bool (1 # 2) fy then c01 else c00)
  <= 4 * Ref.mix fx fy c00 c10 c01 c11 + 2.
Proof.
  intros Hx0 Hx1 Hy0 Hy1 H00 H10 H01 H11. unfold Ref.mix.
  set (S := ((1 - fx) * (1 - fy) * inject_Z c00 + fx * (1 - fy) * inject_Z c10
          + (1 - fx) * fy * inject_Z c01 + fx * fy * inject_Z c11)%Q).
  assert (HB := Qlt_floor (S + half)).
  rewrite inject_Z_plus in HB. change (inject_Z 1) with 1%Q in HB.
  rewrite Zle_Qle in H00, H10, H01, H11. change (inject_Z 0) with 0%Q in *.
  set (a := inject_Z c00) in *. set (b := inject_Z c10) in *.
  set (c := inject_Z c01) in *. set (d := inject_Z c11) in *.
  assert (T00 : (0 <= (1 - fx) * (1 - fy) * a)%Q)
    by (apply Qmult_le_0_compat; [apply Qmult_le_0_compat|]; lra).
  assert (T10 : (0 <= fx * (1 - fy) * b)%Q)
    by (apply Qmult_le_0_compat; [apply Qmult_le_0_compat|]; lra).
  assert (T01 : (0 <= (1 - fx) * fy * c)%Q)
    by (apply Qmult_le_0_compat; [apply Qmult_le_0_compat|]; lra).
  assert (T11 : (0 <= fx * fy * d)%Q)
    by (apply Qmult_le_0_compat; [apply Qmult_le_0_compat|]; lra).
  assert (Hquarter : forall (wx wy : Q) (z : Z),
            (1 # 2 <= wx)%Q -> (1 # 2 <= wy)%Q -> (0 <= inject_Z z)%Q ->
            (wx * wy * inject_Z z <= S)%Q -> z <= 4 * Qfloor (S + half) + 2).
  { intros wx wy z Hwx Hwy Hz Hle.
    assert (Hq : ((1 # 4) * inject_Z z <= wx * wy * inject_Z z)%Q).
    { assert ((1 # 4) <= wx * wy)%Q by nra. nra. }
    assert (Hfin : (inject_Z z < inject_Z (4 * Qfloor (S + half) + 2 + 1))%Q).
    { rewrite !inject_Z_plus, inject_Z_mult. change (inject_Z 4) with 4%Q.
      change (inject_Z 2) with 2%Q. change (inject_Z 1) with 1%Q.
      unfold half in *. lra. }
    rewrite <- Zlt_Qlt in Hfin. lia. }
  destruct (Qle_bool (1 # 2) fx) eqn:Ex; destruct (Qle_bool (1 # 2) fy) eqn:Ey.
  - apply Qle_bool_iff in Ex, Ey.
    apply (Hquarter fx fy c11); try assumption. unfold S. fold d. lra.
  - apply Qle_bool_iff in Ex.
    assert (Ey' : (fy < 1 # 2)%Q).
    { apply Qnot_le_lt. intros H. apply Qle_bool_iff in H. congruence. }
    apply (Hquarter fx (1 - fy)%Q c10); try assumption; [lra|].
    unfold S. fold b. lra.
  - apply Qle_bool_iff in Ey.
    assert (Ex' : (fx < 1 # 2)%Q).
    { apply Qnot_le_lt. intros H. apply Qle_bool_iff in H. congruence. }
    apply (Hquarter (1 - fx)%Q fy c01); try assumption; [lra|].
    unfold S. fold c. lra.
  - assert (Ex' : (fx < 1 # 2)%Q).
    { apply Qnot_le_lt. intros H. apply Qle_bool_iff in H. congruence. }
    assert (Ey' : (fy < 1 # 2)%Q).
    { apply Qnot_le_lt. intros H. apply Qle_bool_iff in H. congruence. }
    apply (Hquarter (1 - fx)%Q (1 - fy)%Q c00); try assumption; [lra|lra|].
    unfold S. fold a. lra.
Qed.

Lemma sampleBilinear_aligned (src : CanvasImageSource) (su sv u v : Q) (i j : Z) :
  (su == 1)%Q -> (sv == 1)%Q ->
  (u == pixelCentre i)%Q -> (v == pixelCentre j)%Q ->
  Ref.sampleBilinear src su sv u v = sourcePixel src i j.
Proof.
  intros _ _ Hu Hv. unfold Ref.sampleBilinear.
  assert (Ei : Qfloor (u - half) = i).
  { rewrite <- (Qfloor_Z i). apply Qfloor_comp. rewrite Hu. unfold pixelCentre. ring. }
  assert (Ej : Qfloor (v - half) = j).
  { rewrite <- (Qfloor_Z j). apply Qfloor_comp. rewrite Hv. unfold pixelCentre. ring. }
  rewrite Ei, Ej. cbv zeta.
  assert (Fx : (Qred (u - half - inject_Z i) == 0)%Q).
  { rewrite Qred_correct, Hu. unfold pixelCentre. ring. }
  assert (Fy : (Qred (v - half - inject_Z j) == 0)%Q).
  { rewrite Qred_correct, Hv. unfold pixelCentre. ring. }
  rewrite !(mix_corner _ _ _ _ _ _ Fx Fy).
  destruct (sourcePixel src i j); reflexivity.
Qed.

Lemma sampleBilinear_weight (src : CanvasImageSource) (su sv u v : Q) :
  (0 < su)%Q -> (su <= 1)%Q -> (0 < sv)%Q -> (sv <= 1)%Q ->
  (forall i j, 0 <= alpha (sourcePixel src i j)) ->
  alpha (sourcePixel src (Math_floor u) (Math_floor v))
  <= 4 * alpha (Ref.sampleBilinear src su sv u v) + 2.
Proof.
  intros _ _ _ _ Hpos. unfold Ref.sampleBilinear, Math_floor. cbv zeta.
  destruct (floor_frac u) as (Hx0 & Hx1 & Fu).
  destruct (floor_frac v) as (Hy0 & Hy1 & Fv).
  set (i := Qfloor (u - half)) in *. set (j := Qfloor (v - half)) in *.
  cbn [alpha].
  assert (Ex : (Qred (u - half - inject_Z i) == u - half - inject_Z i)%Q)
    by apply Qred_correct.
  assert (Ey : (Qred (v - half - inject_Z j) == v - half - inject_Z j)%Q)
    by apply Qred_correct.
  assert (Bx : Qle_bool (1 # 2) (Qred (u - half - inject_Z i))
               = Qle_bool (1 # 2) (u - half - inject_Z i)).
  { destruct (Qle_bool (1 # 2) (u - half - inject_Z i)) eqn:E.
    - apply Qle_bool_iff. apply Qle_bool_iff in E. now rewrite Ex.
    - destruct (Qle_bool (1 # 2) (Qred (u - half - inject_Z i))) eqn:E';
        [|reflexivity].
      apply Qle_bool_iff in E'. rewrite Ex in E'. apply Qle_bool_iff in E'.
      congruence. }
  assert (By : Qle_bool (1 # 2) (Qred (v - half - inject_Z j))
               = Qle_bool (1 # 2) (v - half - inject_Z j)).
  { destruct (Qle_bool (1 # 2) (v - half - inject_Z j)) eqn:E.
    - apply Qle_bool_iff. apply Qle_bool_iff in E. now rewrite Ey.
    - destruct (Qle_bool (1 # 2) (Qred (v - half - inject_Z j))) eqn:E';
        [|reflexivity].
      apply Qle_bool_iff in E'. rewrite Ey in E'. apply Qle_bool_iff in E'.
      congruence. }
  assert (Hm := mix_weight (Qred (u - half - inject_Z i))
                  (Qred (v - half - inject_Z j))
                  (alpha (sourcePixel src i j))
                  (alpha (sourcePixel src (i + 1) j))
                  (alpha (sourcePixel src i (j + 1)))
                  (alpha (sourcePixel src (i + 1) (j + 1)))).
  rewrite Bx, By in Hm. rewrite Fu, Fv.
  assert (Hgoal := Hm ltac:(rewrite Ex; exact Hx0) ltac:(rewrite Ex; exact Hx1)
                      ltac:(rewrite Ey; exact Hy0) ltac:(rewrite Ey; exact Hy1)
                      (Hpos _ _) (Hpos _ _) (Hpos _ _) (Hpos _ _)).
  destruct (Qle_bool (1 # 2) (u - half - inject_Z i));
    destruct (Qle_bool (1 # 2) (v - half - inject_Z j)); exact Hgoal.
Qed.

Lemma sampleNearest_aligned (src : CanvasImageSource) (su sv u v : Q) (i j : Z) :
  (su == 1)%Q -> (sv == 1)%Q ->
  (u == pixelCentre i)%Q -> (v == pixelCentre j)%Q ->
  Ref.sampleNearest src su sv u v = sourcePixel src i j.
Proof.
  intros _ _ Hu Hv. unfold Ref.sampleNearest, Math_floor.
  now rewrite (Qfloor_comp _ _ Hu), (Qfloor_comp _ _ Hv), !floor_pixelCentre.
Qed.

Lemma sampleNearest_weight (src : CanvasImageSource) (su sv u v : Q) :
  (0 < su)%Q -> (su <= 1)%Q -> (0 < sv)%Q -> (sv <= 1)%Q ->
  (forall i j, 0 <= alpha (sourcePixel src i j)) ->
  alpha (sourcePixel src (Math_floor u) (Math_floor v))
  <= 4 * alpha (Ref.sampleNearest src su sv u v) + 2.
Proof.
  intros _ _ _ _ Hpos. unfold Ref.sampleNearest.
  specialize (Hpos (Math_floor u) (Math_floor v)). lia.
Qed.

(** The reference platform smooths, as a browser does by default. *)
#[export] Instance refPlatform : Platform := {
  parseColor := Ref.parseColor;
  Math_PI := Ref.PI;
  Math_cos := Ref.cos;
  Math_sin := Ref.sin;
  fillCoverage := Ref.fillCoverage;
  strokeCoverage := Ref.strokeCoverage;
  sampleImage := Ref.sampleBilinear;
  sample_aligned := sampleBilinear_aligned;
  sample_weight := sampleBilinear_weight
}.

(** The same platform without smoothing, for comparison. *)
Definition crispPlatform : Platform := {|
  parseColor := Ref.parseColor;
  Math_PI := Ref.PI;
  Math_cos := Ref.cos;
  Math_sin := Ref.sin;
  fillCoverage := Ref.fillCoverage;
  strokeCoverage := Ref.strokeCoverage;
  sampleImage := Ref.sampleNearest;
  sample_aligned := sampleNearest_aligned;
  sample_weight := sampleNearest_weight
|}.

(* ------------------------------------------------------------------ *)
(** ** Sample inputs *)

(** A [w] x [h] image whose every pixel is white with alpha [a]. *)
Definition uniformImage (w h a : Z) : HTMLImage :=
  mkImage w h (fun _ _ => mkRGBA 255 255 255 a).

(** A [w] x [h] image, transparent but for one opaque pixel at (0, 0). *)
Definition cornerDotImage (w h : Z) : HTMLImage :=
  mkImage w h (fun x y => if (x =? 0) && (y =? 0)
                          then mkRGBA 255 255 255 255 else transparentBlack).

(** A world that serves [img] under every URL, with a random stream
    drawn from [pool]. *)
Definition worldOf (img : HTMLImage) (pool : nat -> Z) : World :=
  mkWorld (fun _ => Some img) pool 0 [].

Definition withGapStroke (g s : Q) : ContourBorderOptions :=
  mkOptions None None (Some g) (Some s) None None None None.

(** Random pools for the samples: [Math.random] returning a varying
    multiple of 1/64, always 0, and always 1/2. *)
Definition samplePool (n : nat) : Z :=
  ((Z.of_nat n * 37 + 11) mod 64) * 140737488355328.

Definition zeroPool (n : nat) : Z := 0.

Definition halfPool (n : nat) : Z := 4503599627370496.

Definition isOk {A} (r : Result A) : bool :=
  match r with Ok _ => true | Throw _ => false end.

Definition valueOr {A} (default : A) (r : Result A) : A :=
  match r with Ok a => a | Throw _ => default end.

(* ------------------------------------------------------------------ *)
(** * Properties *)

(** ** Bytes and blending *)

Lemma clampByte_range (z : Z) : 0 <= clampByte z <= 255.
Proof. unfold clampByte. lia. Qed.

Lemma clampByte_pos (z : Z) : 0 < clampByte z <-> 0 < z.
Proof. unfold clampByte. lia. Qed.

Lemma clampByte_id (z : Z) : 0 <= z <= 255 -> clampByte z = z.
Proof. unfold clampByte. lia. Qed.

Lemma mul255_zero_l (b : Z) : mul255 0 b = 0.
Proof. unfold mul255. reflexivity. Qed.

Lemma mul255_zero_r (a : Z) : mul255 a 0 = 0.
Proof. unfold mul255. rewrite Z.mul_0_r. reflexivity. Qed.

(** A rounded product is positive only when both factors have the same
    strict sign; with a non-negative second factor both are positive. *)
Lemma mul255_pos (a b : Z) : 0 <= b -> 0 < mul255 a b -> 0 < a /\ 0 < b.
Proof.
  unfold mul255. intros Hb H.
  assert (255 <= a * b + 127).
  { destruct (Z_lt_le_dec (a * b + 127) 255) as [Hlt|]; [|assumption].
    assert ((a * b + 127) / 255 <= 0).
    { apply Z.lt_succ_r. apply Z.div_lt_upper_bound; lia. }
    lia. }
  assert (Hb0 : b <> 0) by (intros ->; lia).
  split; [|lia].
  destruct (Z_lt_le_dec 0 a) as [|Ha]; [assumption|].
  assert (a * b <= 0) by (apply Z.mul_nonpos_nonneg; lia). lia.
Qed.

Lemma mul255_full (a : Z) : 0 <= a <= 255 -> mul255 a 255 = a.
Proof.
  intros H. unfold mul255. symmetry.
  apply (Z.div_unique _ 255 a 127); lia.
Qed.


Lemma alpha_storePixel (r g b a : Z) : alpha (storePixel r g b a) = clampByte a.
Proof.
  unfold storePixel. destruct (clampByte a =? 0) eqn:E; simpl.
  - apply Z.eqb_eq in E. congruence.
  - reflexivity.
Qed.

Lemma alpha_blend_range (op : CompositeOp) (s d : RGBA) :
  0 <= alpha (blend op s d) <= 255.
Proof.
  destruct op; simpl; rewrite alpha_storePixel; apply clampByte_range.
Qed.

Lemma blend_over_clear (s : RGBA) :
  alpha (blend SourceOver s transparentBlack) = clampByte (alpha s).
Proof.
  simpl. rewrite alpha_storePixel, mul255_zero_l. f_equal. lia.
Qed.

(** ** Canvases *)

Lemma pixelAt_outside (c : Canvas) (x y : Z) :
  inBounds (width c) (height c) x y = false -> pixelAt c x y = transparentBlack.
Proof. unfold pixelAt. intros ->. reflexivity. Qed.

Lemma inBounds_true (w h x y : Z) :
  inBounds w h x y = true <-> 0 <= x < w /\ 0 <= y < h.
Proof.
  unfold inBounds. rewrite !andb_true_iff, !Z.leb_le, !Z.ltb_lt. lia.
Qed.

Lemma opaqueAt_inBounds (c : Canvas) (x y : Z) :
  opaqueAt c x y -> 0 <= x < width c /\ 0 <= y < height c.
Proof.
  unfold opaqueAt, alphaAt, pixelAt. intros H.
  destruct (inBounds (width c) (height c) x y) eqn:E.
  - now apply inBounds_true.
  - simpl in H. lia.
Qed.

Lemma not_opaque_zero (c : Canvas) (x y : Z) :
  0 <= alphaAt c x y -> ~ opaqueAt c x y -> alphaAt c x y = 0.
Proof. unfold opaqueAt. lia. Qed.

Lemma width_paint (ctx : Context2D) layer : width (canvas (paint ctx layer)) = width (canvas ctx).
Proof. reflexivity. Qed.

Lemma height_paint (ctx : Context2D) layer : height (canvas (paint ctx layer)) = height (canvas ctx).
Proof. reflexivity. Qed.

Lemma pixelAt_paint (ctx : Context2D) layer (x y : Z) :
  pixelAt (canvas (paint ctx layer)) x y =
  if inBounds (width (canvas ctx)) (height (canvas ctx)) x y
  then blend (globalCompositeOperation (state ctx)) (layer x y)
             (pixelAt (canvas ctx) x y)
  else transparentBlack.
Proof. reflexivity. Qed.

Lemma alphaAt_paint_range (ctx : Context2D) layer (x y : Z) :
  0 <= alphaAt (canvas (paint ctx layer)) x y <= 255.
Proof.
  unfold alphaAt. rewrite pixelAt_paint.
  destruct (inBounds _ _ x y); [apply alpha_blend_range | simpl; lia].
Qed.

(** ** Rational tests *)

Lemma Qleb_true (a b : Q) : Qleb a b = true <-> (a <= b)%Q.
Proof. unfold Qleb. apply Qle_bool_iff. Qed.

Lemma Qltb_true (a b : Q) : Qltb a b = true <-> (a < b)%Q.
Proof.
  unfold Qltb. rewrite negb_true_iff. split; intros H.
  - apply Qnot_le_lt. intros Hle. apply Qle_bool_iff in Hle. congruence.
  - destruct (Qle_bool b a) eqn:E; [|reflexivity].
    apply Qle_bool_iff in E. exfalso. apply (Qlt_not_le _ _ H E).
Qed.

Lemma inSpan_true (start extent v : Q) :
  (0 <= extent)%Q ->
  inSpan start extent v = true <-> (start <= v /\ v < start + extent)%Q.
Proof.
  intros He. unfold inSpan.
  rewrite andb_true_iff, Qleb_true, Qltb_true.
  assert (Hle : (start <= start + extent)%Q) by lra.
  rewrite (Q.min_l _ _ Hle), (Q.max_r _ _ Hle). tauto.
Qed.

Lemma inSpan_columns (w x : Z) :
  0 <= x < w -> inSpan 0 (inject_Z w) (pixelCentre x) = true.
Proof.
  intros H.
  assert (HW : (inject_Z 0 <= inject_Z w)%Q) by (rewrite <- Zle_Qle; lia).
  change (inject_Z 0) with 0%Q in HW.
  apply (proj2 (inSpan_true 0 (inject_Z w) (pixelCentre x) HW)).
  assert (H1 : 0 <= x) by lia. assert (H2 : x + 1 <= w) by lia.
  rewrite Zle_Qle in H1, H2. rewrite inject_Z_plus in H2.
  change (inject_Z 1) with 1%Q in H2. change (inject_Z 0) with 0%Q in H1.
  unfold pixelCentre, half. lra.
Qed.

Lemma pixelCentre_lt (x c : Z) : x < c <-> (pixelCentre x < inject_Z c)%Q.
Proof.
  unfold pixelCentre, half. split; intros H.
  - assert (H0 : x + 1 <= c) by lia.
    rewrite Zle_Qle, inject_Z_plus in H0.
    change (inject_Z 1) with 1%Q in H0. lra.
  - rewrite Zlt_Qlt. lra.
Qed.

Lemma pixelCentre_ge (x c : Z) : c <= x <-> (inject_Z c <= pixelCentre x)%Q.
Proof.
  unfold pixelCentre, half. split; intros H.
  - rewrite Zle_Qle in H. lra.
  - destruct (Z_lt_le_dec x c) as [Hlt|]; [|assumption].
    apply pixelCentre_lt in Hlt. unfold pixelCentre, half in Hlt. lra.
Qed.

(** ** Scaled drawing onto a cleared canvas *)

Definition blank (c : Canvas) : Prop :=
  forall x y, pixelAt c x y = transparentBlack.

Lemma blank_cleared (w h : Z) (a b c d : Q) :
  blank (canvas (clearRect (freshContext (createCanvas w h)) a b c d)).
Proof.
  intros x y. unfold pixelAt; simpl.
  destruct (inBounds w h x y); [|reflexivity].
  destruct (inSpan a c (pixelCentre x) && inSpan b d (pixelCentre y));
    [reflexivity|].
  unfold pixelAt; simpl. destruct (inBounds w h x y); reflexivity.
Qed.

Section Drawn.

Context {platform : Platform}.

(** What [drawImage] leaves of its layer on a cleared canvas. *)
Lemma alphaAt_drawn (ctx : Context2D) (src : CanvasImageSource)
    (sx sy sw sh dx dy dw dh : Q) (x y : Z) :
  blank (canvas ctx) ->
  globalCompositeOperation (state ctx) = SourceOver ->
  alphaAt (canvas (drawImage9 ctx src sx sy sw sh dx dy dw dh)) x y =
  if Qeq_bool sw 0 || Qeq_bool sh 0 then 0
  else if inBounds (width (canvas ctx)) (height (canvas ctx)) x y
       then clampByte (alpha (imageLayer src sx sy sw sh dx dy dw dh x y))
       else 0.
Proof.
  intros Hblank Hop. unfold alphaAt, drawImage9.
  destruct (Qeq_bool sw 0 || Qeq_bool sh 0).
  - now rewrite Hblank.
  - rewrite pixelAt_paint, Hop, Hblank.
    destruct (inBounds _ _ x y); [apply blend_over_clear | reflexivity].
Qed.

(** Whatever the filter, a pixel drawn onto a cleared canvas is opaque
    only on the canvas and with its centre in the destination
    rectangle. *)
Lemma opaque_drawn_spans (ctx : Context2D) (src : CanvasImageSource)
    (sx sy sw sh dx dy dw dh : Q) (x y : Z) :
  blank (canvas ctx) ->
  globalCompositeOperation (state ctx) = SourceOver ->
  opaqueAt (canvas (drawImage9 ctx src sx sy sw sh dx dy dw dh)) x y ->
  inBounds (width (canvas ctx)) (height (canvas ctx)) x y = true /\
  inSpan dx dw (pixelCentre x) = true /\
  inSpan dy dh (pixelCentre y) = true.
Proof.
  intros Hblank Hop. unfold opaqueAt. rewrite alphaAt_drawn by assumption.
  destruct (Qeq_bool sw 0 || Qeq_bool sh 0); [lia|].
  destruct (inBounds _ _ x y); [|lia].
  rewrite clampByte_pos. unfold imageLayer.
  destruct (inSpan dx dw (pixelCentre x));
    destruct (inSpan dy dh (pixelCentre y));
    cbn [andb alpha transparentBlack]; intros H;
    first [lia | repeat split].
Qed.

End Drawn.

(** ** Spans centred on the same coordinate *)

(** The span starting at [start] of extent [extent] has its middle at
    the integer coordinate [c]. *)
Definition centredOn (c : Z) (start extent : Q) : Prop :=
  (2 * start + extent == 2 * inject_Z c)%Q.

Lemma inSpan_wider (c : Z) (dx b dx' b' : Q) (v : Q) :
  (0 <= b)%Q -> (b <= b')%Q -> centredOn c dx b -> centredOn c dx' b' ->
  inSpan dx b v = true -> inSpan dx' b' v = true.
Proof.
  unfold centredOn. intros Hb Hbb Hdx Hdx'. rewrite !inSpan_true by lra. lra.
Qed.

(** ** Geometry of the three layers *)

Lemma imageX_centred (img : HTMLImage) :
  centredOn (naturalWidth img) (imageX img) (inject_Z (naturalWidth img)).
Proof.
  unfold centredOn, imageX, canvasWidth.
  replace (naturalWidth img * 2 - naturalWidth img) with (naturalWidth img) by lia.
  field.
Qed.

Lemma imageY_centred (img : HTMLImage) :
  centredOn (naturalHeight img) (imageY img) (inject_Z (naturalHeight img)).
Proof.
  unfold centredOn, imageY, canvasHeight.
  replace (naturalHeight img * 2 - naturalHeight img) with (naturalHeight img) by lia.
  field.
Qed.

Lemma innerX_centred (img : HTMLImage) (opts : Opts.t) :
  centredOn (naturalWidth img) (innerX img opts) (innerWidth img opts).
Proof.
  assert (H := imageX_centred img). unfold centredOn, innerX, innerWidth in *. lra.
Qed.

Lemma innerY_centred (img : HTMLImage) (opts : Opts.t) :
  centredOn (naturalHeight img) (innerY img opts) (innerHeight img opts).
Proof.
  assert (H := imageY_centred img). unfold centredOn, innerY, innerHeight in *. lra.
Qed.

Lemma outerX_centred (img : HTMLImage) (opts : Opts.t) :
  centredOn (naturalWidth img) (outerX img opts) (outerWidth img opts).
Proof.
  assert (H := innerX_centred img opts).
  unfold centredOn, outerX, outerWidth in *. lra.
Qed.

Lemma outerY_centred (img : HTMLImage) (opts : Opts.t) :
  centredOn (naturalHeight img) (outerY img opts) (outerHeight img opts).
Proof.
  assert (H := innerY_centred img opts).
  unfold centredOn, outerY, outerHeight in *. lra.
Qed.

Lemma Qeq_bool_pos (q : Q) : (0 < q)%Q -> Qeq_bool q 0 = false.
Proof.
  intros H. destruct (Qeq_bool q 0) eqn:E; [|reflexivity].
  apply Qeq_bool_iff in E. lra.
Qed.

Lemma inject_Z_pos (z : Z) : 0 < z -> (0 < inject_Z z)%Q.
Proof. intros H. now rewrite Zlt_Qlt in H. Qed.

Definition zrange (n : Z) : list Z := map Z.of_nat (seq 0 (Z.to_nat n)).

Lemma in_zrange (n x : Z) : In x (zrange n) <-> 0 <= x < n.
Proof.
  unfold zrange. rewrite in_map_iff. split.
  - intros (k & <- & Hk). apply in_seq in Hk. lia.
  - intros H. exists (Z.to_nat x). split; [lia|]. apply in_seq. lia.
Qed.

Section Silhouettes.

Context {platform : Platform}.

(** The mask is opaque only inside the image rectangle. *)
Lemma opaque_mask_spans (img : HTMLImage) (x y : Z) :
  opaqueAt (maskCanvasOf img) x y ->
  inBounds (canvasWidth img) (canvasHeight img) x y = true /\
  inSpan (imageX img) (inject_Z (naturalWidth img)) (pixelCentre x) = true /\
  inSpan (imageY img) (inject_Z (naturalHeight img)) (pixelCentre y) = true.
Proof.
  unfold maskCanvasOf, paintMask, drawImage5, workingContext.
  intros H. apply opaque_drawn_spans in H;
    [exact H | apply blank_cleared | reflexivity].
Qed.

(** The inner silhouette is opaque only inside the inner rectangle. *)
Lemma opaque_inner_spans (img : HTMLImage) (opts : Opts.t) (x y : Z) :
  opaqueAt (innerCanvasOf img opts) x y ->
  inBounds (canvasWidth img) (canvasHeight img) x y = true /\
  inSpan (innerX img opts) (innerWidth img opts) (pixelCentre x) = true /\
  inSpan (innerY img opts) (innerHeight img opts) (pixelCentre y) = true.
Proof.
  unfold innerCanvasOf, paintInner, workingContext.
  intros H. apply opaque_drawn_spans in H;
    [exact H | apply blank_cleared | reflexivity].
Qed.

(** The outer silhouette is opaque only inside the outer rectangle. *)
Lemma opaque_outer_spans (img : HTMLImage) (opts : Opts.t) (x y : Z) :
  opaqueAt (outerCanvasOf img opts) x y ->
  inBounds (canvasWidth img) (canvasHeight img) x y = true /\
  inSpan (outerX img opts) (outerWidth img opts) (pixelCentre x) = true /\
  inSpan (outerY img opts) (outerHeight img opts) (pixelCentre y) = true.
Proof.
  unfold outerCanvasOf, paintOuter, workingContext.
  intros H. apply opaque_drawn_spans in H;
    [exact H | apply blank_cleared | reflexivity].
Qed.

End Silhouettes.

(** ** Enlargements about the centre

    Each enlargement passes on, to a destination pixel, at least a
    quarter of the alpha of the source pixel under its pulled-back
    centre. *)

Lemma ratio_bounds (a b : Q) :
  (0 < a)%Q -> (a <= b)%Q -> (0 < a / b /\ a / b <= 1)%Q.
Proof.
  intros Ha Hab. assert (Hb : (0 < b)%Q) by lra. split.
  - apply Qlt_shift_div_l; lra.
  - apply Qle_shift_div_r; lra.
Qed.

Lemma floor_between (q : Q) (lo hi : Z) :
  (inject_Z lo <= q)%Q -> (q < inject_Z hi + 1)%Q -> lo <= Qfloor q <= hi.
Proof.
  intros Hlo Hhi.
  assert (H1 := Qfloor_le q). assert (H2 := Qlt_floor q).
  rewrite inject_Z_plus in H2. change (inject_Z 1) with 1%Q in H2.
  assert (Ha : (inject_Z (Qfloor q) < inject_Z (hi + 1))%Q).
  { rewrite inject_Z_plus. change (inject_Z 1) with 1%Q. lra. }
  assert (Hb : (inject_Z lo < inject_Z (Qfloor q + 1))%Q).
  { rewrite inject_Z_plus. change (inject_Z 1) with 1%Q. lra. }
  rewrite <- Zlt_Qlt in Ha, Hb. lia.
Qed.

Lemma pull_centred (c : Z) (sx dx a b p : Q) :
  (0 < b)%Q -> centredOn c sx a -> centredOn c dx b ->
  (sx + (p - dx) * a / b == inject_Z c + (p - inject_Z c) * (a / b))%Q.
Proof.
  unfold centredOn. intros Hb Hs Hd.
  assert (Es : (sx == inject_Z c - a * (1 # 2))%Q) by lra.
  assert (Ed : (dx == inject_Z c - b * (1 # 2))%Q) by lra.
  rewrite Es, Ed. field. lra.
Qed.

(** [x'] lies between [x] and the centre line [c]. *)
Definition towards (c x x' : Z) : Prop :=
  (x <= x' /\ x' < c) \/ (c <= x' /\ x' <= x).

(** An enlargement about the centre pulls a column back to a column
    between itself and the centre line. *)
Lemma pull_towards (c : Z) (sx dx a b : Q) (x : Z) :
  (0 < a)%Q -> (a <= b)%Q -> centredOn c sx a -> centredOn c dx b ->
  towards c x (Math_floor (sx + (pixelCentre x - dx) * a / b)).
Proof.
  intros Ha Hab Hsx Hdx. unfold Math_floor.
  assert (Hb : (0 < b)%Q) by lra.
  rewrite (Qfloor_comp _ _ (pull_centred c sx dx a b (pixelCentre x) Hb Hsx Hdx)).
  destruct (ratio_bounds a b Ha Hab) as [Hr0 Hr1].
  set (r := (a / b)%Q) in *. set (p := pixelCentre x).
  set (u := (inject_Z c + (p - inject_Z c) * r)%Q).
  assert (Hfp : Qfloor p = x) by apply floor_pixelCentre.
  destruct (Z_lt_le_dec x c) as [Hlt | Hge].
  - left. apply pixelCentre_lt in Hlt. fold p in Hlt.
    assert (Hpu : (p <= u)%Q) by (unfold u; nra).
    assert (Huc : (u < inject_Z c)%Q) by (unfold u; nra).
    split.
    + rewrite <- Hfp. now apply Qfloor_resp_le.
    + rewrite Zlt_Qlt. eapply Qle_lt_trans; [apply Qfloor_le | exact Huc].
  - right. apply pixelCentre_ge in Hge. fold p in Hge.
    assert (Hup : (u <= p)%Q) by (unfold u; nra).
    assert (Hcu : (inject_Z c <= u)%Q) by (unfold u; nra).
    split.
    + rewrite <- (Qfloor_Z c). now apply Qfloor_resp_le.
    + rewrite <- Hfp. now apply Qfloor_resp_le.
Qed.

(** A centred span that holds the centre of column [x] holds the centres
    of the columns between [x] and the centre line. *)
Lemma inSpan_towards (c : Z) (dx b : Q) (x x' : Z) :
  (0 <= b)%Q -> centredOn c dx b ->
  towards c x x' ->
  inSpan dx b (pixelCentre x) = true -> inSpan dx b (pixelCentre x') = true.
Proof.
  unfold centredOn. intros Hb Hdx Ht. rewrite !inSpan_true by assumption.
  intros [Hlo Hhi]. destruct Ht as [[H1 H2] | [H1 H2]].
  - apply pixelCentre_lt in H2.
    assert ((pixelCentre x <= pixelCentre x')%Q).
    { unfold pixelCentre. rewrite Zle_Qle in H1. lra. }
    lra.
  - apply pixelCentre_ge in H1.
    assert ((pixelCentre x' <= pixelCentre x)%Q).
    { unfold pixelCentre. rewrite Zle_Qle in H2. lra. }
    lra.
Qed.

(** A span of whole extent [n] starting at the whole coordinate [s]:
    the source column under a destination column whose centre lies in a
    wider span about the same centre is one of its [n] columns. *)
Lemma pull_into_aligned (c s n : Z) (dx b : Q) (x : Z) :
  0 < n -> (inject_Z n <= b)%Q ->
  2 * s + n = 2 * c -> centredOn c dx b ->
  inSpan dx b (pixelCentre x) = true ->
  s <= Math_floor (inject_Z s + (pixelCentre x - dx) * inject_Z n / b) <= s + n - 1.
Proof.
  intros Hn Hnb Hs Hd Ex.
  assert (Hnq := inject_Z_pos _ Hn).
  assert (Hb : (0 < b)%Q) by lra.
  apply inSpan_true in Ex; [|lra].
  set (t := (pixelCentre x - dx)%Q) in *.
  assert (Ht : (0 <= t /\ t < b)%Q) by (unfold t; lra).
  assert (Hq0 : (0 <= t * inject_Z n / b)%Q).
  { apply Qle_shift_div_l; [exact Hb|]. nra. }
  assert (Hq1 : (t * inject_Z n / b < inject_Z n)%Q).
  { apply Qlt_shift_div_r; [exact Hb|]. nra. }
  unfold Math_floor. apply floor_between.
  - lra.
  - unfold Zminus. rewrite !inject_Z_plus, inject_Z_opp.
    change (inject_Z 1) with 1%Q. lra.
Qed.

Section Enlargements.

Context {platform : Platform}.

Lemma alphaAt_mask_range (img : HTMLImage) (x y : Z) :
  0 <= alphaAt (maskCanvasOf img) x y <= 255.
Proof.
  unfold maskCanvasOf, paintMask, drawImage5, drawImage9, workingContext.
  destruct (_ || _).
  - unfold alphaAt. rewrite blank_cleared. simpl. lia.
  - apply alphaAt_paint_range.
Qed.

Lemma alphaAt_inner_range (img : HTMLImage) (opts : Opts.t) (x y : Z) :
  0 <= alphaAt (innerCanvasOf img opts) x y <= 255.
Proof.
  unfold innerCanvasOf, paintInner, drawImage9, workingContext.
  destruct (_ || _).
  - unfold alphaAt. rewrite blank_cleared. simpl. lia.
  - apply alphaAt_paint_range.
Qed.


(** A draw that enlarges, onto a cleared canvas: a quarter of the alpha
    of the source pixel under the point reaches the destination. *)
Lemma drawn_weight (ctx : Context2D) (src : CanvasImageSource)
    (sx sy sw sh dx dy dw dh : Q) (x y : Z) :
  blank (canvas ctx) ->
  globalCompositeOperation (state ctx) = SourceOver ->
  (0 < sw)%Q -> (sw <= dw)%Q -> (0 < sh)%Q -> (sh <= dh)%Q ->
  (forall i j, 0 <= alpha (sourcePixel src i j)) ->
  inBounds (width (canvas ctx)) (height (canvas ctx)) x y = true ->
  inSpan dx dw (pixelCentre x) = true ->
  inSpan dy dh (pixelCentre y) = true ->
  Z.min 255 (alpha (sourcePixel src
                      (Math_floor (sx + (pixelCentre x - dx) * sw / dw))
                      (Math_floor (sy + (pixelCentre y - dy) * sh / dh))))
  <= 4 * alphaAt (canvas (drawImage9 ctx src sx sy sw sh dx dy dw dh)) x y + 2.
Proof.
  intros Hblank Hop Hsw Hdw Hsh Hdh Hpos Eb Ex Ey.
  rewrite alphaAt_drawn by assumption.
  rewrite !Qeq_bool_pos by assumption. cbn [orb]. rewrite Eb.
  unfold imageLayer. rewrite Ex, Ey. cbn [andb]. cbv zeta.
  destruct (ratio_bounds sw dw Hsw Hdw) as [Hu0 Hu1].
  destruct (ratio_bounds sh dh Hsh Hdh) as [Hv0 Hv1].
  assert (H := sample_weight src (sw / dw) (sh / dh)
                 (sx + (pixelCentre x - dx) * sw / dw)
                 (sy + (pixelCentre y - dy) * sh / dh) Hu0 Hu1 Hv0 Hv1 Hpos).
  unfold clampByte. lia.
Qed.


(** An image without transparency. *)
Definition opaqueImage (img : HTMLImage) : Prop :=
  forall i j, 0 <= i < naturalWidth img -> 0 <= j < naturalHeight img ->
              alpha (imagePixel img i j) = 255.

Lemma opaqueImage_alpha (img : HTMLImage) :
  opaqueImage img ->
  forall i j, 0 <= alpha (sourcePixel (FromImage img) i j).
Proof.
  intros Ho i j. cbn [sourcePixel].
  destruct (inBounds (naturalWidth img) (naturalHeight img) i j) eqn:E.
  - apply inBounds_true in E. rewrite Ho; lia.
  - simpl. lia.
Qed.

(** Every pixel of the mask whose centre lies in the image rectangle
    has at least a quarter of the full alpha. *)
Lemma mask_weight_opaque (img : HTMLImage) (x y : Z) :
  opaqueImage img ->
  inBounds (canvasWidth img) (canvasHeight img) x y = true ->
  inSpan (imageX img) (inject_Z (naturalWidth img)) (pixelCentre x) = true ->
  inSpan (imageY img) (inject_Z (naturalHeight img)) (pixelCentre y) = true ->
  64 <= alphaAt (maskCanvasOf img) x y.
Proof.
  intros Ho Eb Ex Ey.
  assert (Hb := Eb). apply inBounds_true in Hb.
  unfold canvasWidth, canvasHeight in Hb.
  assert (HW : 0 < naturalWidth img) by lia.
  assert (HH : 0 < naturalHeight img) by lia.
  assert (HWq := inject_Z_pos _ HW). assert (HHq := inject_Z_pos _ HH).
  assert (Hw := drawn_weight
    (clearRect (freshContext (createCanvas (canvasWidth img) (canvasHeight img)))
               0 0 (inject_Z (canvasWidth img)) (inject_Z (canvasHeight img)))
    (FromImage img) 0 0
    (inject_Z (naturalWidth img)) (inject_Z (naturalHeight img))
    (imageX img) (imageY img)
    (inject_Z (naturalWidth img)) (inject_Z (naturalHeight img)) x y
    (blank_cleared _ _ _ _ _ _) eq_refl HWq (Qle_refl _) HHq (Qle_refl _)
    (opaqueImage_alpha img Ho) Eb Ex Ey).
  unfold maskCanvasOf, paintMask, drawImage5, workingContext.
  cbn [sourceWidth sourceHeight].
  apply inSpan_true in Ex; [|lra]. apply inSpan_true in Ey; [|lra].
  assert (Fx : 0 <= Math_floor (0 + (pixelCentre x - imageX img)
                 * inject_Z (naturalWidth img) / inject_Z (naturalWidth img))
               <= naturalWidth img - 1).
  { apply floor_between.
    - assert (E : (0 + (pixelCentre x - imageX img) * inject_Z (naturalWidth img)
                     / inject_Z (naturalWidth img) == pixelCentre x - imageX img)%Q)
        by (field; lra).
      rewrite E. change (inject_Z 0) with 0%Q. lra.
    - assert (E : (0 + (pixelCentre x - imageX img) * inject_Z (naturalWidth img)
                     / inject_Z (naturalWidth img) == pixelCentre x - imageX img)%Q)
        by (field; lra).
      rewrite E. unfold Zminus. rewrite inject_Z_plus, inject_Z_opp.
      change (inject_Z 1) with 1%Q. lra. }
  assert (Fy : 0 <= Math_floor (0 + (pixelCentre y - imageY img)
                 * inject_Z (naturalHeight img) / inject_Z (naturalHeight img))
               <= naturalHeight img - 1).
  { apply floor_between.
    - assert (E : (0 + (pixelCentre y - imageY img) * inject_Z (naturalHeight img)
                     / inject_Z (naturalHeight img) == pixelCentre y - imageY img)%Q)
        by (field; lra).
      rewrite E. change (inject_Z 0) with 0%Q. lra.
    - assert (E : (0 + (pixelCentre y - imageY img) * inject_Z (naturalHeight img)
                     / inject_Z (naturalHeight img) == pixelCentre y - imageY img)%Q)
        by (field; lra).
      rewrite E. unfold Zminus. rewrite inject_Z_plus, inject_Z_opp.
      change (inject_Z 1) with 1%Q. lra. }
  cbn [sourcePixel] in Hw.
  rewrite (proj2 (inBounds_true _ _ _ _)) in Hw by lia.
  rewrite Ho in Hw by lia.
  lia.
Qed.



(** The inner silhouette of an image without transparency, of even
    width and height, covers its rectangle: every pixel of the canvas
    with its centre there has at least alpha 16. *)
Lemma inner_weight_opaque (img : HTMLImage) (opts : Opts.t) (x y : Z) :
  opaqueImage img ->
  naturalWidth img mod 2 = 0 -> naturalHeight img mod 2 = 0 ->
  (0 <= Opts.gapPx opts)%Q ->
  inBounds (canvasWidth img) (canvasHeight img) x y = true ->
  inSpan (innerX img opts) (innerWidth img opts) (pixelCentre x) = true ->
  inSpan (innerY img opts) (innerHeight img opts) (pixelCentre y) = true ->
  16 <= alphaAt (innerCanvasOf img opts) x y.
Proof.
  intros Ho HWe HHe Hgap Eb Ex Ey.
  assert (Hb := Eb). apply inBounds_true in Hb.
  unfold canvasWidth, canvasHeight in Hb.
  assert (HW : 0 < naturalWidth img) by lia.
  assert (HH : 0 < naturalHeight img) by lia.
  assert (HWq := inject_Z_pos _ HW). assert (HHq := inject_Z_pos _ HH).
  assert (Hiw : (inject_Z (naturalWidth img) <= innerWidth img opts)%Q)
    by (unfold innerWidth; lra).
  assert (Hih : (inject_Z (naturalHeight img) <= innerHeight img opts)%Q)
    by (unfold innerHeight; lra).
  assert (Hw := drawn_weight
    (clearRect (freshContext (createCanvas (canvasWidth img) (canvasHeight img)))
               0 0 (inject_Z (canvasWidth img)) (inject_Z (canvasHeight img)))
    (FromCanvas (maskCanvasOf img)) (imageX img) (imageY img)
    (inject_Z (naturalWidth img)) (inject_Z (naturalHeight img))
    (innerX img opts) (innerY img opts)
    (innerWidth img opts) (innerHeight img opts) x y
    (blank_cleared _ _ _ _ _ _) eq_refl HWq Hiw HHq Hih
    (fun i j => proj1 (alphaAt_mask_range img i j)) Eb Ex Ey).
  assert (HkW : naturalWidth img = 2 * (naturalWidth img / 2))
    by (rewrite (Z.div_mod (naturalWidth img) 2) at 1; lia).
  assert (HkH : naturalHeight img = 2 * (naturalHeight img / 2))
    by (rewrite (Z.div_mod (naturalHeight img) 2) at 1; lia).
  assert (EX : (imageX img == inject_Z (naturalWidth img / 2))%Q).
  { assert (Hc := imageX_centred img). unfold centredOn in Hc.
    assert (E : (inject_Z (naturalWidth img)
                 == 2 * inject_Z (naturalWidth img / 2))%Q)
      by (rewrite HkW at 1; rewrite inject_Z_mult; reflexivity).
    lra. }
  assert (EY : (imageY img == inject_Z (naturalHeight img / 2))%Q).
  { assert (Hc := imageY_centred img). unfold centredOn in Hc.
    assert (E : (inject_Z (naturalHeight img)
                 == 2 * inject_Z (naturalHeight img / 2))%Q)
      by (rewrite HkH at 1; rewrite inject_Z_mult; reflexivity).
    lra. }
  assert (Fx := pull_into_aligned (naturalWidth img) (naturalWidth img / 2)
                  (naturalWidth img) (innerX img opts) (innerWidth img opts) x
                  HW Hiw ltac:(lia) (innerX_centred img opts) Ex).
  assert (Fy := pull_into_aligned (naturalHeight img) (naturalHeight img / 2)
                  (naturalHeight img) (innerY img opts) (innerHeight img opts) y
                  HH Hih ltac:(lia) (innerY_centred img opts) Ey).
  unfold Math_floor in Fx, Fy, Hw.
  rewrite <- (Qfloor_comp
                (imageX img + (pixelCentre x - innerX img opts)
                              * inject_Z (naturalWidth img) / innerWidth img opts)
                (inject_Z (naturalWidth img / 2)
                 + (pixelCentre x - innerX img opts)
                   * inject_Z (naturalWidth img) / innerWidth img opts)) in Fx
    by (rewrite EX; reflexivity).
  rewrite <- (Qfloor_comp
                (imageY img + (pixelCentre y - innerY img opts)
                              * inject_Z (naturalHeight img) / innerHeight img opts)
                (inject_Z (naturalHeight img / 2)
                 + (pixelCentre y - innerY img opts)
                   * inject_Z (naturalHeight img) / innerHeight img opts)) in Fy
    by (rewrite EY; reflexivity).
  set (m := Qfloor (imageX img + (pixelCentre x - innerX img opts)
                      * inject_Z (naturalWidth img) / innerWidth img opts)) in *.
  set (n := Qfloor (imageY img + (pixelCentre y - innerY img opts)
                      * inject_Z (naturalHeight img) / innerHeight img opts)) in *.
  cbn [sourcePixel] in Hw. fold (alphaAt (maskCanvasOf img) m n) in Hw.
  assert (Hm : 64 <= alphaAt (maskCanvasOf img) m n).
  { apply mask_weight_opaque; [exact Ho | | |].
    - apply inBounds_true. unfold canvasWidth, canvasHeight. lia.
    - apply inSpan_true; [lra|]. rewrite EX.
      destruct Fx as [F1 F2]. apply Z.lt_succ_r in F2.
      apply pixelCentre_ge in F1. apply pixelCentre_lt in F2.
      replace (Z.succ (naturalWidth img / 2 + naturalWidth img - 1))
        with (naturalWidth img / 2 + naturalWidth img) in F2 by lia.
      rewrite inject_Z_plus in F2. lra.
    - apply inSpan_true; [lra|]. rewrite EY.
      destruct Fy as [F1 F2]. apply Z.lt_succ_r in F2.
      apply pixelCentre_ge in F1. apply pixelCentre_lt in F2.
      replace (Z.succ (naturalHeight img / 2 + naturalHeight img - 1))
        with (naturalHeight img / 2 + naturalHeight img) in F2 by lia.
      rewrite inject_Z_plus in F2. lra. }
  unfold innerCanvasOf, paintInner, workingContext. lia.
Qed.

(** With that, the outer silhouette covers the inner one: a pixel that
    is opaque in the inner silhouette is pulled back, by the second
    enlargement, to a pixel between itself and the centre, whose centre
    is again in the inner rectangle. *)
Lemma outer_covers_inner_opaque (img : HTMLImage) (opts : Opts.t) (x y : Z) :
  opaqueImage img ->
  naturalWidth img mod 2 = 0 -> naturalHeight img mod 2 = 0 ->
  (0 <= Opts.gapPx opts)%Q -> (0 <= Opts.strokePx opts)%Q ->
  opaqueAt (innerCanvasOf img opts) x y ->
  opaqueAt (outerCanvasOf img opts) x y.
Proof.
  intros Ho HWe HHe Hgap Hstroke Hin.
  destruct (opaque_inner_spans img opts x y Hin) as (Eb & Ex & Ey).
  assert (Hb := Eb). apply inBounds_true in Hb.
  unfold canvasWidth, canvasHeight in Hb.
  assert (HW : 0 < naturalWidth img) by lia.
  assert (HH : 0 < naturalHeight img) by lia.
  assert (HWq := inject_Z_pos _ HW). assert (HHq := inject_Z_pos _ HH).
  assert (HiW : (0 < innerWidth img opts)%Q) by (unfold innerWidth; lra).
  assert (HiH : (0 < innerHeight img opts)%Q) by (unfold innerHeight; lra).
  assert (HoW : (innerWidth img opts <= outerWidth img opts)%Q)
    by (unfold outerWidth; lra).
  assert (HoH : (innerHeight img opts <= outerHeight img opts)%Q)
    by (unfold outerHeight; lra).
  assert (Ox := inSpan_wider _ _ _ _ _ _ (Qlt_le_weak _ _ HiW) HoW
                  (innerX_centred img opts) (outerX_centred img opts) Ex).
  assert (Oy := inSpan_wider _ _ _ _ _ _ (Qlt_le_weak _ _ HiH) HoH
                  (innerY_centred img opts) (outerY_centred img opts) Ey).
  assert (Hw := drawn_weight
    (clearRect (freshContext (createCanvas (canvasWidth img) (canvasHeight img)))
               0 0 (inject_Z (canvasWidth img)) (inject_Z (canvasHeight img)))
    (FromCanvas (innerCanvasOf img opts)) (innerX img opts) (innerY img opts)
    (innerWidth img opts) (innerHeight img opts)
    (outerX img opts) (outerY img opts)
    (outerWidth img opts) (outerHeight img opts) x y
    (blank_cleared _ _ _ _ _ _) eq_refl HiW HoW HiH HoH
    (fun i j => proj1 (alphaAt_inner_range img opts i j)) Eb Ox Oy).
  assert (Tx := pull_towards (naturalWidth img) (innerX img opts) (outerX img opts)
                  (innerWidth img opts) (outerWidth img opts) x HiW HoW
                  (innerX_centred img opts) (outerX_centred img opts)).
  assert (Ty := pull_towards (naturalHeight img) (innerY img opts) (outerY img opts)
                  (innerHeight img opts) (outerHeight img opts) y HiH HoH
                  (innerY_centred img opts) (outerY_centred img opts)).
  set (m := Math_floor (innerX img opts + (pixelCentre x - outerX img opts)
                          * innerWidth img opts / outerWidth img opts)) in *.
  set (n := Math_floor (innerY img opts + (pixelCentre y - outerY img opts)
                          * innerHeight img opts / outerHeight img opts)) in *.
  cbn [sourcePixel] in Hw. fold (alphaAt (innerCanvasOf img opts) m n) in Hw.
  assert (Hm : 16 <= alphaAt (innerCanvasOf img opts) m n).
  { apply inner_weight_opaque; try assumption.
    - apply inBounds_true. unfold canvasWidth, canvasHeight.
      unfold towards in Tx, Ty. lia.
    - exact (inSpan_towards _ _ _ _ _ (Qlt_le_weak _ _ HiW)
               (innerX_centred img opts) Tx Ex).
    - exact (inSpan_towards _ _ _ _ _ (Qlt_le_weak _ _ HiH)
               (innerY_centred img opts) Ty Ey). }
  unfold opaqueAt, outerCanvasOf, paintOuter, workingContext. lia.
Qed.

End Enlargements.

(* ------------------------------------------------------------------ *)
(** * C1: the outer silhouette and the inner silhouette *)




(* ------------------------------------------------------------------ *)
(** * C3: the ring and the inner silhouette *)

Section Copies.

Context {platform : Platform}.

(** Drawing a canvas at (0, 0) in its own size copies it pixel for
    pixel: the draw is unscaled and maps pixel centres to pixel
    centres. *)
Lemma imageLayer_identity (c : Canvas) (x y : Z) :
  0 < width c -> 0 < height c ->
  imageLayer (FromCanvas c) 0 0 (inject_Z (width c)) (inject_Z (height c))
             0 0 (inject_Z (width c)) (inject_Z (height c)) x y
  = pixelAt c x y.
Proof.
  intros Hw Hh. unfold imageLayer.
  assert (HW := inject_Z_pos _ Hw). assert (HH := inject_Z_pos _ Hh).
  destruct (inSpan 0 (inject_Z (width c)) (pixelCentre x)) eqn:Ex;
    [destruct (inSpan 0 (inject_Z (height c)) (pixelCentre y)) eqn:Ey|];
    cbn [andb].
  - cbv zeta. rewrite (sample_aligned _ _ _ _ _ x y); [reflexivity | | | |];
      field; lra.
  - symmetry. apply pixelAt_outside.
    destruct (inBounds (width c) (height c) x y) eqn:Eb; [|reflexivity].
    apply inBounds_true in Eb. exfalso.
    assert (Hy : inSpan 0 (inject_Z (height c)) (pixelCentre y) = true)
      by (apply inSpan_columns; lia).
    congruence.
  - symmetry. apply pixelAt_outside.
    destruct (inBounds (width c) (height c) x y) eqn:Eb; [|reflexivity].
    apply inBounds_true in Eb. exfalso.
    assert (Hx : inSpan 0 (inject_Z (width c)) (pixelCentre x) = true)
      by (apply inSpan_columns; lia).
    congruence.
Qed.

Lemma inSpan_inBounds (w h x y : Z) :
  inBounds w h x y = true ->
  inSpan 0 (inject_Z w) (pixelCentre x) && inSpan 0 (inject_Z h) (pixelCentre y)
  = true.
Proof.
  intros Hb. apply inBounds_true in Hb.
  apply andb_true_iff. split; apply inSpan_columns; lia.
Qed.

(** ** Contexts keep what drawing does not touch *)

Lemma state_drawImage9 ctx src sx sy sw sh dx dy dw dh :
  state (drawImage9 ctx src sx sy sw sh dx dy dw dh) = state ctx.
Proof. unfold drawImage9. destruct (_ || _); reflexivity. Qed.

Lemma width_drawImage9 ctx src sx sy sw sh dx dy dw dh :
  width (canvas (drawImage9 ctx src sx sy sw sh dx dy dw dh)) = width (canvas ctx).
Proof. unfold drawImage9. destruct (_ || _); reflexivity. Qed.

Lemma height_drawImage9 ctx src sx sy sw sh dx dy dw dh :
  height (canvas (drawImage9 ctx src sx sy sw sh dx dy dw dh)) = height (canvas ctx).
Proof. unfold drawImage9. destruct (_ || _); reflexivity. Qed.

(** Drawing a canvas of the same size at the origin composites it pixel
    for pixel under the current operation. *)
Lemma pixelAt_drawImage3_same (ctx : Context2D) (c : Canvas) (x y : Z) :
  width c = width (canvas ctx) -> height c = height (canvas ctx) ->
  pixelAt (canvas (drawImage3 ctx (FromCanvas c) 0 0)) x y =
  if inBounds (width (canvas ctx)) (height (canvas ctx)) x y
  then blend (globalCompositeOperation (state ctx)) (pixelAt c x y)
             (pixelAt (canvas ctx) x y)
  else transparentBlack.
Proof.
  intros Hw Hh.
  destruct (inBounds (width (canvas ctx)) (height (canvas ctx)) x y) eqn:Eb.
  - assert (Hb := Eb). apply inBounds_true in Hb.
    unfold drawImage3, drawImage5, drawImage9. cbn [sourceWidth sourceHeight].
    rewrite !Qeq_bool_pos by (apply inject_Z_pos; lia). cbn [orb].
    rewrite pixelAt_paint, Eb, imageLayer_identity by lia. reflexivity.
  - apply pixelAt_outside. unfold drawImage3, drawImage5.
    now rewrite width_drawImage9, height_drawImage9.
Qed.

End Copies.

Section Styles.

Context {platform : Platform}.

Lemma canvas_set_fillStyle ctx v : canvas (set_fillStyle ctx v) = canvas ctx.
Proof. unfold set_fillStyle. destruct (parseColor v); reflexivity. Qed.

Lemma gco_set_fillStyle ctx v :
  globalCompositeOperation (state (set_fillStyle ctx v))
  = globalCompositeOperation (state ctx).
Proof. unfold set_fillStyle. destruct (parseColor v); reflexivity. Qed.

Lemma fillStyle_set_fillStyle ctx v :
  fillStyle (state (set_fillStyle ctx v))
  = match parseColor v with Some c => c | None => fillStyle (state ctx) end.
Proof. unfold set_fillStyle. destruct (parseColor v); reflexivity. Qed.

Lemma canvas_set_strokeStyle ctx v : canvas (set_strokeStyle ctx v) = canvas ctx.
Proof. unfold set_strokeStyle. destruct (parseColor v); reflexivity. Qed.

End Styles.

Section Ring.

Context {platform : Platform}.

(** The colour the ring is filled with: the parsed [color], or the
    initial black when the string is no colour. *)
Definition ringColour (opts : Opts.t) : RGBA :=
  match parseColor (Opts.color opts) with
  | Some c => c
  | None => opaqueBlack
  end.

Lemma width_ring (img : HTMLImage) (opts : Opts.t) :
  width (ringCanvasOf img opts) = canvasWidth img.
Proof.
  unfold ringCanvasOf, paintRing, fillRect. rewrite width_paint.
  unfold set_fillStyle. destruct (parseColor (Opts.color opts)); simpl;
    unfold drawImage3, drawImage5, drawImage9, paintOuter, drawImage9;
    repeat (match goal with |- context [if ?b then _ else _] => destruct b end);
    reflexivity.
Qed.

Lemma height_ring (img : HTMLImage) (opts : Opts.t) :
  height (ringCanvasOf img opts) = canvasHeight img.
Proof.
  unfold ringCanvasOf, paintRing, fillRect. rewrite height_paint.
  unfold set_fillStyle. destruct (parseColor (Opts.color opts)); simpl;
    unfold drawImage3, drawImage5, drawImage9, paintOuter, drawImage9;
    repeat (match goal with |- context [if ?b then _ else _] => destruct b end);
    reflexivity.
Qed.

(** The alpha of the ring: the fill colour seen through what
    [destination-out] leaves of the outer silhouette. *)
Lemma alphaAt_ring (img : HTMLImage) (opts : Opts.t) (x y : Z) :
  alphaAt (ringCanvasOf img opts) x y =
  if inBounds (canvasWidth img) (canvasHeight img) x y
  then clampByte (mul255 (alpha (ringColour opts))
         (clampByte (mul255 (alphaAt (outerCanvasOf img opts) x y)
                            (255 - alphaAt (innerCanvasOf img opts) x y))))
  else 0.
Proof.
  unfold alphaAt at 1. unfold ringCanvasOf, paintRing, fillRect.
  fold (outerCanvasOf img opts).
  set (outerCtx := paintOuter (workingContext img) (innerCanvasOf img opts) img opts).
  assert (Hcan : canvas outerCtx = outerCanvasOf img opts) by reflexivity.
  assert (Hst : state outerCtx = initialState)
    by (unfold outerCtx, paintOuter; now rewrite state_drawImage9).
  assert (How : width (canvas outerCtx) = canvasWidth img)
    by (unfold outerCtx, paintOuter; now rewrite width_drawImage9).
  assert (Hoh : height (canvas outerCtx) = canvasHeight img)
    by (unfold outerCtx, paintOuter; now rewrite height_drawImage9).
  assert (Hiw : width (innerCanvasOf img opts) = canvasWidth img)
    by (unfold innerCanvasOf, paintInner; now rewrite width_drawImage9).
  assert (Hih : height (innerCanvasOf img opts) = canvasHeight img)
    by (unfold innerCanvasOf, paintInner; now rewrite height_drawImage9).
  rewrite pixelAt_paint.
  rewrite gco_set_fillStyle, fillStyle_set_fillStyle, canvas_set_fillStyle.
  cbn [set_globalCompositeOperation withState canvas state
       globalCompositeOperation fillStyle].
  unfold drawImage3 at 1 2, drawImage5. rewrite width_drawImage9, height_drawImage9.
  cbn [set_globalCompositeOperation withState canvas]. rewrite How, Hoh.
  destruct (inBounds (canvasWidth img) (canvasHeight img) x y) eqn:Eb;
    [|reflexivity].
  rewrite (inSpan_inBounds _ _ _ _ Eb).
  rewrite pixelAt_drawImage3_same
    by (cbn [set_globalCompositeOperation withState canvas]; congruence).
  cbn [set_globalCompositeOperation withState canvas state
       globalCompositeOperation].
  rewrite How, Hoh, Eb, Hcan.
  unfold drawImage3, drawImage5. rewrite state_drawImage9.
  cbn [set_globalCompositeOperation withState state fillStyle]. rewrite Hst.
  cbn [blend fillStyle initialState]. rewrite !alpha_storePixel.
  unfold ringColour, alphaAt. reflexivity.
Qed.

End Ring.

Section RingClaims.

Context {platform : Platform}.

Lemma ring_positive (img : HTMLImage) (opts : Opts.t) (x y : Z) :
  0 < alphaAt (ringCanvasOf img opts) x y ->
  0 < alphaAt (outerCanvasOf img opts) x y /\
  alphaAt (innerCanvasOf img opts) x y < 255.
Proof.
  rewrite alphaAt_ring.
  destruct (inBounds (canvasWidth img) (canvasHeight img) x y); [|lia].
  rewrite clampByte_pos. intros H.
  apply mul255_pos in H; [|apply clampByte_range].
  destruct H as [_ H]. rewrite clampByte_pos in H.
  assert (Hi := alphaAt_inner_range img opts x y).
  apply mul255_pos in H; lia.
Qed.

(** C3 (as amended).  A ring pixel has alpha > 0 only where the outer
    silhouette has alpha > 0 and the inner silhouette is not fully
    opaque; so the ring has no pixel where the inner alpha is 255.
    Where the inner silhouette is partly transparent the ring may
    overlap it. *)
Theorem ring_avoids_opaque_inner (img : HTMLImage) (opts : Opts.t) (x y : Z) :
  (0 < alphaAt (ringCanvasOf img opts) x y ->
     0 < alphaAt (outerCanvasOf img opts) x y /\
     alphaAt (innerCanvasOf img opts) x y < 255) /\
  (alphaAt (innerCanvasOf img opts) x y = 255 ->
     alphaAt (ringCanvasOf img opts) x y = 0).
Proof.
  assert (Hr : 0 <= alphaAt (ringCanvasOf img opts) x y).
  { rewrite alphaAt_ring. destruct (inBounds _ _ x y); [|lia].
    apply clampByte_range. }
  split; [apply ring_positive |].
  intros Hi.
  destruct (Z_lt_le_dec 0 (alphaAt (ringCanvasOf img opts) x y)) as [Hp|]; [|lia].
  apply ring_positive in Hp. lia.
Qed.

End RingClaims.

(** An opaque 40 x 40 image and the default options: in the middle of
    the canvas, at (40, 40), the inner silhouette is fully opaque and
    the ring is empty. *)
Lemma ring_avoids_opaque_inner_witness :
  alphaAt (innerCanvasOf (uniformImage 40 40 255) (mergeOptions emptyOptions))
          40 40 = 255 /\
  alphaAt (ringCanvasOf (uniformImage 40 40 255) (mergeOptions emptyOptions))
          40 40 = 0.
Proof.
  assert (Hi : alphaAt (innerCanvasOf (uniformImage 40 40 255)
                          (mergeOptions emptyOptions)) 40 40 = 255)
    by (vm_compute; reflexivity).
  split; [exact Hi |].
  exact (proj2 (ring_avoids_opaque_inner (uniformImage 40 40 255)
                  (mergeOptions emptyOptions) 40 40) Hi).
Defined.

(** C3 as stated fails: a 2 x 2 image of alpha 128, gap 0 and stroke 1.
    At (1, 1) the inner silhouette has alpha 128 and [destination-out]
    leaves the ring alpha 64, with smoothing and without. *)
Lemma ring_meets_inner_counterexample :
  ~ (forall (img : HTMLImage) (opts : Opts.t) (x y : Z),
       opaqueAt (innerCanvasOf (platform := refPlatform) img opts) x y ->
       ~ opaqueAt (ringCanvasOf (platform := refPlatform) img opts) x y) /\
  ~ (forall (img : HTMLImage) (opts : Opts.t) (x y : Z),
       opaqueAt (innerCanvasOf (platform := crispPlatform) img opts) x y ->
       ~ opaqueAt (ringCanvasOf (platform := crispPlatform) img opts) x y) /\
  alphaAt (innerCanvasOf (platform := refPlatform) (uniformImage 2 2 128)
             (mergeOptions (withGapStroke 0 1))) 1 1 = 128 /\
  alphaAt (ringCanvasOf (platform := refPlatform) (uniformImage 2 2 128)
             (mergeOptions (withGapStroke 0 1))) 1 1 = 64.
Proof.
  split; [|split; [|split]].
  - intros H.
    apply (H (uniformImage 2 2 128) (mergeOptions (withGapStroke 0 1)) 1 1);
      vm_compute; reflexivity.
  - intros H.
    apply (H (uniformImage 2 2 128) (mergeOptions (withGapStroke 0 1)) 1 1);
      vm_compute; reflexivity.
  - vm_compute. reflexivity.
  - vm_compute. reflexivity.
Qed.

(** Smoothing makes the edge of every enlarged silhouette partly
    transparent, so the overlap is there for a fully opaque source as
    well: an opaque 40 x 40 image under the default options has, at
    (10, 10), inner alpha 177 and ring alpha 78. *)
Lemma ring_meets_inner_on_soft_edge :
  alphaAt (innerCanvasOf (uniformImage 40 40 255) (mergeOptions emptyOptions))
          10 10 = 177 /\
  alphaAt (outerCanvasOf (uniformImage 40 40 255) (mergeOptions emptyOptions))
          10 10 = 255 /\
  alphaAt (ringCanvasOf (uniformImage 40 40 255) (mergeOptions emptyOptions))
          10 10 = 78.
Proof. repeat split; vm_compute; reflexivity. Qed.

(* ------------------------------------------------------------------ *)
(** * Running [createBorderMask] *)

(** The world after some console output: nothing else has changed. *)
Definition logWorld (entries : list LogEntry) (w : World) : World :=
  mkWorld (resources w) (randomPool w) (randomPos w) (entries ++ console w).

Lemma bind_run {A B} (m : M A) (k : A -> M B) (w : World) :
  bind m k w = match m w with
               | (Ok a, w') => k a w'
               | (Throw e, w') => (Throw e, w')
               end.
Proof. reflexivity. Qed.

Ltac run_bind :=
  rewrite bind_run; cbv [ret liftResult throw orThrow getContext];
  cbv beta iota.

Section RunMask.

Context {platform : Platform}.

(** What a call of [createBorderMask] comes to: a load failure, an
    [IndexSizeError] from the first [getImageData] on an image without
    extent, or the ring; the random stream is never consulted. *)
Lemma createBorderMask_run (imageUrl : string) (options : ContourBorderOptions)
    (w : World) :
  match resources w imageUrl with
  | None =>
      createBorderMask imageUrl options w = (Throw (Error "图片加载失败"), w)
  | Some img =>
      exists entries,
        createBorderMask imageUrl options w =
        (if (naturalWidth img =? 0) || (naturalHeight img =? 0)
         then Throw IndexSizeError
         else Ok (ringCanvasOf img (mergeOptions options)),
         logWorld entries w)
  end.
Proof.
  unfold createBorderMask. rewrite bind_run. unfold loadImage.
  destruct (resources w imageUrl) as [img|] eqn:Hres; [|reflexivity].
  cbv [bind console_log consoleWrite orThrow getContext ret liftResult
       resources randomPool randomPos console].
  unfold getImageData at 1.
  destruct ((naturalWidth img =? 0) || (naturalHeight img =? 0)) eqn:Ez.
  - assert (E : (Z.min 10 (naturalWidth img) =? 0)
                || (Z.min 10 (naturalHeight img) =? 0) = true).
    { apply orb_true_iff in Ez. apply orb_true_iff.
      rewrite !Z.eqb_eq in *. lia. }
    rewrite E. eexists [_; _; _; _]. unfold logWorld. reflexivity.
  - assert (E : (Z.min 10 (naturalWidth img) =? 0)
                || (Z.min 10 (naturalHeight img) =? 0) = false).
    { apply orb_false_iff in Ez. apply orb_false_iff.
      rewrite !Z.eqb_neq in *. lia. }
    rewrite E. unfold getImageData.
    assert (E2 : (Z.min 50 (canvasWidth img) =? 0)
                 || (Z.min 50 (canvasHeight img) =? 0) = false).
    { apply orb_false_iff in Ez. apply orb_false_iff.
      unfold canvasWidth, canvasHeight. rewrite !Z.eqb_neq in *. lia. }
    rewrite E2. eexists [_; _; _; _; _; _]. unfold logWorld. reflexivity.
Qed.

End RunMask.

(* ------------------------------------------------------------------ *)
(** * Reasoning about effectful code *)

(** [post m Q]: whenever [m] returns, its value satisfies [Q]. *)
Definition post {A} (m : M A) (Q : A -> Prop) : Prop :=
  forall w a w', m w = (Ok a, w') -> Q a.

(** [total m Q]: [m] returns, from every world, a value satisfying [Q]. *)
Definition total {A} (m : M A) (Q : A -> Prop) : Prop :=
  forall w, exists a w', m w = (Ok a, w') /\ Q a.

Lemma post_ret {A} (a : A) (Q : A -> Prop) : Q a -> post (ret a) Q.
Proof. intros H w a' w' E. inversion E. now subst. Qed.

Lemma post_throw {A} (e : JsError) (Q : A -> Prop) : post (throw e) Q.
Proof. intros w a w' E. discriminate E. Qed.

Lemma post_bind {A B} (m : M A) (k : A -> M B) (P : A -> Prop) (Q : B -> Prop) :
  post m P -> (forall a, P a -> post (k a) Q) -> post (bind m k) Q.
Proof.
  intros Hm Hk w b w' E. rewrite bind_run in E.
  destruct (m w) as [[a | e] w1] eqn:Em; [|discriminate E].
  eapply Hk; [eapply Hm; exact Em | exact E].
Qed.

Lemma post_bind_any {A B} (m : M A) (k : A -> M B) (Q : B -> Prop) :
  (forall a, post (k a) Q) -> post (bind m k) Q.
Proof.
  intros Hk. apply (post_bind m k (fun _ => True)); [|auto].
  intros w a w' _. exact I.
Qed.

Lemma post_liftResult {A} (r : Result A) (Q : A -> Prop) :
  (forall a, r = Ok a -> Q a) -> post (liftResult r) Q.
Proof. intros H w a w' E. inversion E. now apply H. Qed.

Lemma post_orThrow {A} (o : option A) (e : JsError) (Q : A -> Prop) :
  (forall a, o = Some a -> Q a) -> post (orThrow o e) Q.
Proof.
  intros H. destruct o; [apply post_ret; now apply H | apply post_throw].
Qed.

Lemma total_ret {A} (a : A) (Q : A -> Prop) : Q a -> total (ret a) Q.
Proof. intros H w. exists a, w. now split. Qed.

Lemma total_bind {A B} (m : M A) (k : A -> M B) (P : A -> Prop) (Q : B -> Prop) :
  total m P -> (forall a, P a -> total (k a) Q) -> total (bind m k) Q.
Proof.
  intros Hm Hk w. destruct (Hm w) as (a & w1 & Em & Ha).
  destruct (Hk a Ha w1) as (b & w2 & Ek & Hb).
  exists b, w2. split; [|exact Hb]. rewrite bind_run, Em. exact Ek.
Qed.

Lemma total_weaken {A} (m : M A) (P Q : A -> Prop) :
  total m P -> (forall a, P a -> Q a) -> total m Q.
Proof.
  intros Hm HPQ w. destruct (Hm w) as (a & w' & E & Ha).
  exists a, w'. auto.
Qed.

Lemma total_console (l : LogLevel) (vals : list LogVal) :
  total (consoleWrite l vals) (fun _ => True).
Proof. intros w. eexists _, _. split; [reflexivity | exact I]. Qed.

(** [Math.random()] returns a number in [0, 1). *)
Lemma total_Math_random : total Math_random (fun r => (0 <= r < 1)%Q).
Proof.
  intros w. eexists _, _. split; [reflexivity|].
  assert (H := Z.mod_pos_bound (randomPool w (randomPos w)) (Zpos two53) eq_refl).
  rewrite Qred_correct. unfold Qle, Qlt. simpl. lia.
Qed.

(** [random(min, max)] stays between its two arguments, whichever is
    the larger. *)
Lemma total_random (lo hi : Q) :
  total (random lo hi)
        (fun v => (Qmin lo hi <= v /\ v <= Qmax lo hi)%Q).
Proof.
  unfold random. eapply total_bind; [apply total_Math_random|].
  intros r [Hr0 Hr1]. apply total_ret.
  destruct (Qlt_le_dec hi lo) as [Hlt | Hle].
  - rewrite Q.min_r, Q.max_l by lra. split; nra.
  - rewrite Q.min_l, Q.max_r by lra. split; nra.
Qed.

(* ------------------------------------------------------------------ *)
(** * The stipple loop *)

(** What every turn of the loop keeps of the stencil: its size and the
    sign of its alpha channel. *)
Definition stencilInv (w h : Z) (sctx : Context2D) : Prop :=
  width (canvas sctx) = w /\ height (canvas sctx) = h /\
  forall x y, 0 <= alphaAt (canvas sctx) x y.

Lemma arc_ok (c c' : Context2D) (x y r a b : Q) :
  arc c x y r a b = Ok c' -> canvas c' = canvas c.
Proof.
  unfold arc. destruct (Qltb r 0); [discriminate|].
  intros E. inversion E. reflexivity.
Qed.

Lemma canvas_set_lineWidth (c : Context2D) (v : Q) :
  canvas (set_lineWidth c v) = canvas c.
Proof. unfold set_lineWidth. destruct (Qltb 0 v); reflexivity. Qed.

Lemma stencilInv_paint (w h : Z) (c : Context2D) layer :
  width (canvas c) = w -> height (canvas c) = h ->
  stencilInv w h (paint c layer).
Proof.
  intros Hw Hh. repeat split; try assumption.
  intros x y. apply alphaAt_paint_range.
Qed.

Lemma elementAt_random {A} (l : list A) (r : Q) :
  l <> [] -> (0 <= r < 1)%Q ->
  exists a, elementAt l (Math_floor (r * inject_Z (Z.of_nat (List.length l)))) = Some a.
Proof.
  intros Hl [Hr0 Hr1].
  assert (Hn : 0 < Z.of_nat (List.length l)) by (destruct l; [congruence | simpl; lia]).
  set (n := Z.of_nat (List.length l)) in *.
  assert (HnQ := inject_Z_pos _ Hn).
  set (i := Math_floor (r * inject_Z n)).
  assert (Hi0 : 0 <= i).
  { unfold i, Math_floor. rewrite <- (Qfloor_Z 0).
    apply Qfloor_resp_le. change (inject_Z 0) with 0%Q. nra. }
  assert (Hi1 : i < n).
  { unfold i, Math_floor. rewrite Zlt_Qlt.
    eapply Qle_lt_trans; [apply Qfloor_le|]. nra. }
  unfold elementAt. destruct (i <? 0) eqn:E; [apply Z.ltb_lt in E; lia|].
  destruct (nth_error l (Z.to_nat i)) as [a|] eqn:En; [eauto|].
  apply nth_error_None in En. unfold n in Hi1. lia.
Qed.

Section Stipple.

Context {platform : Platform}.

Lemma stippleStep_post (opts : Opts.t) (cr : list (Z * Z)) (s w h : Z)
    (sctx : Context2D) :
  stencilInv w h sctx ->
  post (stippleStep opts cr s w h sctx) (stencilInv w h).
Proof.
  intros (Hw & Hh & Ha). unfold stippleStep.
  apply post_bind_any; intros r0. apply post_bind_any; intros bp.
  apply post_bind_any; intros r1. apply post_bind_any; intros r2.
  cbv zeta.
  match goal with |- post (if ?b then _ else _) _ => destruct b end.
  { apply post_ret. repeat split; assumption. }
  apply post_bind_any; intros r3. apply post_bind_any; intros r4.
  apply post_bind_any; intros r5.
  match goal with |- post (if ?b then _ else _) _ => destruct b end.
  - apply post_bind_any; intros d.
    eapply post_bind.
    + apply post_liftResult. intros c Hc. exact (arc_ok _ _ _ _ _ _ _ Hc).
    + intros c Hc. apply post_ret. unfold fill.
      apply stencilInv_paint; rewrite Hc; assumption.
  - apply post_bind_any; intros len. apply post_bind_any; intros r6.
    apply post_bind_any; intros lw. apply post_ret. unfold stroke.
    apply stencilInv_paint; cbn [lineTo moveTo beginPath canvas];
      rewrite canvas_set_lineWidth; assumption.
Qed.

Lemma stippleLoop_post (n : nat) (opts : Opts.t) (cr : list (Z * Z))
    (s w h : Z) (sctx : Context2D) :
  stencilInv w h sctx ->
  post (stippleLoop n opts cr s w h sctx) (stencilInv w h).
Proof.
  revert sctx. induction n as [|n IH]; intros sctx Hinv; simpl.
  - now apply post_ret.
  - eapply post_bind; [apply stippleStep_post; exact Hinv | exact IH].
Qed.

(** With candidates to choose from and non-negative dot sizes, a turn of
    the loop throws nothing. *)
Lemma stippleStep_total (opts : Opts.t) (cr : list (Z * Z)) (s w h : Z)
    (sctx : Context2D) :
  cr <> [] ->
  (0 <= fst (Opts.dotSizeRange opts))%Q -> (0 <= snd (Opts.dotSizeRange opts))%Q ->
  total (stippleStep opts cr s w h sctx) (fun _ => True).
Proof.
  intros Hcr Hd0 Hd1. unfold stippleStep.
  assert (Hrand : total Math_random (fun _ => True))
    by (eapply total_weaken; [apply total_Math_random | auto]).
  eapply total_bind; [apply total_Math_random|]. intros r0 Hr0.
  apply (total_bind _ _ (fun _ => True)).
  { destruct (elementAt_random cr r0 Hcr Hr0) as [bp ->]. now apply total_ret. }
  intros bp _.
  apply (total_bind _ _ (fun _ => True)); [exact Hrand | intros r1 _].
  apply (total_bind _ _ (fun _ => True)); [exact Hrand | intros r2 _].
  cbv zeta.
  match goal with |- total (if ?b then _ else _) _ => destruct b end.
  { now apply total_ret. }
  apply (total_bind _ _ (fun _ => True)); [exact Hrand | intros r3 _].
  apply (total_bind _ _ (fun _ => True)); [exact Hrand | intros r4 _].
  apply (total_bind _ _ (fun _ => True)); [exact Hrand | intros r5 _].
  match goal with |- total (if ?b then _ else _) _ => destruct b end.
  - eapply total_bind; [apply total_random|]. intros d [Hd _].
    assert (Hd' : (0 <= d)%Q).
    { eapply Qle_trans; [|exact Hd]. apply Q.min_glb; assumption. }
    apply (total_bind _ _ (fun _ => True)); [|intros c _; now apply total_ret].
    unfold arc.
    assert (E : Qltb (d / 2) 0 = false).
    { destruct (Qltb (d / 2) 0) eqn:E; [|reflexivity].
      apply Qltb_true in E. exfalso.
      assert ((0 <= d / 2)%Q) by (apply Qle_shift_div_l; lra). lra. }
    rewrite E. intros wd. eexists _, _. split; [reflexivity | exact I].
  - apply (total_bind _ _ (fun _ => True));
      [eapply total_weaken; [apply total_random | auto] | intros len _].
    apply (total_bind _ _ (fun _ => True)); [exact Hrand | intros r6 _].
    apply (total_bind _ _ (fun _ => True));
      [eapply total_weaken; [apply total_random | auto] | intros lw _].
    now apply total_ret.
Qed.

Lemma stippleLoop_total (n : nat) (opts : Opts.t) (cr : list (Z * Z))
    (s w h : Z) (sctx : Context2D) :
  cr <> [] ->
  (0 <= fst (Opts.dotSizeRange opts))%Q -> (0 <= snd (Opts.dotSizeRange opts))%Q ->
  total (stippleLoop n opts cr s w h sctx) (fun _ => True).
Proof.
  intros Hcr Hd0 Hd1. revert sctx. induction n as [|n IH]; intros sctx; simpl.
  - now apply total_ret.
  - eapply total_bind; [now apply stippleStep_total | intros c _; apply IH].
Qed.

End Stipple.

(* ------------------------------------------------------------------ *)
(** * Running [applyHandDrawnEffect] *)

(** The candidate points the sampling loops collect on a canvas. *)
Definition contourRegionsOf (borderCanvas : Canvas) : list (Z * Z) :=
  let w := width borderCanvas in
  let h := height borderCanvas in
  match getImageData (freshContext borderCanvas) 0 0 w h with
  | Ok borderImageData =>
      collectContourRegions (data borderImageData) w h (sampleRateOf w h)
  | Throw _ => []
  end.

(** The number of primitives the stipple loop is run for. *)
Definition targetDensity (borderCanvas : Canvas) : Z :=
  densityOf (contourRegionsOf borderCanvas).

(** Step 4 of the function: the stencil applied by [destination-in]. *)
Definition applyStencil {platform : Platform} (borderCanvas stencil : Canvas)
  : Canvas :=
  let ctx := freshContext borderCanvas in
  let ctx := save ctx in
  let ctx := set_globalCompositeOperation ctx DestinationIn in
  let ctx := drawImage3 ctx (FromCanvas stencil) 0 0 in
  let ctx := restore ctx in
  canvas ctx.

Definition noRegionsWarning : LogEntry :=
  mkLog LevelWarn [LStr "未检测到轮廓环区域"].

Section RunStipple.

Context {platform : Platform}.

(** The stencil context as the loop receives it. *)
Definition stencilContext (borderCanvas : Canvas) : Context2D :=
  let w := width borderCanvas in
  let h := height borderCanvas in
  let sctx := freshContext (createCanvas w h) in
  let sctx := clearRect sctx 0 0 (inject_Z w) (inject_Z h) in
  let sctx := set_fillStyle sctx "#ffffff" in
  let sctx := set_strokeStyle sctx "#ffffff" in
  let sctx := set_lineCap sctx "round" in
  set_lineJoin sctx "round".

Lemma applyHandDrawnEffect_run (borderCanvas : Canvas)
    (options : ContourBorderOptions) (wd : World) :
  applyHandDrawnEffect borderCanvas options wd =
  if (width borderCanvas =? 0) || (height borderCanvas =? 0)
  then (Throw IndexSizeError, wd)
  else if (List.length (contourRegionsOf borderCanvas) =? 0)%nat
  then (Ok borderCanvas, logWorld [noRegionsWarning] wd)
  else
    match stippleLoop (Z.to_nat (targetDensity borderCanvas))
                      (mergeOptions options) (contourRegionsOf borderCanvas)
                      (sampleRateOf (width borderCanvas) (height borderCanvas))
                      (width borderCanvas) (height borderCanvas)
                      (stencilContext borderCanvas) wd with
    | (Ok sctx, wd') => (Ok (applyStencil borderCanvas (canvas sctx)), wd')
    | (Throw e, wd') => (Throw e, wd')
    end.
Proof.
  unfold applyHandDrawnEffect, targetDensity, contourRegionsOf.
  run_bind. run_bind. unfold getImageData.
  destruct ((width borderCanvas =? 0) || (height borderCanvas =? 0));
    run_bind; [reflexivity|].
  cbv zeta. cbn [data].
  match goal with
  | |- (if ?b then _ else _) _ = _ => destruct b
  end.
  - reflexivity.
  - rewrite bind_run. unfold stencilContext.
    match goal with
    | |- match ?run with _ => _ end = _ => destruct run as [[sctx | e] wd']
    end; reflexivity.
Qed.

End RunStipple.

Lemma canvas_restore (ctx : Context2D) : canvas (restore ctx) = canvas ctx.
Proof. unfold restore. destruct (saved ctx); reflexivity. Qed.

(** The alpha left by [destination-in]: the product of the two alphas. *)
Lemma alphaAt_applyStencil {platform : Platform}
    (borderCanvas stencil : Canvas) (x y : Z) :
  width stencil = width borderCanvas -> height stencil = height borderCanvas ->
  alphaAt (applyStencil borderCanvas stencil) x y =
  if inBounds (width borderCanvas) (height borderCanvas) x y
  then clampByte (mul255 (alphaAt borderCanvas x y) (alphaAt stencil x y))
  else 0.
Proof.
  intros Hw Hh. unfold applyStencil, alphaAt. cbv zeta.
  rewrite canvas_restore, pixelAt_drawImage3_same by assumption.
  cbn [canvas state save set_globalCompositeOperation withState freshContext
       globalCompositeOperation].
  destruct (inBounds (width borderCanvas) (height borderCanvas) x y);
    [|reflexivity].
  cbn [blend]. now rewrite alpha_storePixel.
Qed.

Section StippleClaims.

Context {platform : Platform}.

Lemma canvas_stencilContext (borderCanvas : Canvas) :
  canvas (stencilContext borderCanvas) =
  canvas (clearRect (freshContext (createCanvas (width borderCanvas)
                                                (height borderCanvas)))
                    0 0 (inject_Z (width borderCanvas))
                    (inject_Z (height borderCanvas))).
Proof.
  unfold stencilContext. cbv zeta.
  cbn [set_lineJoin set_lineCap withState canvas].
  now rewrite canvas_set_strokeStyle, canvas_set_fillStyle.
Qed.

Lemma stencilInv_initial (borderCanvas : Canvas) :
  stencilInv (width borderCanvas) (height borderCanvas)
             (stencilContext borderCanvas).
Proof.
  unfold stencilInv. rewrite canvas_stencilContext.
  repeat split. intros x y. unfold alphaAt. rewrite blank_cleared. simpl. lia.
Qed.

Lemma applyHandDrawnEffect_within (borderCanvas : Canvas)
    (options : ContourBorderOptions) :
  post (applyHandDrawnEffect borderCanvas options)
       (fun c => forall x y, opaqueAt c x y -> opaqueAt borderCanvas x y).
Proof.
  intros wd c wd' E x y Ho. rewrite applyHandDrawnEffect_run in E.
  destruct ((width borderCanvas =? 0) || (height borderCanvas =? 0));
    [discriminate E|].
  destruct (List.length (contourRegionsOf borderCanvas) =? 0)%nat.
  { inversion E; subst. exact Ho. }
  destruct (stippleLoop _ _ _ _ _ _ _ wd) as [[sctx | e] wd1] eqn:El;
    [|discriminate E].
  inversion E; subst. clear E.
  destruct (stippleLoop_post _ _ _ _ _ _ _ (stencilInv_initial borderCanvas)
                             _ _ _ El) as (Hw & Hh & Ha).
  unfold opaqueAt in *.
  rewrite alphaAt_applyStencil in Ho by assumption.
  destruct (inBounds _ _ x y); [|lia].
  rewrite clampByte_pos in Ho.
  apply mul255_pos in Ho; [tauto | apply Ha].
Qed.

Lemma applyHandDrawnEffect_size (borderCanvas : Canvas)
    (options : ContourBorderOptions) :
  post (applyHandDrawnEffect borderCanvas options)
       (fun c => width c = width borderCanvas /\ height c = height borderCanvas).
Proof.
  intros wd c wd' E. rewrite applyHandDrawnEffect_run in E.
  destruct ((width borderCanvas =? 0) || (height borderCanvas =? 0));
    [discriminate E|].
  destruct (List.length (contourRegionsOf borderCanvas) =? 0)%nat.
  { inversion E; subst. now split. }
  destruct (stippleLoop _ _ _ _ _ _ _ wd) as [[sctx | e] wd1] eqn:El;
    [|discriminate E].
  inversion E; subst. unfold applyStencil. cbv zeta.
  rewrite canvas_restore. unfold drawImage3, drawImage5.
  rewrite width_drawImage9, height_drawImage9. now split.
Qed.

Lemma applyHandDrawnEffect_total (borderCanvas : Canvas)
    (options : ContourBorderOptions) :
  0 < width borderCanvas -> 0 < height borderCanvas ->
  (0 <= fst (Opts.dotSizeRange (mergeOptions options)))%Q ->
  (0 <= snd (Opts.dotSizeRange (mergeOptions options)))%Q ->
  total (applyHandDrawnEffect borderCanvas options) (fun _ => True).
Proof.
  intros Hw Hh Hd0 Hd1 wd. rewrite applyHandDrawnEffect_run.
  assert (Ez : (width borderCanvas =? 0) || (height borderCanvas =? 0) = false).
  { apply orb_false_iff. rewrite !Z.eqb_neq. lia. }
  rewrite Ez.
  destruct (List.length (contourRegionsOf borderCanvas) =? 0)%nat eqn:En;
    [eauto|].
  assert (Hcr : contourRegionsOf borderCanvas <> []).
  { intros E. rewrite E in En. discriminate En. }
  destruct (stippleLoop_total (Z.to_nat (targetDensity borderCanvas))
              (mergeOptions options) (contourRegionsOf borderCanvas)
              (sampleRateOf (width borderCanvas) (height borderCanvas))
              (width borderCanvas) (height borderCanvas)
              (stencilContext borderCanvas) Hcr Hd0 Hd1 wd)
    as (sctx & wd' & El & _).
  rewrite El. eauto.
Qed.

End StippleClaims.

(* ------------------------------------------------------------------ *)
(** * C2: stipple marks stay inside the ring *)

(** C2.  Whatever the stipple pass draws, a pixel of the stippled ring
    has alpha > 0 only where the solid ring had: the [destination-in]
    intersection lets no mark out of the band.  And the pass does return
    the stippled ring, for every canvas with an extent and every
    config with non-negative dot sizes. *)
Theorem stipple_within_ring {platform : Platform} (borderCanvas : Canvas)
    (options : ContourBorderOptions) (wd : World) :
  (forall c wd',
     applyHandDrawnEffect borderCanvas options wd = (Ok c, wd') ->
     forall x y, opaqueAt c x y -> opaqueAt borderCanvas x y) /\
  (0 < width borderCanvas -> 0 < height borderCanvas ->
   (0 <= fst (Opts.dotSizeRange (mergeOptions options)))%Q ->
   (0 <= snd (Opts.dotSizeRange (mergeOptions options)))%Q ->
   exists c wd', applyHandDrawnEffect borderCanvas options wd = (Ok c, wd')).
Proof.
  split.
  - intros c wd' E. exact (applyHandDrawnEffect_within _ _ _ _ _ E).
  - intros Hw Hh Hd0 Hd1.
    destruct (applyHandDrawnEffect_total borderCanvas options Hw Hh Hd0 Hd1 wd)
      as (c & wd' & E & _).
    eauto.
Qed.

(** The ring of an opaque 40 x 40 image under the default options,
    stippled with [Math.random] stuck at 1/2: the pass returns, the mark
    at (72, 40) is kept and lies on the ring, (72, 30) is erased. *)
Lemma stipple_within_ring_witness :
  let img := uniformImage 40 40 255 in
  let ring := ringCanvasOf img (mergeOptions emptyOptions) in
  let wd := worldOf img halfPool in
  let stippled := valueOr ring (fst (applyHandDrawnEffect ring emptyOptions wd)) in
  (exists c wd', applyHandDrawnEffect ring emptyOptions wd = (Ok c, wd')) /\
  alphaAt stippled 72 40 = 255 /\ alphaAt stippled 72 30 = 0 /\
  opaqueAt ring 72 40.
Proof.
  intros img ring wd stippled.
  assert (Hrun : exists c wd', applyHandDrawnEffect ring emptyOptions wd = (Ok c, wd')).
  { apply (proj2 (stipple_within_ring ring emptyOptions wd)).
    - vm_compute. reflexivity.
    - vm_compute. reflexivity.
    - vm_compute. discriminate.
    - vm_compute. discriminate. }
  assert (H1 : alphaAt stippled 72 40 = 255) by (vm_compute; reflexivity).
  assert (H2 : alphaAt stippled 72 30 = 0) by (vm_compute; reflexivity).
  split; [exact Hrun | split; [exact H1 | split; [exact H2 |]]].
  destruct Hrun as (c & wd' & E).
  apply (proj1 (stipple_within_ring ring emptyOptions wd) c wd' E).
  unfold stippled in H1. rewrite E in H1. cbn [fst valueOr] in H1.
  unfold opaqueAt. rewrite H1. reflexivity.
Defined.

(* ------------------------------------------------------------------ *)
(** * C9: a ring the sampling grid misses *)

Lemma in_stepRange (limit step v : Z) :
  0 < step ->
  In v (stepRange limit step) <-> exists k, 0 <= k /\ v = k * step /\ v < limit.
Proof.
  intros Hs. unfold stepRange. rewrite in_map_iff.
  assert (Hceil : forall k, k < (limit + step - 1) / step <-> k * step < limit).
  { intros k. split; intros H.
    - assert ((k + 1) * step <= limit + step - 1); [|lia].
      assert (k + 1 <= (limit + step - 1) / step) by lia.
      transitivity (((limit + step - 1) / step) * step); [nia|].
      rewrite Z.mul_comm. apply Z.mul_div_le. lia.
    - assert (k + 1 <= (limit + step - 1) / step); [|lia].
      apply Z.div_le_lower_bound; lia. }
  split.
  - intros (n & <- & Hn). apply in_seq in Hn. exists (Z.of_nat n).
    repeat split; [lia|]. apply Hceil. lia.
  - intros (k & Hk & -> & Hlt). exists (Z.to_nat k).
    split; [f_equal; lia|]. apply in_seq. apply Hceil in Hlt. lia.
Qed.

(** The alpha byte of pixel (x, y) sits at index (y * w + x) * 4 + 3. *)
Lemma alpha_byte_index (w x y : Z) :
  0 <= x < w -> 0 <= y ->
  ((y * w + x) * 4 + 3) mod 4 = 3 /\
  (((y * w + x) * 4 + 3) / 4) mod w = x /\
  (((y * w + x) * 4 + 3) / 4) / w = y.
Proof.
  intros Hx Hy.
  assert (E4 : ((y * w + x) * 4 + 3) / 4 = y * w + x).
  { symmetry. apply (Z.div_unique _ 4 _ 3); lia. }
  rewrite E4. repeat split.
  - symmetry. apply (Z.mod_unique _ 4 (y * w + x) 3); lia.
  - symmetry. apply (Z.mod_unique _ w y x); lia.
  - symmetry. apply (Z.div_unique _ w y x); lia.
Qed.

Lemma channel_alpha (p : RGBA) : channel 3 p = alpha p.
Proof. reflexivity. Qed.

Lemma flat_map_nil {A B} (f : A -> list B) (l : list A) :
  (forall a, In a l -> f a = []) -> flat_map f l = [].
Proof.
  induction l as [|a l IH]; intros H; simpl; [reflexivity|].
  rewrite (H a (or_introl eq_refl)), IH; [reflexivity|].
  intros b Hb. apply H. now right.
Qed.

Lemma sampleRateOf_pos (w h : Z) : 0 < sampleRateOf w h.
Proof. unfold sampleRateOf. lia. Qed.

(** When no grid point is opaque, the sampling loops collect nothing. *)
Lemma contourRegionsOf_nil (borderCanvas : Canvas) :
  0 < width borderCanvas -> 0 < height borderCanvas ->
  (forall i j, 0 <= i -> 0 <= j ->
     let s := sampleRateOf (width borderCanvas) (height borderCanvas) in
     i * s < width borderCanvas -> j * s < height borderCanvas ->
     alphaAt borderCanvas (i * s) (j * s) <= 0) ->
  contourRegionsOf borderCanvas = [].
Proof.
  intros Hw Hh Hgrid. unfold contourRegionsOf. cbv zeta. unfold getImageData.
  assert (Ez : (width borderCanvas =? 0) || (height borderCanvas =? 0) = false).
  { apply orb_false_iff. rewrite !Z.eqb_neq. lia. }
  rewrite Ez. cbn [data]. unfold collectContourRegions.
  set (s := sampleRateOf (width borderCanvas) (height borderCanvas)) in *.
  assert (Hs : 0 < s) by apply sampleRateOf_pos.
  apply flat_map_nil. intros y Hy. apply flat_map_nil. intros x Hx.
  apply in_stepRange in Hy; [|exact Hs]. apply in_stepRange in Hx; [|exact Hs].
  destruct Hy as (j & Hj & -> & Hjh). destruct Hx as (i & Hi & -> & Hiw).
  assert (Hx0 : 0 <= i * s) by nia. assert (Hy0 : 0 <= j * s) by nia.
  destruct (alpha_byte_index (width borderCanvas) (i * s) (j * s))
    as (E1 & E2 & E3); [lia | lia |].
  cbv zeta.
  assert (Hin : (0 <=? (j * s * width borderCanvas + i * s) * 4 + 3)
                && ((j * s * width borderCanvas + i * s) * 4 + 3
                    <? Z.abs (width borderCanvas) * Z.abs (height borderCanvas) * 4)
                = true).
  { apply andb_true_iff. rewrite Z.leb_le, Z.ltb_lt.
    rewrite !Z.abs_eq by lia. split; nia. }
  rewrite Hin, E1, !Z.abs_eq, E2, E3 by lia.
  assert (El1 : (width borderCanvas <? 0) = false) by (apply Z.ltb_ge; lia).
  assert (El2 : (height borderCanvas <? 0) = false) by (apply Z.ltb_ge; lia).
  rewrite El1, El2, channel_alpha. cbn [freshContext canvas].
  rewrite !Z.add_0_l. fold (alphaAt borderCanvas (i * s) (j * s)).
  specialize (Hgrid i j Hi Hj Hiw Hjh).
  destruct (alphaAt borderCanvas (i * s) (j * s) >? 0) eqn:E; [|reflexivity].
  apply Z.gtb_lt in E. lia.
Qed.

(** C9.  When the coarse grid finds no pixel of alpha > 0, the function
    returns with [borderCanvas] exactly as it was, throws nothing, draws
    no random number and writes one warning to the console. *)
Theorem no_candidates_leaves_ring_unchanged {platform : Platform}
    (borderCanvas : Canvas) (options : ContourBorderOptions) (wd : World) :
  0 < width borderCanvas -> 0 < height borderCanvas ->
  (forall i j, 0 <= i -> 0 <= j ->
     let s := sampleRateOf (width borderCanvas) (height borderCanvas) in
     i * s < width borderCanvas -> j * s < height borderCanvas ->
     alphaAt borderCanvas (i * s) (j * s) <= 0) ->
  applyHandDrawnEffect borderCanvas options wd =
  (Ok borderCanvas, logWorld [noRegionsWarning] wd).
Proof.
  intros Hw Hh Hgrid. rewrite applyHandDrawnEffect_run.
  assert (Ez : (width borderCanvas =? 0) || (height borderCanvas =? 0) = false).
  { apply orb_false_iff. rewrite !Z.eqb_neq. lia. }
  rewrite Ez, (contourRegionsOf_nil borderCanvas Hw Hh Hgrid). reflexivity.
Qed.

(** An 8 x 8 canvas whose only opaque pixel, (1, 1), is off the grid of
    stride 4. *)
Definition offGridCanvas : Canvas :=
  mkCanvas 8 8 (fun x y => if (x =? 1) && (y =? 1)
                           then mkRGBA 255 255 255 255 else transparentBlack).

Lemma no_candidates_leaves_ring_unchanged_witness :
  opaqueAt offGridCanvas 1 1 /\
  applyHandDrawnEffect offGridCanvas emptyOptions
                       (worldOf (uniformImage 4 4 255) samplePool) =
  (Ok offGridCanvas,
   logWorld [noRegionsWarning] (worldOf (uniformImage 4 4 255) samplePool)).
Proof.
  split; [vm_compute; reflexivity|].
  apply (no_candidates_leaves_ring_unchanged offGridCanvas emptyOptions).
  - simpl. lia.
  - simpl. lia.
  - intros i j Hi Hj s. vm_compute in s. subst s. intros Hiw Hjh.
    unfold alphaAt, pixelAt, offGridCanvas; simpl.
    destruct (inBounds 8 8 (i * 4) (j * 4)); [|simpl; lia].
    assert (E : (i * 4 =? 1) = false) by (apply Z.eqb_neq; lia).
    rewrite E. simpl. lia.
Defined.

(* ------------------------------------------------------------------ *)
(** * C5: deterministic geometry, random stipple *)

(** C5.  [createBorderMask] consults no randomness: in two worlds that
    decode the URL alike it comes to the same result, whatever their
    random streams and consoles, and it leaves the random stream where
    it was.  The stipple pass does depend on the stream: there are two
    streams under which it leaves different rings. *)
Theorem geometry_deterministic_stipple_random :
  (forall (platform : Platform) (imageUrl : string)
          (options : ContourBorderOptions) (w1 w2 : World),
     resources w1 imageUrl = resources w2 imageUrl ->
     fst (createBorderMask imageUrl options w1)
     = fst (createBorderMask imageUrl options w2) /\
     randomPos (snd (createBorderMask imageUrl options w1)) = randomPos w1 /\
     randomPool (snd (createBorderMask imageUrl options w1)) = randomPool w1) /\
  (exists (platform : Platform) (ring : Canvas) (options : ContourBorderOptions)
          (w1 w2 : World) (x y : Z),
     resources w1 = resources w2 /\
     isOk (fst (applyHandDrawnEffect ring options w1)) = true /\
     isOk (fst (applyHandDrawnEffect ring options w2)) = true /\
     alphaAt (valueOr ring (fst (applyHandDrawnEffect ring options w1))) x y
     <> alphaAt (valueOr ring (fst (applyHandDrawnEffect ring options w2))) x y).
Proof.
  split.
  - intros platform imageUrl options w1 w2 Hres.
    assert (H1 := createBorderMask_run imageUrl options w1).
    assert (H2 := createBorderMask_run imageUrl options w2).
    rewrite <- Hres in H2.
    destruct (resources w1 imageUrl) as [img|].
    + destruct H1 as [e1 ->]. destruct H2 as [e2 ->]. repeat split.
    + rewrite H1, H2. repeat split.
  - exists refPlatform,
      (ringCanvasOf (uniformImage 40 40 255) (mergeOptions emptyOptions)),
      emptyOptions,
      (worldOf (uniformImage 40 40 255) zeroPool),
      (worldOf (uniformImage 40 40 255) halfPool), 72, 40.
    split; [reflexivity|].
    split; [vm_compute; reflexivity|].
    split; [vm_compute; reflexivity|].
    vm_compute. discriminate.
Qed.

(** Two worlds that serve the same image with different random streams
    and different consoles. *)
Lemma geometry_deterministic_stipple_random_witness :
  let w1 := worldOf (uniformImage 4 4 255) zeroPool in
  let w2 := logWorld [noRegionsWarning] (worldOf (uniformImage 4 4 255) halfPool) in
  resources w1 "cutout.png"%string = resources w2 "cutout.png"%string /\
  fst (createBorderMask "cutout.png" emptyOptions w1)
  = fst (createBorderMask "cutout.png" emptyOptions w2) /\
  isOk (fst (createBorderMask "cutout.png" emptyOptions w1)) = true.
Proof.
  intros w1 w2.
  assert (Hres : resources w1 "cutout.png"%string = resources w2 "cutout.png"%string)
    by reflexivity.
  split; [exact Hres | split].
  - exact (proj1 (proj1 geometry_deterministic_stipple_random
                    refPlatform "cutout.png"%string emptyOptions w1 w2 Hres)).
  - vm_compute. reflexivity.
Defined.

(* ------------------------------------------------------------------ *)
(** * The options the module reads *)

(** Agreement on the six fields that are read after the merge:
    [borderScale] and [spacing] are not among them. *)
Definition sameDrawing (o1 o2 : Opts.t) : Prop :=
  Opts.color o1 = Opts.color o2 /\
  Opts.gapPx o1 = Opts.gapPx o2 /\
  Opts.strokePx o1 = Opts.strokePx o2 /\
  Opts.lineLengthRange o1 = Opts.lineLengthRange o2 /\
  Opts.dotSizeRange o1 = Opts.dotSizeRange o2 /\
  Opts.jitterAmount o1 = Opts.jitterAmount o2.

Ltac same_fields H :=
  match type of H with
  | sameDrawing ?a ?b =>
      destruct a, b; unfold sameDrawing in H; cbn in H;
      destruct H as (? & ? & ? & ? & ? & ?); subst
  end.

Lemma bind_ext {A B} (m1 m2 : M A) (k1 k2 : A -> M B) (w : World) :
  m1 w = m2 w -> (forall a w', k1 a w' = k2 a w') ->
  bind m1 k1 w = bind m2 k2 w.
Proof.
  intros Hm Hk. rewrite !bind_run, Hm.
  destruct (m2 w) as [[a | e] w']; [apply Hk | reflexivity].
Qed.

Lemma tryCatch_ext {A} (b1 b2 : M A) (h : JsError -> M A) (w : World) :
  b1 w = b2 w -> tryCatch b1 h w = tryCatch b2 h w.
Proof. unfold tryCatch. now intros ->. Qed.

Section Options.

Context {platform : Platform}.

Lemma ringCanvasOf_used (img : HTMLImage) (o1 o2 : Opts.t) :
  sameDrawing o1 o2 -> ringCanvasOf img o1 = ringCanvasOf img o2.
Proof. intros H. same_fields H. reflexivity. Qed.

Lemma createBorderMask_used (imageUrl : string)
    (options1 options2 : ContourBorderOptions) (w : World) :
  sameDrawing (mergeOptions options1) (mergeOptions options2) ->
  createBorderMask imageUrl options1 w = createBorderMask imageUrl options2 w.
Proof.
  intros H. unfold createBorderMask.
  remember (mergeOptions options1) as m1 eqn:E1.
  remember (mergeOptions options2) as m2 eqn:E2.
  clear E1 E2. same_fields H. reflexivity.
Qed.

Lemma stippleStep_used (o1 o2 : Opts.t) (cr : list (Z * Z)) (s w h : Z)
    (sctx : Context2D) :
  sameDrawing o1 o2 ->
  stippleStep o1 cr s w h sctx = stippleStep o2 cr s w h sctx.
Proof. intros H. same_fields H. reflexivity. Qed.

Lemma stippleLoop_used (n : nat) (o1 o2 : Opts.t) (cr : list (Z * Z))
    (s w h : Z) (sctx : Context2D) (wd : World) :
  sameDrawing o1 o2 ->
  stippleLoop n o1 cr s w h sctx wd = stippleLoop n o2 cr s w h sctx wd.
Proof.
  intros H. revert sctx wd. induction n as [|n IH]; intros sctx wd; simpl.
  - reflexivity.
  - apply bind_ext; [now rewrite (stippleStep_used o1 o2) | exact IH].
Qed.

Lemma applyHandDrawnEffect_used (borderCanvas : Canvas)
    (options1 options2 : ContourBorderOptions) (wd : World) :
  sameDrawing (mergeOptions options1) (mergeOptions options2) ->
  applyHandDrawnEffect borderCanvas options1 wd
  = applyHandDrawnEffect borderCanvas options2 wd.
Proof.
  intros H. rewrite !applyHandDrawnEffect_run.
  now rewrite (stippleLoop_used _ _ _ _ _ _ _ _ _ H).
Qed.

Lemma applyContourBorder_used (imageUrl : string)
    (options1 options2 : ContourBorderOptions) (w : World) :
  sameDrawing (mergeOptions options1) (mergeOptions options2) ->
  applyContourBorder imageUrl options1 w = applyContourBorder imageUrl options2 w.
Proof.
  intros H. unfold applyContourBorder.
  apply bind_ext; [reflexivity | intros img w1].
  apply bind_ext; [|reflexivity].
  apply tryCatch_ext. cbv zeta.
  apply bind_ext; [reflexivity | intros _ w2].
  apply bind_ext; [now apply createBorderMask_used | intros ring w3].
  apply bind_ext; [reflexivity | intros _ w4].
  apply bind_ext; [now apply applyHandDrawnEffect_used | reflexivity].
Qed.

End Options.

(* ------------------------------------------------------------------ *)
(** * Running [applyContourBorder] *)

Section RunBorder.

Context {platform : Platform}.

(** For a decodable image with an extent and non-negative dot sizes the
    call resolves, with a raster twice the image in each direction. *)
Lemma applyContourBorder_returns (imageUrl : string)
    (options : ContourBorderOptions) (w : World) (img : HTMLImage) :
  resources w imageUrl = Some img ->
  0 < naturalWidth img -> 0 < naturalHeight img ->
  (0 <= fst (Opts.dotSizeRange (mergeOptions options)))%Q ->
  (0 <= snd (Opts.dotSizeRange (mergeOptions options)))%Q ->
  exists c w',
    applyContourBorder imageUrl options w = (Ok (PNG c), w') /\
    width c = naturalWidth img * 2 /\ height c = naturalHeight img * 2.
Proof.
  intros Hres HW HH Hd0 Hd1. unfold applyContourBorder.
  rewrite bind_run. unfold loadImage at 1. rewrite Hres.
  rewrite bind_run. unfold tryCatch. cbv zeta.
  rewrite bind_run. unfold console_log at 1, consoleWrite at 1.
  rewrite bind_run.
  match goal with |- context [createBorderMask imageUrl options ?w1] =>
    assert (Hm := createBorderMask_run imageUrl options w1) end.
  cbn [resources] in Hm. rewrite Hres in Hm. destruct Hm as [entries Hm].
  assert (Ez : (naturalWidth img =? 0) || (naturalHeight img =? 0) = false).
  { apply orb_false_iff. rewrite !Z.eqb_neq. lia. }
  rewrite Ez in Hm. rewrite Hm.
  rewrite bind_run. unfold console_log at 1, consoleWrite at 1.
  rewrite bind_run.
  set (ring := ringCanvasOf img (mergeOptions options)).
  assert (Hrw : 0 < width ring)
    by (unfold ring; rewrite width_ring; unfold canvasWidth; lia).
  assert (Hrh : 0 < height ring)
    by (unfold ring; rewrite height_ring; unfold canvasHeight; lia).
  match goal with |- context [applyHandDrawnEffect ring options ?w3] =>
    destruct (applyHandDrawnEffect_total ring options Hrw Hrh Hd0 Hd1 w3)
      as (c & w4 & E & _) end.
  rewrite E. cbv [getContext]. rewrite bind_run.
  unfold console_log, consoleWrite. cbv [ret liftResult].
  eexists _, _. split; [reflexivity|].
  unfold drawImage3, drawImage5.
  rewrite !width_drawImage9, !height_drawImage9. split; reflexivity.
Qed.

End RunBorder.

(* ------------------------------------------------------------------ *)
(** * C4: the fixed 2x working canvas *)

(** The ring of a 10 x 10 opaque image under the default options, pixel
    by pixel: nothing is left of it, with smoothing and without. *)
Lemma small_ring_empty (x y : Z) :
  alphaAt (ringCanvasOf (platform := refPlatform) (uniformImage 10 10 255)
             (mergeOptions emptyOptions)) x y = 0 /\
  alphaAt (ringCanvasOf (platform := crispPlatform) (uniformImage 10 10 255)
             (mergeOptions emptyOptions)) x y = 0.
Proof.
  destruct (inBounds 20 20 x y) eqn:Eb.
  - assert (Hall : forallb (fun x => forallb (fun y =>
               (alphaAt (ringCanvasOf (platform := refPlatform)
                           (uniformImage 10 10 255)
                           (mergeOptions emptyOptions)) x y =? 0)
               && (alphaAt (ringCanvasOf (platform := crispPlatform)
                              (uniformImage 10 10 255)
                              (mergeOptions emptyOptions)) x y =? 0))
               (zrange 20)) (zrange 20)
             = true) by (vm_compute; reflexivity).
    apply inBounds_true in Eb. rewrite forallb_forall in Hall.
    specialize (Hall x (proj2 (in_zrange 20 x) (proj1 Eb))).
    rewrite forallb_forall in Hall.
    specialize (Hall y (proj2 (in_zrange 20 y) (proj2 Eb))).
    apply andb_true_iff in Hall. now rewrite !Z.eqb_eq in Hall.
  - unfold alphaAt. rewrite !pixelAt_outside; [split; reflexivity | |];
      rewrite width_ring, height_ring; exact Eb.
Qed.

(** C4 at a 10 x 10 opaque image under the default options (gap 10,
    stroke 5).  The call returns a 20 x 20 raster, less than the 40 x 40
    the outer silhouette spans: its rectangle starts at -10.  Both
    silhouettes are cut to the whole canvas, and the ring between them
    is empty. *)
Theorem small_image_border_clipped :
  let img := uniformImage 10 10 255 in
  let opts := mergeOptions emptyOptions in
  (exists c w',
     applyContourBorder "cutout.png" emptyOptions (worldOf img samplePool)
     = (Ok (PNG c), w') /\ width c = 20 /\ height c = 20) /\
  (inject_Z (naturalWidth img) + 2 * (Opts.gapPx opts + Opts.strokePx opts) == 40)%Q /\
  (outerX img opts == -10)%Q /\ (outerWidth img opts == 40)%Q /\
  (forall x y, alphaAt (ringCanvasOf img opts) x y = 0).
Proof.
  intros img opts. split; [|split; [|split; [|split]]].
  - assert (Hres : resources (worldOf img samplePool) "cutout.png"%string = Some img)
      by reflexivity.
    assert (HW : 0 < naturalWidth img) by reflexivity.
    assert (HH : 0 < naturalHeight img) by reflexivity.
    assert (Hd0 : (0 <= fst (Opts.dotSizeRange (mergeOptions emptyOptions)))%Q)
      by (cbn; discriminate).
    assert (Hd1 : (0 <= snd (Opts.dotSizeRange (mergeOptions emptyOptions)))%Q)
      by (cbn; discriminate).
    destruct (applyContourBorder_returns "cutout.png" emptyOptions
                (worldOf img samplePool) img Hres HW HH Hd0 Hd1)
      as (c & w' & E & Hw & Hh).
    exists c, w'. repeat split; assumption.
  - vm_compute. reflexivity.
  - vm_compute. reflexivity.
  - vm_compute. reflexivity.
  - intros x y. exact (proj1 (small_ring_empty x y)).
Qed.

(* ------------------------------------------------------------------ *)
(** * C6: the [spacing] field *)

Definition differOnlyInSpacing (o1 o2 : ContourBorderOptions) : Prop :=
  color o1 = color o2 /\ borderScale o1 = borderScale o2 /\
  gapPx o1 = gapPx o2 /\ strokePx o1 = strokePx o2 /\
  lineLengthRange o1 = lineLengthRange o2 /\
  dotSizeRange o1 = dotSizeRange o2 /\
  jitterAmount o1 = jitterAmount o2.

Lemma differOnlyInSpacing_same (o1 o2 : ContourBorderOptions) :
  differOnlyInSpacing o1 o2 -> sameDrawing (mergeOptions o1) (mergeOptions o2).
Proof.
  destruct o1, o2. unfold differOnlyInSpacing, sameDrawing. cbn.
  intros (? & ? & ? & ? & ? & ? & ?). subst. repeat split.
Qed.

(** C6.  The interface documents [spacing] as the spacing of dots and
    lines, and the defaults give it a value, but the code never reads
    it after the merge.  The number of primitives the loop is run for
    is max(500, floor(0.3 x candidates)), a function of the ring alone,
    and two configs that differ only in [spacing] give the same ring,
    the same target count and, on the same random stream, the same
    stippled ring. *)
Theorem spacing_never_read {platform : Platform} (o1 o2 : ContourBorderOptions) :
  differOnlyInSpacing o1 o2 ->
  (forall img,
     ringCanvasOf img (mergeOptions o1) = ringCanvasOf img (mergeOptions o2) /\
     targetDensity (ringCanvasOf img (mergeOptions o1))
     = targetDensity (ringCanvasOf img (mergeOptions o2))) /\
  (forall ring,
     targetDensity ring =
     Z.max 500 (Math_floor (inject_Z (Z.of_nat (List.length (contourRegionsOf ring)))
                            * (3 # 10)))) /\
  (forall ring wd,
     applyHandDrawnEffect ring o1 wd = applyHandDrawnEffect ring o2 wd) /\
  (forall imageUrl w,
     applyContourBorder imageUrl o1 w = applyContourBorder imageUrl o2 w).
Proof.
  intros H. apply differOnlyInSpacing_same in H.
  split; [|split; [|split]].
  - intros img. rewrite (ringCanvasOf_used img _ _ H). split; reflexivity.
  - intros ring. reflexivity.
  - intros ring wd. now apply applyHandDrawnEffect_used.
  - intros imageUrl w. now apply applyContourBorder_used.
Qed.

Definition withSpacing (v : Q) : ContourBorderOptions :=
  mkOptions None None None None None None (Some v) None.

Lemma spacing_never_read_witness :
  differOnlyInSpacing (withSpacing 12) (withSpacing 1) /\
  targetDensity (ringCanvasOf (uniformImage 40 40 255)
                              (mergeOptions (withSpacing 12))) = 500 /\
  targetDensity (ringCanvasOf (uniformImage 40 40 255)
                              (mergeOptions (withSpacing 1))) = 500.
Proof.
  assert (Hd : differOnlyInSpacing (withSpacing 12) (withSpacing 1))
    by (repeat split).
  assert (H12 : targetDensity (ringCanvasOf (uniformImage 40 40 255)
                                 (mergeOptions (withSpacing 12))) = 500)
    by (vm_compute; reflexivity).
  split; [exact Hd | split; [exact H12 |]].
  rewrite <- (proj2 (proj1 (spacing_never_read (withSpacing 12) (withSpacing 1) Hd)
                           (uniformImage 40 40 255))).
  exact H12.
Defined.

(** So the density C6 describes is not there: no image and no two
    configs that differ only in [spacing] give different target
    counts. *)
Lemma spacing_controls_density_counterexample :
  ~ (exists (platform : Platform) (img : HTMLImage)
            (o1 o2 : ContourBorderOptions),
       differOnlyInSpacing o1 o2 /\
       targetDensity (ringCanvasOf img (mergeOptions o1))
       <> targetDensity (ringCanvasOf img (mergeOptions o2))).
Proof.
  intros (platform & img & o1 & o2 & Hd & Hne). apply Hne.
  now rewrite (ringCanvasOf_used img _ _ (differOnlyInSpacing_same _ _ Hd)).
Qed.

(* ------------------------------------------------------------------ *)
(** * C7: ranges with min > max *)

(** C7 (as amended).  No range is validated.  [random(min, max)] with
    [min > max] returns a number between [max] and [min], and the call
    returns an image for every decodable source with an extent and
    every config whose dot sizes are non-negative, whatever the order
    within its ranges. *)
Theorem inverted_ranges_accepted {platform : Platform} (imageUrl : string)
    (options : ContourBorderOptions) (w : World) (img : HTMLImage) :
  resources w imageUrl = Some img ->
  0 < naturalWidth img -> 0 < naturalHeight img ->
  (0 <= fst (Opts.dotSizeRange (mergeOptions options)))%Q ->
  (0 <= snd (Opts.dotSizeRange (mergeOptions options)))%Q ->
  (exists c w', applyContourBorder imageUrl options w = (Ok (PNG c), w')) /\
  (forall min max wd, (max < min)%Q ->
     exists v wd', random min max wd = (Ok v, wd') /\ (max <= v <= min)%Q).
Proof.
  intros Hres HW HH Hd0 Hd1. split.
  - destruct (applyContourBorder_returns imageUrl options w img Hres HW HH Hd0 Hd1)
      as (c & w' & E & _).
    eauto.
  - intros lo hi wd Hinv.
    destruct (total_random lo hi wd) as (v & wd' & E & Hv).
    exists v, wd'. split; [exact E|].
    rewrite Q.min_r, Q.max_l in Hv by lra. exact Hv.
Qed.

(** Both ranges inverted. *)
Definition invertedRanges : ContourBorderOptions :=
  mkOptions None None None None (Some (40, 20)%Q) (Some (5, 3)%Q) None None.

Lemma inverted_ranges_accepted_witness :
  exists c w',
    applyContourBorder "cutout.png" invertedRanges
                       (worldOf (uniformImage 4 4 255) samplePool)
    = (Ok (PNG c), w').
Proof.
  apply (inverted_ranges_accepted "cutout.png" invertedRanges
           (worldOf (uniformImage 4 4 255) samplePool) (uniformImage 4 4 255)).
  - reflexivity.
  - reflexivity.
  - reflexivity.
  - cbn. discriminate.
  - cbn. discriminate.
Defined.

(** C7 as stated fails: with both ranges inverted the call does not fail. *)
Lemma inverted_ranges_counterexample :
  ~ (forall (platform : Platform) (imageUrl : string)
            (options : ContourBorderOptions) (w : World),
       let opts := mergeOptions options in
       (snd (Opts.lineLengthRange opts) < fst (Opts.lineLengthRange opts))%Q \/
       (snd (Opts.dotSizeRange opts) < fst (Opts.dotSizeRange opts))%Q ->
       exists e w', applyContourBorder imageUrl options w = (Throw e, w')).
Proof.
  intros H.
  destruct (H refPlatform "cutout.png"%string invertedRanges
              (worldOf (uniformImage 4 4 255) samplePool)) as (e & w' & E).
  { left. vm_compute. reflexivity. }
  assert (Hd0 : (0 <= fst (Opts.dotSizeRange (mergeOptions invertedRanges)))%Q)
    by (cbn; discriminate).
  assert (Hd1 : (0 <= snd (Opts.dotSizeRange (mergeOptions invertedRanges)))%Q)
    by (cbn; discriminate).
  destruct (applyContourBorder_returns "cutout.png" invertedRanges
              (worldOf (uniformImage 4 4 255) samplePool) (uniformImage 4 4 255)
              eq_refl eq_refl eq_refl Hd0 Hd1)
    as (c & w'' & E' & _).
  rewrite E in E'. discriminate E'.
Qed.

(* ------------------------------------------------------------------ *)
(** * C8: the empty config and the documented defaults *)



(** ** A pixel of the default ring

    Whether the ring is empty depends on the image.  For an image
    without transparency, at least 22 pixels wide, the pixel in the
    column next to the inner rectangle on its left, just above the
    centre line, belongs to the ring: the outer silhouette reaches it
    through two enlargements, each of which passes on at least a quarter
    of the alpha of the pixel it samples. *)

Section Presence.

Context {platform : Platform}.








End Presence.




(* ------------------------------------------------------------------ *)
(** * C10: the deprecated [borderScale] field *)

Definition differOnlyInBorderScale (o1 o2 : ContourBorderOptions) : Prop :=
  color o1 = color o2 /\ gapPx o1 = gapPx o2 /\ strokePx o1 = strokePx o2 /\
  lineLengthRange o1 = lineLengthRange o2 /\
  dotSizeRange o1 = dotSizeRange o2 /\
  spacing o1 = spacing o2 /\ jitterAmount o1 = jitterAmount o2.

Lemma differOnlyInBorderScale_same (o1 o2 : ContourBorderOptions) :
  differOnlyInBorderScale o1 o2 ->
  sameDrawing (mergeOptions o1) (mergeOptions o2).
Proof.
  destruct o1, o2. unfold differOnlyInBorderScale, sameDrawing. cbn.
  intros (? & ? & ? & ? & ? & ? & ?). subst. repeat split.
Qed.

(** C10.  Two configs that differ only in [borderScale] give the same
    ring from [createBorderMask], the same console output included, and
    the same stippled ring and final raster on every random stream: the
    field is never read after the merge. *)
Theorem borderScale_never_read {platform : Platform}
    (o1 o2 : ContourBorderOptions) :
  differOnlyInBorderScale o1 o2 ->
  (forall imageUrl w,
     createBorderMask imageUrl o1 w = createBorderMask imageUrl o2 w) /\
  (forall img,
     ringCanvasOf img (mergeOptions o1) = ringCanvasOf img (mergeOptions o2)) /\
  (forall ring wd,
     applyHandDrawnEffect ring o1 wd = applyHandDrawnEffect ring o2 wd) /\
  (forall imageUrl w,
     applyContourBorder imageUrl o1 w = applyContourBorder imageUrl o2 w).
Proof.
  intros H. apply differOnlyInBorderScale_same in H.
  split; [|split; [|split]].
  - intros imageUrl w. now apply createBorderMask_used.
  - intros img. now apply ringCanvasOf_used.
  - intros ring wd. now apply applyHandDrawnEffect_used.
  - intros imageUrl w. now apply applyContourBorder_used.
Qed.

Definition withBorderScale (v : Q) : ContourBorderOptions :=
  mkOptions None (Some v) None None None None None None.

Lemma borderScale_never_read_witness :
  differOnlyInBorderScale (withBorderScale (53 # 50)) (withBorderScale 3) /\
  Opts.borderScale (mergeOptions (withBorderScale (53 # 50)))
  <> Opts.borderScale (mergeOptions (withBorderScale 3)) /\
  forall w,
    createBorderMask "cutout.png" (withBorderScale (53 # 50)) w
    = createBorderMask "cutout.png" (withBorderScale 3) w.
Proof.
  assert (Hd : differOnlyInBorderScale (withBorderScale (53 # 50)) (withBorderScale 3))
    by (repeat split).
  split; [exact Hd | split; [discriminate |]].
  intros w.
  exact (proj1 (borderScale_never_read (withBorderScale (53 # 50))
                  (withBorderScale 3) Hd) "cutout.png"%string w).
Defined.


(* ------------------------------------------------------------------ *)
(** * Further properties of the module *)

(** ** [random] *)



(** ** The sampling grid *)

Lemma flat_map_ext_in {A B} (f g : A -> list B) (l : list A) :
  (forall a, In a l -> f a = g a) -> flat_map f l = flat_map g l.
Proof.
  induction l as [|a l IH]; intros H; simpl; [reflexivity|].
  rewrite (H a (or_introl eq_refl)), IH; [reflexivity|].
  intros b Hb. apply H. now right.
Qed.

(** The sampling loops, read on the canvas instead of its bytes. *)
Lemma contourRegionsOf_grid (borderCanvas : Canvas) :
  0 < width borderCanvas -> 0 < height borderCanvas ->
  let s := sampleRateOf (width borderCanvas) (height borderCanvas) in
  contourRegionsOf borderCanvas =
  flat_map (fun y =>
    flat_map (fun x => if alphaAt borderCanvas x y >? 0 then [(x, y)] else [])
             (stepRange (width borderCanvas) s))
    (stepRange (height borderCanvas) s).
Proof.
  intros Hw Hh s. unfold contourRegionsOf. cbv zeta. unfold getImageData.
  assert (Ez : (width borderCanvas =? 0) || (height borderCanvas =? 0) = false).
  { apply orb_false_iff. rewrite !Z.eqb_neq. lia. }
  rewrite Ez. cbn [data]. unfold collectContourRegions. fold s.
  assert (Hs : 0 < s) by apply sampleRateOf_pos.
  apply flat_map_ext_in. intros y Hy. apply flat_map_ext_in. intros x Hx.
  apply in_stepRange in Hy; [|exact Hs]. apply in_stepRange in Hx; [|exact Hs].
  destruct Hy as (j & Hj & -> & Hjh). destruct Hx as (i & Hi & -> & Hiw).
  assert (Hx0 : 0 <= i * s) by nia. assert (Hy0 : 0 <= j * s) by nia.
  destruct (alpha_byte_index (width borderCanvas) (i * s) (j * s))
    as (E1 & E2 & E3); [lia | lia |].
  cbv zeta.
  assert (Hin : (0 <=? (j * s * width borderCanvas + i * s) * 4 + 3)
                && ((j * s * width borderCanvas + i * s) * 4 + 3
                    <? Z.abs (width borderCanvas) * Z.abs (height borderCanvas) * 4)
                = true).
  { apply andb_true_iff. rewrite Z.leb_le, Z.ltb_lt.
    rewrite !Z.abs_eq by lia. split; nia. }
  rewrite Hin, E1, !Z.abs_eq, E2, E3 by lia.
  assert (El1 : (width borderCanvas <? 0) = false) by (apply Z.ltb_ge; lia).
  assert (El2 : (height borderCanvas <? 0) = false) by (apply Z.ltb_ge; lia).
  rewrite El1, El2, channel_alpha. cbn [freshContext canvas].
  rewrite !Z.add_0_l. reflexivity.
Qed.

(** The candidate points are exactly the opaque pixels of the canvas
    whose two coordinates are multiples of the sampling stride. *)
Theorem candidates_are_opaque_grid_points (borderCanvas : Canvas) (x y : Z) :
  0 < width borderCanvas -> 0 < height borderCanvas ->
  let s := sampleRateOf (width borderCanvas) (height borderCanvas) in
  In (x, y) (contourRegionsOf borderCanvas) <->
  (exists i j, 0 <= i /\ 0 <= j /\ x = i * s /\ y = j * s) /\
  x < width borderCanvas /\ y < height borderCanvas /\
  opaqueAt borderCanvas x y.
Proof.
  intros Hw Hh s. rewrite (contourRegionsOf_grid borderCanvas Hw Hh). fold s.
  assert (Hs : 0 < s) by apply sampleRateOf_pos.
  rewrite in_flat_map. split.
  - intros (y' & Hy & Hin). apply in_flat_map in Hin.
    destruct Hin as (x' & Hx & Hin).
    destruct (alphaAt borderCanvas x' y' >? 0) eqn:E; [|contradiction].
    destruct Hin as [Hin | []]. inversion Hin; subst x' y'.
    apply in_stepRange in Hy; [|exact Hs]. apply in_stepRange in Hx; [|exact Hs].
    destruct Hy as (j & Hj & Ey & Hjh). destruct Hx as (i & Hi & Ex & Hiw).
    repeat split; try assumption.
    + exists i, j. repeat split; assumption.
    + unfold opaqueAt. apply Z.gtb_lt in E. lia.
  - intros ((i & j & Hi & Hj & Ex & Ey) & Hxw & Hyh & Ho).
    exists y. split.
    + apply in_stepRange; [exact Hs|]. exists j. repeat split; assumption.
    + apply in_flat_map. exists x. split.
      * apply in_stepRange; [exact Hs|]. exists i. repeat split; assumption.
      * unfold opaqueAt in Ho.
        assert (E : (alphaAt borderCanvas x y >? 0) = true) by (apply Z.gtb_lt; lia).
        rewrite E. now left.
Qed.

(** A 9 x 9 canvas opaque everywhere: stride 4, candidate at (4, 8). *)
Lemma candidates_are_opaque_grid_points_witness :
  In (4, 8) (contourRegionsOf (mkCanvas 9 9 (fun _ _ => mkRGBA 0 0 0 255))).
Proof.
  apply (proj2 (candidates_are_opaque_grid_points
                  (mkCanvas 9 9 (fun _ _ => mkRGBA 0 0 0 255)) 4 8
                  eq_refl eq_refl)).
  repeat split.
  exists 1, 2. repeat split; lia.
Defined.

(** ** How [applyContourBorder] settles *)

(** Step 3 of [applyContourBorder]: the source image centred on a fresh
    working canvas, the border layer drawn over it. *)
Definition composeFinal {platform : Platform} (img : HTMLImage)
    (borderCanvas : Canvas) : Canvas :=
  canvas (drawImage3 (paintMask (workingContext img) img)
                     (FromCanvas borderCanvas) 0 0).

Section Settles.

Context {platform : Platform}.

(** A resolved call went through both passes and the composition. *)
Lemma applyContourBorder_result (imageUrl : string)
    (options : ContourBorderOptions) (w w' : World) (c : Canvas) :
  applyContourBorder imageUrl options w = (Ok (PNG c), w') ->
  exists img border w1 w2,
    resources w imageUrl = Some img /\
    applyHandDrawnEffect (ringCanvasOf img (mergeOptions options)) options w1
    = (Ok border, w2) /\
    c = composeFinal img border.
Proof.
  unfold applyContourBorder. rewrite bind_run. unfold loadImage at 1.
  destruct (resources w imageUrl) as [img|] eqn:Hres; [|discriminate].
  rewrite bind_run. unfold tryCatch. cbv zeta.
  rewrite bind_run. unfold console_log at 1, consoleWrite at 1.
  rewrite bind_run.
  match goal with |- context [createBorderMask imageUrl options ?w1] =>
    assert (Hm := createBorderMask_run imageUrl options w1) end.
  cbn [resources] in Hm. rewrite Hres in Hm. destruct Hm as [entries Hm].
  rewrite Hm.
  destruct ((naturalWidth img =? 0) || (naturalHeight img =? 0)).
  { unfold console_error, consoleWrite. rewrite bind_run. cbv [ret liftResult].
    discriminate. }
  rewrite bind_run. unfold console_log at 1, consoleWrite at 1.
  rewrite bind_run.
  match goal with |- context [applyHandDrawnEffect ?r options ?w3] =>
    destruct (applyHandDrawnEffect r options w3) as [[border | e] w4] eqn:E end.
  - cbv [getContext]. rewrite bind_run.
    unfold console_log, consoleWrite. cbv [ret liftResult].
    intros H. inversion H. subst.
    exists img, border. eexists _, _. split; [reflexivity|]. split; [exact E|].
    reflexivity.
  - unfold console_error, consoleWrite. rewrite bind_run. cbv [ret liftResult].
    discriminate.
Qed.

Lemma size_composeFinal (img : HTMLImage) (borderCanvas : Canvas) :
  width (composeFinal img borderCanvas) = naturalWidth img * 2 /\
  height (composeFinal img borderCanvas) = naturalHeight img * 2.
Proof.
  unfold composeFinal, drawImage3, drawImage5, paintMask, drawImage5.
  rewrite !width_drawImage9, !height_drawImage9. split; reflexivity.
Qed.

(** Whenever the call resolves, the raster is exactly twice the decoded
    image in each direction, whatever the gap and the stroke; and it
    does resolve for an image with an extent and non-negative dot
    sizes. *)
Theorem returned_raster_is_twice_the_image (imageUrl : string)
    (options : ContourBorderOptions) (w : World) (img : HTMLImage) :
  resources w imageUrl = Some img ->
  (forall c w', applyContourBorder imageUrl options w = (Ok (PNG c), w') ->
     width c = naturalWidth img * 2 /\ height c = naturalHeight img * 2) /\
  (0 < naturalWidth img -> 0 < naturalHeight img ->
   (0 <= fst (Opts.dotSizeRange (mergeOptions options)))%Q ->
   (0 <= snd (Opts.dotSizeRange (mergeOptions options)))%Q ->
   exists c w', applyContourBorder imageUrl options w = (Ok (PNG c), w')).
Proof.
  intros Hres. split.
  - intros c w' E.
    destruct (applyContourBorder_result _ _ _ _ _ E)
      as (img' & border & w1 & w2 & Hres' & _ & ->).
    rewrite Hres in Hres'. inversion Hres'. subst img'.
    apply size_composeFinal.
  - intros HW HH Hd0 Hd1.
    destruct (applyContourBorder_returns imageUrl options w img Hres HW HH Hd0 Hd1)
      as (c & w' & E & _).
    eauto.
Qed.

(** A URL that does not decode: both entry points reject with the load
    error, and the world is left as it was (nothing logged, no random
    number drawn). *)
Theorem load_failure_rejects (imageUrl : string)
    (options : ContourBorderOptions) (w : World) :
  resources w imageUrl = None ->
  createBorderMask imageUrl options w = (Throw (Error "图片加载失败"), w) /\
  applyContourBorder imageUrl options w = (Throw (Error "图片加载失败"), w).
Proof.
  intros Hres. split.
  - assert (H := createBorderMask_run imageUrl options w).
    rewrite Hres in H. exact H.
  - unfold applyContourBorder. rewrite bind_run. unfold loadImage.
    rewrite Hres. reflexivity.
Qed.

(** An image that decodes without extent (width or height 0): the first
    [getImageData] of [createBorderMask] throws, and [applyContourBorder]
    catches it, writes it to [console.error] and rejects with it; the
    random stream is untouched. *)
Theorem empty_image_rejects (imageUrl : string)
    (options : ContourBorderOptions) (w : World) (img : HTMLImage) :
  resources w imageUrl = Some img ->
  naturalWidth img = 0 \/ naturalHeight img = 0 ->
  exists w' earlier,
    applyContourBorder imageUrl options w = (Throw IndexSizeError, w') /\
    console w' = mkLog LevelError [LStr "边框生成失败:"; LErr IndexSizeError]
                 :: earlier /\
    randomPos w' = randomPos w.
Proof.
  intros Hres Hz. unfold applyContourBorder.
  rewrite bind_run. unfold loadImage at 1. rewrite Hres.
  rewrite bind_run. unfold tryCatch. cbv zeta.
  rewrite bind_run. unfold console_log at 1, consoleWrite at 1.
  rewrite bind_run.
  match goal with |- context [createBorderMask imageUrl options ?w1] =>
    assert (Hm := createBorderMask_run imageUrl options w1) end.
  cbn [resources] in Hm. rewrite Hres in Hm. destruct Hm as [entries Hm].
  assert (Ez : (naturalWidth img =? 0) || (naturalHeight img =? 0) = true).
  { apply orb_true_iff. rewrite !Z.eqb_eq. exact Hz. }
  rewrite Ez in Hm. rewrite Hm.
  unfold console_error, consoleWrite. rewrite bind_run. cbv [ret liftResult].
  eexists _, _. split; [reflexivity|]. split; reflexivity.
Qed.

End Settles.

Lemma returned_raster_is_twice_the_image_witness :
  exists c w',
    applyContourBorder "cutout.png" emptyOptions
                       (worldOf (uniformImage 6 4 255) samplePool)
    = (Ok (PNG c), w') /\ width c = 12 /\ height c = 8.
Proof.
  pose proof (returned_raster_is_twice_the_image "cutout.png" emptyOptions
                (worldOf (uniformImage 6 4 255) samplePool)
                (uniformImage 6 4 255) eq_refl) as [Hsize Hrun].
  destruct Hrun as (c & w' & E).
  - reflexivity.
  - reflexivity.
  - cbn. discriminate.
  - cbn. discriminate.
  - exists c, w'. split; [exact E|]. exact (Hsize c w' E).
Defined.

(** A world in which nothing decodes. *)
Definition offlineWorld : World := mkWorld (fun _ => None) samplePool 0 [].

Lemma load_failure_rejects_witness :
  applyContourBorder "missing.png" emptyOptions offlineWorld
  = (Throw (Error "图片加载失败"), offlineWorld).
Proof.
  exact (proj2 (load_failure_rejects "missing.png" emptyOptions offlineWorld
                  eq_refl)).
Defined.

Lemma empty_image_rejects_witness :
  exists w',
    applyContourBorder "cutout.png" emptyOptions
                       (worldOf (uniformImage 0 5 255) samplePool)
    = (Throw IndexSizeError, w').
Proof.
  destruct (empty_image_rejects "cutout.png" emptyOptions
              (worldOf (uniformImage 0 5 255) samplePool)
              (uniformImage 0 5 255) eq_refl (or_introl eq_refl))
    as (w' & earlier & E & _).
  exists w'. exact E.
Defined.

(** ** Stored pixels *)

(** What a bitmap holds after any drawing call: bytes, and no colour
    under alpha 0. *)
Definition storedPixel (p : RGBA) : Prop :=
  0 <= red p <= 255 /\ 0 <= green p <= 255 /\ 0 <= blue p <= 255 /\
  0 <= alpha p <= 255 /\ (alpha p = 0 -> p = transparentBlack).

Lemma stored_transparentBlack : storedPixel transparentBlack.
Proof. unfold storedPixel. simpl. repeat split; lia. Qed.

Lemma stored_storePixel (r g b a : Z) : storedPixel (storePixel r g b a).
Proof.
  unfold storePixel. destruct (clampByte a =? 0) eqn:E.
  - apply stored_transparentBlack.
  - apply Z.eqb_neq in E. unfold storedPixel. simpl.
    repeat split; try apply clampByte_range. intros H. contradiction.
Qed.

Lemma stored_blend (op : CompositeOp) (s d : RGBA) : storedPixel (blend op s d).
Proof. destruct op; simpl; apply stored_storePixel. Qed.

Lemma stored_paint (ctx : Context2D) layer (x y : Z) :
  storedPixel (pixelAt (canvas (paint ctx layer)) x y).
Proof.
  rewrite pixelAt_paint. destruct (inBounds _ _ x y);
    [apply stored_blend | apply stored_transparentBlack].
Qed.

Lemma stored_drawn_on_blank {platform : Platform} (ctx : Context2D)
    (src : CanvasImageSource)
    (sx sy sw sh dx dy dw dh : Q) (x y : Z) :
  blank (canvas ctx) ->
  storedPixel (pixelAt (canvas (drawImage9 ctx src sx sy sw sh dx dy dw dh)) x y).
Proof.
  intros Hb. unfold drawImage9. destruct (_ || _).
  - rewrite Hb. apply stored_transparentBlack.
  - apply stored_paint.
Qed.

Lemma stored_mask {platform : Platform} (img : HTMLImage) (x y : Z) :
  storedPixel (pixelAt (maskCanvasOf img) x y).
Proof.
  unfold maskCanvasOf, paintMask, drawImage5, workingContext.
  apply stored_drawn_on_blank, blank_cleared.
Qed.

Lemma clampByte_stored (z : Z) : 0 <= z <= 255 -> clampByte z = z.
Proof. apply clampByte_id. Qed.

(** Drawing nothing over a stored pixel leaves it. *)
Lemma blend_over_nothing (d : RGBA) :
  storedPixel d -> blend SourceOver transparentBlack d = d.
Proof.
  intros (Hr & Hg & Hb & Ha & Hz). cbn [blend alpha red green blue transparentBlack].
  rewrite Z.sub_0_r, (mul255_full _ Ha), !Z.mul_0_l, !Z.add_0_l.
  unfold storePixel. cbv zeta. rewrite (clampByte_id _ Ha).
  destruct (alpha d =? 0) eqn:E.
  - apply Z.eqb_eq in E. symmetry. now apply Hz.
  - apply Z.eqb_neq in E.
    rewrite !Z.div_mul, !clampByte_id by assumption. destruct d; reflexivity.
Qed.

(** A fully opaque stored pixel drawn over anything replaces it. *)
Lemma blend_over_opaque (s d : RGBA) :
  storedPixel s -> alpha s = 255 -> blend SourceOver s d = s.
Proof.
  intros (Hr & Hg & Hb & Ha & Hz) E. cbn [blend]. rewrite E.
  change (255 - 255) with 0. rewrite mul255_zero_r, Z.add_0_r.
  unfold storePixel. cbv zeta. change (clampByte 255 =? 0) with false. cbv iota.
  assert (Hdiv : forall c c', (c * 255 + c' * 0) / 255 = c).
  { intros c c'. rewrite Z.mul_0_r, Z.add_0_r. apply Z.div_mul. lia. }
  rewrite !Hdiv, !clampByte_id by assumption.
  change (clampByte 255) with 255. rewrite <- E. destruct s; reflexivity.
Qed.

Lemma alpha_blend_over_pos (s d : RGBA) :
  storedPixel s -> storedPixel d ->
  0 < alpha (blend SourceOver s d) -> 0 < alpha s \/ 0 < alpha d.
Proof.
  intros (_ & _ & _ & Hs & _) (_ & _ & _ & Hd & _).
  cbn [blend]. rewrite alpha_storePixel, clampByte_pos. intros H.
  destruct (Z_lt_le_dec 0 (alpha s)) as [|Hs0]; [now left|]. right.
  assert (Hm : 0 < mul255 (alpha d) (255 - alpha s)) by lia.
  apply mul255_pos in Hm; lia.
Qed.

(** ** The colour of the ring *)

Section RingColour.

Context {platform : Platform}.

Lemma pixelAt_ring (img : HTMLImage) (opts : Opts.t) (x y : Z) :
  pixelAt (ringCanvasOf img opts) x y =
  if inBounds (canvasWidth img) (canvasHeight img) x y
  then blend SourceIn (ringColour opts)
             (blend DestinationOut (pixelAt (innerCanvasOf img opts) x y)
                    (pixelAt (outerCanvasOf img opts) x y))
  else transparentBlack.
Proof.
  unfold ringCanvasOf, paintRing, fillRect.
  fold (outerCanvasOf img opts).
  set (outerCtx := paintOuter (workingContext img) (innerCanvasOf img opts) img opts).
  assert (Hcan : canvas outerCtx = outerCanvasOf img opts) by reflexivity.
  assert (Hst : state outerCtx = initialState)
    by (unfold outerCtx, paintOuter; now rewrite state_drawImage9).
  assert (How : width (canvas outerCtx) = canvasWidth img)
    by (unfold outerCtx, paintOuter; now rewrite width_drawImage9).
  assert (Hoh : height (canvas outerCtx) = canvasHeight img)
    by (unfold outerCtx, paintOuter; now rewrite height_drawImage9).
  assert (Hiw : width (innerCanvasOf img opts) = canvasWidth img)
    by (unfold innerCanvasOf, paintInner; now rewrite width_drawImage9).
  assert (Hih : height (innerCanvasOf img opts) = canvasHeight img)
    by (unfold innerCanvasOf, paintInner; now rewrite height_drawImage9).
  rewrite pixelAt_paint.
  rewrite gco_set_fillStyle, fillStyle_set_fillStyle, canvas_set_fillStyle.
  cbn [set_globalCompositeOperation withState canvas state
       globalCompositeOperation fillStyle].
  unfold drawImage3 at 1 2, drawImage5. rewrite width_drawImage9, height_drawImage9.
  cbn [set_globalCompositeOperation withState canvas]. rewrite How, Hoh.
  destruct (inBounds (canvasWidth img) (canvasHeight img) x y) eqn:Eb;
    [|reflexivity].
  rewrite (inSpan_inBounds _ _ _ _ Eb).
  rewrite pixelAt_drawImage3_same
    by (cbn [set_globalCompositeOperation withState canvas]; congruence).
  cbn [set_globalCompositeOperation withState canvas state
       globalCompositeOperation].
  rewrite How, Hoh, Eb, Hcan.
  unfold drawImage3, drawImage5. rewrite state_drawImage9.
  cbn [set_globalCompositeOperation withState state fillStyle]. rewrite Hst.
  reflexivity.
Qed.

Lemma stored_ring (img : HTMLImage) (opts : Opts.t) (x y : Z) :
  storedPixel (pixelAt (ringCanvasOf img opts) x y).
Proof.
  rewrite pixelAt_ring. destruct (inBounds _ _ x y);
    [apply stored_blend | apply stored_transparentBlack].
Qed.

(** Every pixel of the solid ring is either transparent black or has
    the red, green and blue of the border colour (the parsed [color], or
    black when the string is no colour): nothing of the subject's colour
    is left in the band. *)
Theorem ring_has_the_border_colour (img : HTMLImage) (opts : Opts.t) (x y : Z) :
  (opaqueAt (ringCanvasOf img opts) x y ->
   red (pixelAt (ringCanvasOf img opts) x y) = clampByte (red (ringColour opts)) /\
   green (pixelAt (ringCanvasOf img opts) x y) = clampByte (green (ringColour opts)) /\
   blue (pixelAt (ringCanvasOf img opts) x y) = clampByte (blue (ringColour opts))) /\
  (~ opaqueAt (ringCanvasOf img opts) x y ->
   pixelAt (ringCanvasOf img opts) x y = transparentBlack).
Proof.
  unfold opaqueAt, alphaAt. rewrite pixelAt_ring.
  destruct (inBounds (canvasWidth img) (canvasHeight img) x y).
  - cbn [blend]. unfold storePixel. cbv zeta.
    match goal with |- context [if ?b then _ else _] => destruct b eqn:E end.
    + split; [simpl; lia | reflexivity].
    + split; [intros _; repeat split|].
      intros H. exfalso. apply H. cbn [alpha].
      apply Z.eqb_neq in E.
      match goal with |- 0 < clampByte ?v => pose proof (clampByte_range v) end.
      lia.
  - split; [simpl; lia | reflexivity].
Qed.

End RingColour.

Lemma ring_has_the_border_colour_witness :
  let ring := ringCanvasOf (uniformImage 40 40 255)
                           (mergeOptions (mkOptions (Some "#ff8000"%string) None None
                                            None None None None None)) in
  opaqueAt ring 7 30 /\
  red (pixelAt ring 7 30) = 255 /\ green (pixelAt ring 7 30) = 128 /\
  blue (pixelAt ring 7 30) = 0.
Proof.
  intros ring.
  assert (Ho : opaqueAt ring 7 30) by (vm_compute; reflexivity).
  split; [exact Ho|].
  exact (proj1 (ring_has_the_border_colour (uniformImage 40 40 255) _ 7 30) Ho).
Defined.

(** ** What the stipple pass does to a pixel *)

Lemma mul255_le (d s : Z) : 0 <= d -> 0 <= s <= 255 -> 0 <= mul255 d s <= d.
Proof.
  intros Hd Hs. unfold mul255. split.
  - apply Z.div_pos; nia.
  - apply Z.lt_succ_r. apply Z.div_lt_upper_bound; nia.
Qed.

Lemma pixelAt_applyStencil {platform : Platform}
    (borderCanvas stencil : Canvas) (x y : Z) :
  width stencil = width borderCanvas -> height stencil = height borderCanvas ->
  pixelAt (applyStencil borderCanvas stencil) x y =
  if inBounds (width borderCanvas) (height borderCanvas) x y
  then blend DestinationIn (pixelAt stencil x y) (pixelAt borderCanvas x y)
  else transparentBlack.
Proof.
  intros Hw Hh. unfold applyStencil. cbv zeta.
  rewrite canvas_restore, pixelAt_drawImage3_same by assumption.
  reflexivity.
Qed.

Section StippleErases.

Context {platform : Platform}.

Definition stencilStored (w h : Z) (sctx : Context2D) : Prop :=
  width (canvas sctx) = w /\ height (canvas sctx) = h /\
  forall x y, storedPixel (pixelAt (canvas sctx) x y).

Lemma stencilStored_paint (w h : Z) (c : Context2D) layer :
  width (canvas c) = w -> height (canvas c) = h ->
  stencilStored w h (paint c layer).
Proof.
  intros Hw Hh. split; [|split]; try assumption. intros x y. apply stored_paint.
Qed.

Lemma stippleStep_stored (opts : Opts.t) (cr : list (Z * Z)) (s w h : Z)
    (sctx : Context2D) :
  stencilStored w h sctx ->
  post (stippleStep opts cr s w h sctx) (stencilStored w h).
Proof.
  intros (Hw & Hh & Ha). unfold stippleStep.
  apply post_bind_any; intros r0. apply post_bind_any; intros bp.
  apply post_bind_any; intros r1. apply post_bind_any; intros r2.
  cbv zeta.
  match goal with |- post (if ?b then _ else _) _ => destruct b end.
  { apply post_ret. split; [|split]; assumption. }
  apply post_bind_any; intros r3. apply post_bind_any; intros r4.
  apply post_bind_any; intros r5.
  match goal with |- post (if ?b then _ else _) _ => destruct b end.
  - apply post_bind_any; intros d.
    eapply post_bind.
    + apply post_liftResult. intros c Hc. exact (arc_ok _ _ _ _ _ _ _ Hc).
    + intros c Hc. apply post_ret. unfold fill.
      apply stencilStored_paint; rewrite Hc; assumption.
  - apply post_bind_any; intros len. apply post_bind_any; intros r6.
    apply post_bind_any; intros lw. apply post_ret. unfold stroke.
    apply stencilStored_paint; cbn [lineTo moveTo beginPath canvas];
      rewrite canvas_set_lineWidth; assumption.
Qed.

Lemma stippleLoop_stored (n : nat) (opts : Opts.t) (cr : list (Z * Z))
    (s w h : Z) (sctx : Context2D) :
  stencilStored w h sctx ->
  post (stippleLoop n opts cr s w h sctx) (stencilStored w h).
Proof.
  revert sctx. induction n as [|n IH]; intros sctx Hinv; simpl.
  - now apply post_ret.
  - eapply post_bind; [apply stippleStep_stored; exact Hinv | exact IH].
Qed.

Lemma stencilStored_initial (borderCanvas : Canvas) :
  stencilStored (width borderCanvas) (height borderCanvas)
                (stencilContext borderCanvas).
Proof.
  unfold stencilStored. rewrite canvas_stencilContext.
  split; [|split]; try reflexivity.
  intros x y. rewrite blank_cleared. apply stored_transparentBlack.
Qed.

(** The pixels the pass leaves: each is the canvas's own pixel seen
    through some stencil byte, or the pixel itself. *)
Lemma applyHandDrawnEffect_pixels (borderCanvas : Canvas)
    (options : ContourBorderOptions) :
  post (applyHandDrawnEffect borderCanvas options)
       (fun c => forall x y,
          pixelAt c x y = pixelAt borderCanvas x y \/
          exists s, 0 <= s <= 255 /\
            pixelAt c x y =
            storePixel (red (pixelAt borderCanvas x y))
                       (green (pixelAt borderCanvas x y))
                       (blue (pixelAt borderCanvas x y))
                       (mul255 (alpha (pixelAt borderCanvas x y)) s)).
Proof.
  intros wd c wd' E x y. rewrite applyHandDrawnEffect_run in E.
  destruct ((width borderCanvas =? 0) || (height borderCanvas =? 0));
    [discriminate E|].
  destruct (List.length (contourRegionsOf borderCanvas) =? 0)%nat.
  { inversion E; subst. now left. }
  destruct (stippleLoop _ _ _ _ _ _ _ wd) as [[sctx | e] wd1] eqn:El;
    [|discriminate E].
  inversion E; subst. clear E.
  destruct (stippleLoop_stored _ _ _ _ _ _ _ (stencilStored_initial borderCanvas)
                               _ _ _ El) as (Hw & Hh & Ha).
  rewrite pixelAt_applyStencil by assumption.
  destruct (inBounds (width borderCanvas) (height borderCanvas) x y) eqn:Eb.
  - right. exists (alpha (pixelAt (canvas sctx) x y)). split; [|reflexivity].
    apply (Ha x y).
  - left. symmetry. now apply pixelAt_outside.
Qed.

(** The stipple pass only erases.  On a canvas of stored pixels, the
    alpha it leaves at a pixel is at most the alpha that was there, and
    a pixel it leaves opaque keeps its red, green and blue. *)
Theorem stipple_only_erases (borderCanvas : Canvas)
    (options : ContourBorderOptions) (wd wd' : World) (c : Canvas) :
  (forall x y, storedPixel (pixelAt borderCanvas x y)) ->
  applyHandDrawnEffect borderCanvas options wd = (Ok c, wd') ->
  forall x y,
    0 <= alphaAt c x y <= alphaAt borderCanvas x y /\
    (opaqueAt c x y ->
     red (pixelAt c x y) = red (pixelAt borderCanvas x y) /\
     green (pixelAt c x y) = green (pixelAt borderCanvas x y) /\
     blue (pixelAt c x y) = blue (pixelAt borderCanvas x y)).
Proof.
  intros Hst E x y.
  destruct (Hst x y) as (Hr & Hg & Hb & Ha & _).
  unfold opaqueAt, alphaAt.
  destruct (applyHandDrawnEffect_pixels borderCanvas options wd c wd' E x y)
    as [-> | (s & Hs & ->)].
  - split; [lia | intros _; repeat split].
  - rewrite alpha_storePixel.
    assert (Hm := mul255_le _ _ (proj1 Ha) Hs).
    rewrite clampByte_id by lia. split; [lia|].
    intros Hpos. unfold storePixel. cbv zeta.
    rewrite (clampByte_id (mul255 _ _)) by lia.
    destruct (mul255 (alpha (pixelAt borderCanvas x y)) s =? 0) eqn:Ez.
    + apply Z.eqb_eq in Ez. lia.
    + cbn [red green blue]. rewrite !clampByte_id by assumption. repeat split.
Qed.

End StippleErases.

Lemma stipple_only_erases_witness :
  let img := uniformImage 40 40 255 in
  let ring := ringCanvasOf img (mergeOptions emptyOptions) in
  let wd := worldOf img halfPool in
  let stippled := valueOr ring (fst (applyHandDrawnEffect ring emptyOptions wd)) in
  isOk (fst (applyHandDrawnEffect ring emptyOptions wd)) = true /\
  alphaAt stippled 72 30 <= alphaAt ring 72 30.
Proof.
  intros img ring wd stippled.
  assert (Hok : isOk (fst (applyHandDrawnEffect ring emptyOptions wd)) = true)
    by (vm_compute; reflexivity).
  split; [exact Hok|].
  unfold stippled.
  destruct (applyHandDrawnEffect ring emptyOptions wd) as [[c | e] wd'] eqn:E;
    [|discriminate Hok].
  cbn [fst valueOr].
  exact (proj2 (proj1 (stipple_only_erases ring emptyOptions wd wd' c
                         (stored_ring img (mergeOptions emptyOptions)) E 72 30))).
Defined.

(** ** The final composition *)

Section Composition.

Context {platform : Platform}.

Lemma pixelAt_composeFinal (img : HTMLImage) (borderCanvas : Canvas) (x y : Z) :
  width borderCanvas = canvasWidth img ->
  height borderCanvas = canvasHeight img ->
  pixelAt (composeFinal img borderCanvas) x y =
  if inBounds (canvasWidth img) (canvasHeight img) x y
  then blend SourceOver (pixelAt borderCanvas x y) (pixelAt (maskCanvasOf img) x y)
  else transparentBlack.
Proof.
  intros Hw Hh. unfold composeFinal.
  assert (Hmw : width (canvas (paintMask (workingContext img) img)) = canvasWidth img)
    by (unfold paintMask, drawImage5; now rewrite width_drawImage9).
  assert (Hmh : height (canvas (paintMask (workingContext img) img)) = canvasHeight img)
    by (unfold paintMask, drawImage5; now rewrite height_drawImage9).
  rewrite pixelAt_drawImage3_same by congruence.
  rewrite Hmw, Hmh.
  assert (Hst : state (paintMask (workingContext img) img) = initialState)
    by (unfold paintMask, drawImage5; now rewrite state_drawImage9).
  rewrite Hst. reflexivity.
Qed.

(** In the raster a resolved call returns, a pixel where the solid ring
    is transparent is the pixel of the source image drawn centred on the
    working canvas, and a pixel is opaque only where that image or the
    solid ring is: the call adds nothing outside the band and changes
    nothing of the subject outside it. *)
Theorem final_raster_composition (imageUrl : string)
    (options : ContourBorderOptions) (w w' : World) (c : Canvas) :
  applyContourBorder imageUrl options w = (Ok (PNG c), w') ->
  exists img,
    resources w imageUrl = Some img /\
    forall x y,
      (alphaAt (ringCanvasOf img (mergeOptions options)) x y = 0 ->
       pixelAt c x y = pixelAt (maskCanvasOf img) x y) /\
      (opaqueAt c x y ->
       opaqueAt (maskCanvasOf img) x y \/
       opaqueAt (ringCanvasOf img (mergeOptions options)) x y).
Proof.
  intros E.
  destruct (applyContourBorder_result _ _ _ _ _ E)
    as (img & border & w1 & w2 & Hres & Hb & ->).
  exists img. split; [exact Hres|]. intros x y.
  set (ring := ringCanvasOf img (mergeOptions options)) in *.
  destruct (applyHandDrawnEffect_size ring options w1 border w2 Hb) as [Hw Hh].
  unfold ring in Hw, Hh. rewrite width_ring in Hw. rewrite height_ring in Hh.
  fold ring in Hw, Hh.
  assert (Hwithin := applyHandDrawnEffect_within ring options w1 border w2 Hb x y).
  assert (Hpix := applyHandDrawnEffect_pixels ring options w1 border w2 Hb x y).
  assert (Hsr : storedPixel (pixelAt ring x y)) by apply stored_ring.
  assert (Hsb : storedPixel (pixelAt border x y)).
  { destruct Hpix as [-> | (s & _ & ->)]; [exact Hsr | apply stored_storePixel]. }
  rewrite pixelAt_composeFinal by assumption.
  assert (Hmask_out : inBounds (canvasWidth img) (canvasHeight img) x y = false ->
                      pixelAt (maskCanvasOf img) x y = transparentBlack).
  { intros Eb. apply pixelAt_outside.
    unfold maskCanvasOf, paintMask, drawImage5.
    now rewrite width_drawImage9, height_drawImage9. }
  split.
  - intros Hz. destruct (inBounds _ _ x y) eqn:Eb.
    + assert (Hb0 : alpha (pixelAt border x y) = 0).
      { destruct Hsb as (_ & _ & _ & Ha & _).
        destruct (Z_lt_le_dec 0 (alpha (pixelAt border x y))) as [Hp|]; [|lia].
        apply Hwithin in Hp. unfold opaqueAt in Hp. lia. }
      destruct Hsb as (_ & _ & _ & _ & Htb). rewrite (Htb Hb0).
      apply blend_over_nothing, stored_mask.
    + symmetry. now apply Hmask_out.
  - unfold opaqueAt at 1, alphaAt at 1. rewrite pixelAt_composeFinal by assumption.
    destruct (inBounds _ _ x y); [|simpl; lia].
    intros Hp. apply alpha_blend_over_pos in Hp;
      [|exact Hsb | apply stored_mask].
    destruct Hp as [Hp | Hp]; [right; now apply Hwithin | now left].
Qed.

End Composition.

Lemma final_raster_composition_witness :
  exists c w',
    applyContourBorder "cutout.png" emptyOptions
                       (worldOf (uniformImage 40 40 255) halfPool)
    = (Ok (PNG c), w') /\
    pixelAt c 40 40 = mkRGBA 255 255 255 255.
Proof.
  destruct (applyContourBorder_returns "cutout.png" emptyOptions
              (worldOf (uniformImage 40 40 255) halfPool)
              (uniformImage 40 40 255) eq_refl eq_refl eq_refl)
    as (c & w' & E & _).
  - cbn. discriminate.
  - cbn. discriminate.
  - exists c, w'. split; [exact E|].
    destruct (final_raster_composition _ _ _ _ _ E) as (img & Hres & H).
    inversion Hres. subst img.
    rewrite (proj1 (H 40 40)); vm_compute; reflexivity.
Defined.

(** ** Degenerate offsets *)

Lemma inSpan_compat (s1 e1 s2 e2 v : Q) :
  (s1 == s2)%Q -> (e1 == e2)%Q -> (0 <= e2)%Q ->
  inSpan s1 e1 v = inSpan s2 e2 v.
Proof.
  intros Hs He H0.
  assert (H1 : (0 <= e1)%Q) by lra.
  destruct (inSpan s1 e1 v) eqn:E1; destruct (inSpan s2 e2 v) eqn:E2;
    try reflexivity; exfalso.
  - apply (inSpan_true _ _ _ H1) in E1.
    assert (inSpan s2 e2 v = true) by (apply (inSpan_true _ _ _ H0); lra).
    congruence.
  - apply (inSpan_true _ _ _ H0) in E2.
    assert (inSpan s1 e1 v = true) by (apply (inSpan_true _ _ _ H1); lra).
    congruence.
Qed.

Section Degenerate.

Context {platform : Platform}.

(** A draw whose destination rectangle is the source rectangle is
    unscaled and maps pixel centres to themselves: it copies the alpha
    of the pixels whose centre lies in the rectangle. *)
Lemma alphaAt_rescale_same (ctx : Context2D) (c : Canvas)
    (sx sy sw sh dx dy dw dh : Q) (x y : Z) :
  blank (canvas ctx) ->
  globalCompositeOperation (state ctx) = SourceOver ->
  (0 < sw)%Q -> (0 < sh)%Q ->
  (dx == sx)%Q -> (dw == sw)%Q -> (dy == sy)%Q -> (dh == sh)%Q ->
  alphaAt (canvas (drawImage9 ctx (FromCanvas c) sx sy sw sh dx dy dw dh)) x y =
  if inBounds (width (canvas ctx)) (height (canvas ctx)) x y
     && (inSpan sx sw (pixelCentre x) && inSpan sy sh (pixelCentre y))
  then clampByte (alphaAt c x y) else 0.
Proof.
  intros Hblank Hop Hsw Hsh Hdx Hdw Hdy Hdh.
  unfold alphaAt at 1, drawImage9.
  rewrite !Qeq_bool_pos by assumption. cbn [orb].
  rewrite pixelAt_paint, Hop, Hblank.
  destruct (inBounds _ _ x y); [|reflexivity]. cbn [andb].
  rewrite blend_over_clear. unfold imageLayer.
  rewrite (inSpan_compat dx dw sx sw) by lra.
  rewrite (inSpan_compat dy dh sy sh) by lra.
  destruct (inSpan sx sw (pixelCentre x) && inSpan sy sh (pixelCentre y));
    [|reflexivity].
  cbv zeta. rewrite (sample_aligned _ _ _ _ _ x y); [reflexivity | | | |].
  - rewrite Hdw. field. lra.
  - rewrite Hdh. field. lra.
  - rewrite Hdx, Hdw. field. lra.
  - rewrite Hdy, Hdh. field. lra.
Qed.

Lemma alphaAt_empty_canvas (c : Canvas) (x y : Z) :
  width c <= 0 \/ height c <= 0 -> alphaAt c x y = 0.
Proof.
  intros H. unfold alphaAt. rewrite pixelAt_outside; [reflexivity|].
  destruct (inBounds (width c) (height c) x y) eqn:E; [|reflexivity].
  apply inBounds_true in E. lia.
Qed.

(** With [gapPx = 0] the inner silhouette is the mask itself: the inner
    edge of the ring touches the subject. *)
Theorem zero_gap_inner_is_mask (img : HTMLImage) (opts : Opts.t) (x y : Z) :
  (Opts.gapPx opts == 0)%Q ->
  alphaAt (innerCanvasOf img opts) x y = alphaAt (maskCanvasOf img) x y.
Proof.
  intros Hg.
  destruct (Z_lt_le_dec 0 (naturalWidth img)) as [HW | HW];
    [destruct (Z_lt_le_dec 0 (naturalHeight img)) as [HH | HH]|].
  - unfold innerCanvasOf, paintInner, workingContext.
    rewrite alphaAt_rescale_same;
      try (apply blank_cleared || reflexivity || (apply inject_Z_pos; assumption));
      try (unfold innerX, innerY, innerWidth, innerHeight; lra).
    cbn [canvas clearRect withCanvas width height freshContext createCanvas].
    assert (Hr := alphaAt_mask_range img x y).
    destruct (inBounds (canvasWidth img) (canvasHeight img) x y
              && (inSpan (imageX img) (inject_Z (naturalWidth img)) (pixelCentre x)
                  && inSpan (imageY img) (inject_Z (naturalHeight img)) (pixelCentre y)))
      eqn:E.
    + now apply clampByte_id.
    + symmetry. apply not_opaque_zero; [lia|]. intros Ho.
      apply opaque_mask_spans in Ho. destruct Ho as (H1 & H2 & H3).
      rewrite H1, H2, H3 in E. discriminate E.
  - rewrite !alphaAt_empty_canvas; [reflexivity | |];
      right; unfold maskCanvasOf, innerCanvasOf, paintMask, paintInner, drawImage5;
      rewrite height_drawImage9; simpl; unfold canvasHeight; lia.
  - rewrite !alphaAt_empty_canvas; [reflexivity | |];
      left; unfold maskCanvasOf, innerCanvasOf, paintMask, paintInner, drawImage5;
      rewrite width_drawImage9; simpl; unfold canvasWidth; lia.
Qed.

(** With [strokePx = 0] the outer silhouette is the inner silhouette. *)
Lemma zero_stroke_outer_is_inner (img : HTMLImage) (opts : Opts.t) (x y : Z) :
  (0 <= Opts.gapPx opts)%Q -> (Opts.strokePx opts == 0)%Q ->
  alphaAt (outerCanvasOf img opts) x y = alphaAt (innerCanvasOf img opts) x y.
Proof.
  intros Hg Hs.
  destruct (Z_lt_le_dec 0 (naturalWidth img)) as [HW | HW];
    [destruct (Z_lt_le_dec 0 (naturalHeight img)) as [HH | HH]|].
  - assert (HWq := inject_Z_pos _ HW). assert (HHq := inject_Z_pos _ HH).
    unfold outerCanvasOf, paintOuter, workingContext.
    rewrite alphaAt_rescale_same;
      try (apply blank_cleared || reflexivity);
      try (unfold outerX, outerY, outerWidth, outerHeight,
                  innerWidth, innerHeight; lra).
    cbn [canvas clearRect withCanvas width height freshContext createCanvas].
    assert (Hr := alphaAt_inner_range img opts x y).
    destruct (inBounds (canvasWidth img) (canvasHeight img) x y
              && (inSpan (innerX img opts) (innerWidth img opts) (pixelCentre x)
                  && inSpan (innerY img opts) (innerHeight img opts) (pixelCentre y)))
      eqn:E.
    + now apply clampByte_id.
    + symmetry. apply not_opaque_zero; [lia|]. intros Ho.
      apply opaque_inner_spans in Ho. destruct Ho as (H1 & H2 & H3).
      rewrite H1, H2, H3 in E. discriminate E.
  - rewrite !alphaAt_empty_canvas; [reflexivity | |];
      right; unfold outerCanvasOf, innerCanvasOf, paintOuter, paintInner;
      rewrite height_drawImage9; simpl; unfold canvasHeight; lia.
  - rewrite !alphaAt_empty_canvas; [reflexivity | |];
      left; unfold outerCanvasOf, innerCanvasOf, paintOuter, paintInner;
      rewrite width_drawImage9; simpl; unfold canvasWidth; lia.
Qed.

(** With [strokePx = 0] the outer silhouette is the inner silhouette,
    and the ring is what [destination-out] leaves of a layer cut by
    itself: it has alpha > 0 only where the inner silhouette is partly
    transparent, and none where that is fully opaque or fully
    transparent. *)
Theorem zero_stroke_ring_on_soft_edge (img : HTMLImage) (opts : Opts.t)
    (x y : Z) :
  (0 <= Opts.gapPx opts)%Q -> (Opts.strokePx opts == 0)%Q ->
  alphaAt (outerCanvasOf img opts) x y = alphaAt (innerCanvasOf img opts) x y /\
  (opaqueAt (ringCanvasOf img opts) x y ->
     0 < alphaAt (innerCanvasOf img opts) x y < 255) /\
  (alphaAt (innerCanvasOf img opts) x y = 0 \/
   alphaAt (innerCanvasOf img opts) x y = 255 ->
     alphaAt (ringCanvasOf img opts) x y = 0).
Proof.
  intros Hg Hs.
  assert (Hoi := zero_stroke_outer_is_inner img opts x y Hg Hs).
  assert (Hsoft : opaqueAt (ringCanvasOf img opts) x y ->
                  0 < alphaAt (innerCanvasOf img opts) x y < 255).
  { intros Hp. apply ring_positive in Hp. destruct Hp as [Ho Hi].
    rewrite Hoi in Ho. lia. }
  split; [exact Hoi | split; [exact Hsoft |]].
  intros Hi.
  assert (Hr : 0 <= alphaAt (ringCanvasOf img opts) x y)
    by apply (stored_ring img opts x y).
  destruct (Z_lt_le_dec 0 (alphaAt (ringCanvasOf img opts) x y)) as [Hp|]; [|lia].
  apply Hsoft in Hp. lia.
Qed.

(** Ring pixels lie in the outer rectangle: within [gapPx + strokePx]
    of the image rectangle in each direction, and on the canvas. *)
Theorem ring_within_outer_rectangle (img : HTMLImage) (opts : Opts.t) (x y : Z) :
  (0 <= Opts.gapPx opts)%Q -> (0 <= Opts.strokePx opts)%Q ->
  opaqueAt (ringCanvasOf img opts) x y ->
  (0 <= x < canvasWidth img /\ 0 <= y < canvasHeight img) /\
  (imageX img - Opts.gapPx opts - Opts.strokePx opts <= pixelCentre x /\
   pixelCentre x < imageX img + inject_Z (naturalWidth img)
                   + Opts.gapPx opts + Opts.strokePx opts)%Q /\
  (imageY img - Opts.gapPx opts - Opts.strokePx opts <= pixelCentre y /\
   pixelCentre y < imageY img + inject_Z (naturalHeight img)
                   + Opts.gapPx opts + Opts.strokePx opts)%Q.
Proof.
  intros Hg Hs Ho. apply ring_positive in Ho. destruct Ho as [Ho _].
  apply opaque_outer_spans in Ho. destruct Ho as (Eb & Ex & Ey).
  assert (Hb := Eb). apply inBounds_true in Hb.
  unfold canvasWidth, canvasHeight in Hb.
  assert (HW : (0 <= inject_Z (naturalWidth img))%Q).
  { change 0%Q with (inject_Z 0). rewrite <- Zle_Qle. lia. }
  assert (HH : (0 <= inject_Z (naturalHeight img))%Q).
  { change 0%Q with (inject_Z 0). rewrite <- Zle_Qle. lia. }
  apply inSpan_true in Ex;
    [|unfold outerWidth, innerWidth; lra].
  apply inSpan_true in Ey;
    [|unfold outerHeight, innerHeight; lra].
  unfold outerX, innerX, outerWidth, innerWidth in Ex.
  unfold outerY, innerY, outerHeight, innerHeight in Ey.
  split; [exact (proj1 (inBounds_true _ _ _ _) Eb)|]. split; lra.
Qed.

End Degenerate.

(** When twice the gap plus the stroke does not exceed the image in
    either direction, every pixel whose centre lies in the outer
    rectangle is a pixel of the working canvas: nothing of the outer
    silhouette is clipped. *)
Theorem outer_rectangle_fits (img : HTMLImage) (opts : Opts.t) (x y : Z) :
  (0 <= Opts.gapPx opts)%Q -> (0 <= Opts.strokePx opts)%Q ->
  (2 * (Opts.gapPx opts + Opts.strokePx opts) <= inject_Z (naturalWidth img))%Q ->
  (2 * (Opts.gapPx opts + Opts.strokePx opts) <= inject_Z (naturalHeight img))%Q ->
  inSpan (outerX img opts) (outerWidth img opts) (pixelCentre x) = true ->
  inSpan (outerY img opts) (outerHeight img opts) (pixelCentre y) = true ->
  inBounds (canvasWidth img) (canvasHeight img) x y = true.
Proof.
  intros Hg Hs HW HH Ex Ey.
  assert (Hcx := outerX_centred img opts). assert (Hcy := outerY_centred img opts).
  unfold centredOn in Hcx, Hcy.
  apply inSpan_true in Ex; [|unfold outerWidth, innerWidth; lra].
  apply inSpan_true in Ey; [|unfold outerHeight, innerHeight; lra].
  assert (Hx0 : (inject_Z 0 <= pixelCentre x)%Q).
  { change (inject_Z 0) with 0%Q. unfold outerWidth, innerWidth in *. lra. }
  assert (Hy0 : (inject_Z 0 <= pixelCentre y)%Q).
  { change (inject_Z 0) with 0%Q. unfold outerHeight, innerHeight in *. lra. }
  assert (Hx1 : (pixelCentre x < inject_Z (canvasWidth img))%Q).
  { unfold canvasWidth. rewrite inject_Z_mult.
    change (inject_Z 2) with 2%Q. unfold outerWidth, innerWidth in *. lra. }
  assert (Hy1 : (pixelCentre y < inject_Z (canvasHeight img))%Q).
  { unfold canvasHeight. rewrite inject_Z_mult.
    change (inject_Z 2) with 2%Q. unfold outerHeight, innerHeight in *. lra. }
  apply pixelCentre_ge in Hx0, Hy0. apply pixelCentre_lt in Hx1, Hy1.
  apply inBounds_true. lia.
Qed.

Lemma zero_gap_inner_is_mask_witness :
  alphaAt (innerCanvasOf (cornerDotImage 4 4) (mergeOptions (withGapStroke 0 2))) 2 2
  = 255 /\
  alphaAt (maskCanvasOf (cornerDotImage 4 4)) 2 2 = 255.
Proof.
  assert (Hm : alphaAt (maskCanvasOf (cornerDotImage 4 4)) 2 2 = 255)
    by (vm_compute; reflexivity).
  split; [|exact Hm].
  rewrite (zero_gap_inner_is_mask (cornerDotImage 4 4)
             (mergeOptions (withGapStroke 0 2)) 2 2); [exact Hm|].
  reflexivity.
Defined.

(** An opaque 40 x 40 image, gap 10 and stroke 0: in the middle of the
    inner silhouette there is no ring; on its smoothed left edge, at
    (10, 40), inner and outer both have alpha 213 and the ring is left
    with alpha 35. *)
Lemma zero_stroke_ring_on_soft_edge_witness :
  let img := uniformImage 40 40 255 in
  let opts := mergeOptions (withGapStroke 10 0) in
  alphaAt (ringCanvasOf img opts) 30 30 = 0 /\
  alphaAt (innerCanvasOf img opts) 10 40 = 213 /\
  alphaAt (outerCanvasOf img opts) 10 40 = 213 /\
  alphaAt (ringCanvasOf img opts) 10 40 = 35.
Proof.
  intros img opts.
  assert (Hg : (0 <= Opts.gapPx opts)%Q) by (cbn; discriminate).
  assert (Hs : (Opts.strokePx opts == 0)%Q) by reflexivity.
  assert (Hfull : alphaAt (innerCanvasOf img opts) 30 30 = 255)
    by (vm_compute; reflexivity).
  assert (Hedge : alphaAt (innerCanvasOf img opts) 10 40 = 213)
    by (vm_compute; reflexivity).
  split; [|split; [exact Hedge | split]].
  - exact (proj2 (proj2 (zero_stroke_ring_on_soft_edge img opts 30 30 Hg Hs))
                 (or_intror Hfull)).
  - rewrite (proj1 (zero_stroke_ring_on_soft_edge img opts 10 40 Hg Hs)).
    exact Hedge.
  - vm_compute. reflexivity.
Defined.

Lemma ring_within_outer_rectangle_witness :
  let img := uniformImage 40 40 255 in
  let opts := mergeOptions emptyOptions in
  opaqueAt (ringCanvasOf img opts) 7 30 /\
  (imageX img - Opts.gapPx opts - Opts.strokePx opts <= pixelCentre 7)%Q.
Proof.
  intros img opts.
  assert (Ho : opaqueAt (ringCanvasOf img opts) 7 30) by (vm_compute; reflexivity).
  split; [exact Ho|].
  refine (proj1 (proj1 (proj2 (ring_within_outer_rectangle img opts 7 30 _ _ Ho)))).
  - cbn. discriminate.
  - cbn. discriminate.
Defined.

Lemma outer_rectangle_fits_witness :
  inBounds (canvasWidth (uniformImage 40 40 255))
           (canvasHeight (uniformImage 40 40 255)) 5 74 = true.
Proof.
  apply (outer_rectangle_fits (uniformImage 40 40 255) (mergeOptions emptyOptions)).
  - cbn. discriminate.
  - cbn. discriminate.
  - vm_compute. discriminate.
  - vm_compute. discriminate.
  - vm_compute. reflexivity.
  - vm_compute. reflexivity.
Defined.

(** ** Marks outside the subject *)

(** A stored pixel drawn on a clear one is kept as it is. *)
Lemma blend_on_clear (s : RGBA) :
  storedPixel s -> blend SourceOver s transparentBlack = s.
Proof.
  intros (Hr & Hg & Hb & Ha & Hz).
  cbn [blend alpha red green blue transparentBlack].
  rewrite mul255_zero_l, !Z.mul_0_l, !Z.add_0_r.
  unfold storePixel. cbv zeta. rewrite (clampByte_id _ Ha).
  destruct (alpha s =? 0) eqn:E.
  - apply Z.eqb_eq in E. symmetry. now apply Hz.
  - apply Z.eqb_neq in E.
    rewrite !Z.div_mul, !clampByte_id by assumption. destruct s; reflexivity.
Qed.

Section Marks.

Context {platform : Platform}.

Lemma ring_rgb (img : HTMLImage) (opts : Opts.t) (x y : Z) :
  opaqueAt (ringCanvasOf img opts) x y ->
  red (pixelAt (ringCanvasOf img opts) x y) = clampByte (red (ringColour opts)) /\
  green (pixelAt (ringCanvasOf img opts) x y) = clampByte (green (ringColour opts)) /\
  blue (pixelAt (ringCanvasOf img opts) x y) = clampByte (blue (ringColour opts)).
Proof.
  unfold opaqueAt, alphaAt. rewrite pixelAt_ring.
  destruct (inBounds (canvasWidth img) (canvasHeight img) x y); [|simpl; lia].
  cbn [blend]. unfold storePixel. cbv zeta.
  match goal with |- context [if ?b then _ else _] => destruct b end.
  - simpl. lia.
  - intros _. repeat split.
Qed.

(** In the returned raster, an opaque pixel outside the subject (where
    the centred source image is transparent) has the red, green and blue
    of the border colour. *)
Theorem marks_have_the_border_colour (imageUrl : string)
    (options : ContourBorderOptions) (w w' : World) (c : Canvas) :
  applyContourBorder imageUrl options w = (Ok (PNG c), w') ->
  exists img,
    resources w imageUrl = Some img /\
    forall x y,
      ~ opaqueAt (maskCanvasOf img) x y -> opaqueAt c x y ->
      red (pixelAt c x y) = clampByte (red (ringColour (mergeOptions options))) /\
      green (pixelAt c x y) = clampByte (green (ringColour (mergeOptions options))) /\
      blue (pixelAt c x y) = clampByte (blue (ringColour (mergeOptions options))).
Proof.
  intros E.
  destruct (applyContourBorder_result _ _ _ _ _ E)
    as (img & border & w1 & w2 & Hres & Hb & ->).
  exists img. split; [exact Hres|]. intros x y Hm.
  set (ring := ringCanvasOf img (mergeOptions options)) in *.
  destruct (applyHandDrawnEffect_size ring options w1 border w2 Hb) as [Hw Hh].
  unfold ring in Hw, Hh. rewrite width_ring in Hw. rewrite height_ring in Hh.
  fold ring in Hw, Hh.
  assert (Hwithin := applyHandDrawnEffect_within ring options w1 border w2 Hb x y).
  assert (Hpix := applyHandDrawnEffect_pixels ring options w1 border w2 Hb x y).
  assert (Hsr : storedPixel (pixelAt ring x y)) by apply stored_ring.
  assert (Hsb : storedPixel (pixelAt border x y)).
  { destruct Hpix as [-> | (s & _ & ->)]; [exact Hsr | apply stored_storePixel]. }
  assert (Hmask : pixelAt (maskCanvasOf img) x y = transparentBlack).
  { destruct (stored_mask img x y) as (_ & _ & _ & Ha & Hz).
    apply Hz. unfold opaqueAt, alphaAt in Hm. lia. }
  unfold opaqueAt, alphaAt. rewrite pixelAt_composeFinal by assumption.
  destruct (inBounds _ _ x y); [|simpl; lia].
  rewrite Hmask, (blend_on_clear _ Hsb). intros Ho.
  assert (Hring : opaqueAt ring x y) by (apply Hwithin; exact Ho).
  destruct (ring_rgb img (mergeOptions options) x y Hring) as (Er & Eg & Eb).
  fold ring in Er, Eg, Eb.
  destruct Hsr as (Hr & Hg & Hbl & _).
  destruct Hpix as [Ep | (s & Hs & Ep)]; rewrite Ep in Ho |- *.
  - split; [exact Er | split; [exact Eg | exact Eb]].
  - unfold storePixel in Ho |- *. cbv zeta in Ho |- *.
    destruct (clampByte (mul255 (alpha (pixelAt ring x y)) s) =? 0).
    + simpl in Ho. lia.
    + cbn [red green blue].
      rewrite (clampByte_id _ Hr), (clampByte_id _ Hg), (clampByte_id _ Hbl).
      split; [exact Er | split; [exact Eg | exact Eb]].
Qed.

End Marks.

Lemma marks_have_the_border_colour_witness :
  exists c w',
    applyContourBorder "cutout.png" emptyOptions
                       (worldOf (uniformImage 40 40 255) halfPool)
    = (Ok (PNG c), w').
Proof.
  destruct (applyContourBorder_returns "cutout.png" emptyOptions
              (worldOf (uniformImage 40 40 255) halfPool)
              (uniformImage 40 40 255) eq_refl eq_refl eq_refl)
    as (c & w' & E & _).
  - cbn. discriminate.
  - cbn. discriminate.
  - destruct (marks_have_the_border_colour _ _ _ _ _ E) as (img & _ & _).
    exists c, w'. exact E.
Defined.

(** ** Where the subject is drawn *)

Lemma floor_unique (q : Q) (n : Z) :
  (inject_Z n <= q)%Q -> (q < inject_Z n + 1)%Q -> Qfloor q = n.
Proof.
  intros Hlo Hhi.
  assert (H1 := Qfloor_le q). assert (H2 := Qlt_floor q).
  rewrite inject_Z_plus in H2. change (inject_Z 1) with 1%Q in H2.
  assert (Ha : (inject_Z (Qfloor q) < inject_Z (n + 1))%Q).
  { rewrite inject_Z_plus. change (inject_Z 1) with 1%Q. lra. }
  assert (Hb : (inject_Z n < inject_Z (Qfloor q + 1))%Q).
  { rewrite inject_Z_plus. change (inject_Z 1) with 1%Q. lra. }
  rewrite <- Zlt_Qlt in Ha, Hb. lia.
Qed.

Lemma half_split (W : Z) :
  (inject_Z (W * 2 - W) / 2 ==
   inject_Z (W / 2) + inject_Z (W mod 2) * (1 # 2))%Q.
Proof.
  replace (W * 2 - W) with (2 * (W / 2) + W mod 2)
    by (rewrite <- Z.div_mod by lia; lia).
  rewrite inject_Z_plus, inject_Z_mult. change (inject_Z 2) with 2%Q. field.
Qed.

(** The columns of the canvas the image is drawn to. *)
Lemma centred_column (W x : Z) :
  0 < W ->
  inSpan (inject_Z (W * 2 - W) / 2) (inject_Z W) (pixelCentre x) = true
  <-> W / 2 <= x < W / 2 + W.
Proof.
  intros HW. set (start := (inject_Z (W * 2 - W) / 2)%Q).
  assert (HWq := inject_Z_pos _ HW).
  assert (Hs : (start == inject_Z (W / 2) + inject_Z (W mod 2) * (1 # 2))%Q)
    by apply half_split.
  assert (Hdm : W = 2 * (W / 2) + W mod 2) by (apply Z.div_mod; lia).
  assert (Hr := Z.mod_pos_bound W 2 eq_refl).
  assert (HWs : (inject_Z W == 2 * inject_Z (W / 2) + inject_Z (W mod 2))%Q).
  { rewrite Hdm at 1. rewrite inject_Z_plus, inject_Z_mult. reflexivity. }
  set (k := W / 2) in *. set (r := W mod 2) in *.
  assert (Hrq : (inject_Z r == 0 \/ inject_Z r == 1)%Q).
  { assert (r = 0 \/ r = 1) as [-> | ->] by lia; [left | right]; reflexivity. }
  rewrite inSpan_true by lra. unfold pixelCentre, half. split.
  - intros [Hlo Hhi].
    assert (Ha : (inject_Z k < inject_Z (x + 1))%Q).
    { rewrite inject_Z_plus. change (inject_Z 1) with 1%Q. destruct Hrq; lra. }
    assert (Hb : (inject_Z x < inject_Z (k + W))%Q).
    { rewrite inject_Z_plus. destruct Hrq; lra. }
    rewrite <- Zlt_Qlt in Ha, Hb. lia.
  - intros [Hlo Hhi].
    assert (Ha : (inject_Z k <= inject_Z x)%Q) by (rewrite <- Zle_Qle; lia).
    assert (Hb : (inject_Z (x + 1) <= inject_Z (k + W))%Q) by (rewrite <- Zle_Qle; lia).
    rewrite !inject_Z_plus in Hb. change (inject_Z 1) with 1%Q in Hb.
    destruct Hrq; lra.
Qed.

(** For an even extent the image starts on a pixel boundary, and the
    centre of canvas column [x] is the centre of image column
    [x - W/2]. *)
Lemma aligned_column (W x : Z) :
  0 < W -> W mod 2 = 0 ->
  (0 + (pixelCentre x - inject_Z (W * 2 - W) / 2) * inject_Z W / inject_Z W
   == pixelCentre (x - W / 2))%Q.
Proof.
  intros HW He. assert (HWq := inject_Z_pos _ HW).
  assert (Hs := half_split W). rewrite He in Hs.
  change (inject_Z 0) with 0%Q in Hs.
  assert (E : (0 + (pixelCentre x - inject_Z (W * 2 - W) / 2) * inject_Z W
                   / inject_Z W
               == pixelCentre x - inject_Z (W * 2 - W) / 2)%Q) by (field; lra).
  rewrite E, Hs. unfold pixelCentre, Zminus.
  rewrite inject_Z_plus, inject_Z_opp. ring.
Qed.

Lemma blend_raw_on_clear (s : RGBA) :
  blend SourceOver s transparentBlack
  = storePixel (red s) (green s) (blue s) (alpha s).
Proof.
  cbn [blend alpha red green blue transparentBlack].
  rewrite mul255_zero_l, !Z.mul_0_l, !Z.add_0_r.
  unfold storePixel. cbv zeta.
  destruct (clampByte (alpha s) =? 0) eqn:E; [reflexivity|].
  apply Z.eqb_neq in E.
  assert (Ha : alpha s <> 0) by (intros H; rewrite H in E; apply E; reflexivity).
  now rewrite !Z.div_mul.
Qed.

(** For an image of even width and height, step 1 is an unscaled,
    pixel-aligned draw: image pixel (i, j) lands on canvas pixel
    (i + W/2, j + H/2) as it is stored, and the rest of the working
    canvas stays transparent.  (With an odd extent the image starts
    half a pixel off the grid, and smoothing blends neighbours.) *)
Theorem mask_is_the_image_centred {platform : Platform} (img : HTMLImage)
    (x y : Z) :
  0 < naturalWidth img -> 0 < naturalHeight img ->
  naturalWidth img mod 2 = 0 -> naturalHeight img mod 2 = 0 ->
  pixelAt (maskCanvasOf img) x y =
  let i := x - naturalWidth img / 2 in
  let j := y - naturalHeight img / 2 in
  if inBounds (naturalWidth img) (naturalHeight img) i j
  then storePixel (red (imagePixel img i j)) (green (imagePixel img i j))
                  (blue (imagePixel img i j)) (alpha (imagePixel img i j))
  else transparentBlack.
Proof.
  intros HW HH EW EH. cbv zeta.
  assert (Sx := centred_column (naturalWidth img) x HW).
  assert (Sy := centred_column (naturalHeight img) y HH).
  assert (HWq := inject_Z_pos _ HW). assert (HHq := inject_Z_pos _ HH).
  assert (Hk : 0 <= naturalWidth img / 2) by (apply Z.div_pos; lia).
  assert (Hl : 0 <= naturalHeight img / 2) by (apply Z.div_pos; lia).
  assert (Hk2 : naturalWidth img / 2 + naturalWidth img <= naturalWidth img * 2).
  { assert (naturalWidth img / 2 <= naturalWidth img); [|lia].
    apply Z.div_le_upper_bound; lia. }
  assert (Hl2 : naturalHeight img / 2 + naturalHeight img <= naturalHeight img * 2).
  { assert (naturalHeight img / 2 <= naturalHeight img); [|lia].
    apply Z.div_le_upper_bound; lia. }
  unfold maskCanvasOf, paintMask, drawImage5, drawImage9, workingContext.
  cbn [sourceWidth sourceHeight].
  rewrite !Qeq_bool_pos by assumption. cbn [orb].
  rewrite pixelAt_paint, blank_cleared.
  cbn [canvas clearRect withCanvas width height freshContext createCanvas
       state globalCompositeOperation initialState].
  unfold imageLayer, imageX, imageY, canvasWidth, canvasHeight.
  destruct (inBounds (naturalWidth img) (naturalHeight img)
                     (x - naturalWidth img / 2) (y - naturalHeight img / 2)) eqn:Ei.
  - apply inBounds_true in Ei.
    assert (Ec : inBounds (naturalWidth img * 2) (naturalHeight img * 2) x y = true)
      by (apply inBounds_true; lia).
    rewrite Ec, (proj2 Sx), (proj2 Sy) by lia. cbn [andb]. cbv zeta.
    rewrite (sample_aligned _ _ _ _ _ (x - naturalWidth img / 2)
                            (y - naturalHeight img / 2)).
    + cbn [sourcePixel].
      rewrite (proj2 (inBounds_true _ _ _ _) Ei). apply blend_raw_on_clear.
    + field. lra.
    + field. lra.
    + now apply aligned_column.
    + now apply aligned_column.
  - destruct (inBounds (naturalWidth img * 2) (naturalHeight img * 2) x y);
      [|reflexivity].
    destruct (inSpan _ _ (pixelCentre x)) eqn:Ex;
      [destruct (inSpan _ _ (pixelCentre y)) eqn:Ey|]; cbn [andb];
      try reflexivity.
    exfalso. pose proof (proj1 Sx eq_refl) as Bx. pose proof (proj1 Sy eq_refl) as By.
    assert (inBounds (naturalWidth img) (naturalHeight img)
                     (x - naturalWidth img / 2) (y - naturalHeight img / 2) = true)
      by (apply inBounds_true; lia).
    congruence.
Qed.

(** The corner dot of a 4 x 2 image lands on canvas pixel (2, 1). *)
Lemma mask_is_the_image_centred_witness :
  pixelAt (maskCanvasOf (cornerDotImage 4 2)) 2 1 = mkRGBA 255 255 255 255.
Proof.
  rewrite (mask_is_the_image_centred (cornerDotImage 4 2) 2 1
             eq_refl eq_refl eq_refl eq_refl).
  reflexivity.
Defined.

(** An odd extent, for comparison: the corner dot of a 5 x 3 image is
    drawn half a pixel off the grid in both directions, and smoothing
    spreads it over four canvas pixels with alpha 64 each. *)
Lemma odd_image_is_smoothed :
  alphaAt (maskCanvasOf (cornerDotImage 5 3)) 2 1 = 64 /\
  alphaAt (maskCanvasOf (cornerDotImage 5 3)) 3 1 = 64 /\
  alphaAt (maskCanvasOf (cornerDotImage 5 3)) 2 2 = 64 /\
  alphaAt (maskCanvasOf (cornerDotImage 5 3)) 3 2 = 64.
Proof. repeat split; vm_compute; reflexivity. Qed.
